(** * algo-jit: the instrumentation-and-trace pipeline

    A shallow embedding of
    - [packages/instrumenter/src/index.ts] (the source-to-source transform),
    - [packages/executor/dist/index.js]    (the sandboxed runner and the
      [__trace] runtime object),
    - the [file:changed] handler of [packages/cli/dist/index.js],
    - [packages/server/dist/index.js]      (the WebSocket server),
    - [packages/watcher/src/index.ts]      (the debounced file watcher), and
    - the playback hook and the bars of [packages/visualizer],
    together with the properties of the pipeline that the specification
    states about them.

    What the repository calls and does not contain is a parameter of the
    definitions that use it (a [Section] variable): the parser of ts-morph
    ([createSourceFile]) and its text manipulation ([replaceWithText]),
    which may each raise; [JSON.stringify], which raises on a value it
    cannot serialize; the listeners of the watcher's events; the clock.
    Concrete instances are given for a fragment of the language, and are
    partial outside it: [Frontend.parseProgram] and [frontEnd] build the
    tree of a text of the fragment, [Instrumenter.manipulation] replaces a
    statement that is not in a block, and [Engine] is a model of what the
    script engine behind [vm.runInNewContext] does with a program of the
    fragment. *)

From Stdlib Require Import ZArith Ascii String.
From stdpp Require Import gmap strings list pretty sorting.

Open Scope string_scope.
Open Scope Z_scope.

(** * Syntax trees

    The nodes mirror the [SyntaxKind]s of the TypeScript tree that the
    instrumenter inspects.  Every node carries its range in the file text:
    [pos] is what [getStart()] returns (leading white space excluded) and
    [fin] what [getEnd()] returns. *)

Module Syntax.

Record Range := mkRange { pos : nat; fin : nat }.

Inductive Operator :=
  | EqualsToken
  | PlusToken
  | MinusToken
  | AsteriskToken
  | LessThanToken
  | GreaterThanToken
  | LessThanEqualsToken
  | GreaterThanEqualsToken
  | EqualsEqualsEqualsToken
  | ExclamationEqualsEqualsToken.

#[local] Unset Elimination Schemes.

Inductive Expr :=
  | NumericLiteral (r : Range) (n : Z)
  | StringLiteral (r : Range) (s : string)
  | Identifier (r : Range) (x : string)
  | TrueKeyword (r : Range)
  | FalseKeyword (r : Range)
  | NullKeyword (r : Range)
  | ArrayLiteralExpression (r : Range) (elements : list Expr)
  | ElementAccessExpression (r : Range) (expression : Expr)
      (argumentExpression : option Expr)
  | PropertyAccessExpression (r : Range) (expression : Expr) (name : string)
  | CallExpression (r : Range) (expression : Expr) (arguments : list Expr)
  | ParenthesizedExpression (r : Range) (expression : Expr)
  | BinaryExpression (r : Range) (left : Expr) (operatorToken : Operator)
      (right : Expr).

#[local] Set Elimination Schemes.

Inductive DeclarationKind := Const | Let | Var.

Record VariableDeclaration := mkDecl {
  declRange : Range;
  declName : string;
  declInitializer : option Expr
}.

#[local] Unset Elimination Schemes.

Inductive Stmt :=
  | VariableStatement (r : Range) (k : DeclarationKind)
      (declarations : list VariableDeclaration)
  | ExpressionStatement (r : Range) (expression : Expr)
  | Block (r : Range) (statements : list Stmt)
  | WhileStatement (r : Range) (condition : Expr) (body : Stmt)
  | IfStatement (r : Range) (condition : Expr) (thenStatement : Stmt)
      (elseStatement : option Stmt)
  | ThrowStatement (r : Range) (expression : Expr).

#[local] Set Elimination Schemes.

Definition exprRange (e : Expr) : Range :=
  match e with
  | NumericLiteral r _ | StringLiteral r _ | Identifier r _
  | TrueKeyword r | FalseKeyword r | NullKeyword r
  | ArrayLiteralExpression r _ | ElementAccessExpression r _ _
  | PropertyAccessExpression r _ _ | CallExpression r _ _
  | ParenthesizedExpression r _ | BinaryExpression r _ _ _ => r
  end.

Definition stmtRange (s : Stmt) : Range :=
  match s with
  | VariableStatement r _ _ | ExpressionStatement r _ | Block r _
  | WhileStatement r _ _ | IfStatement r _ _ _ | ThrowStatement r _ => r
  end.

#[global] Instance Range_eq_dec : EqDecision Range.
Proof. solve_decision. Defined.
#[global] Instance Operator_eq_dec : EqDecision Operator.
Proof. solve_decision. Defined.
#[global] Instance DeclarationKind_eq_dec : EqDecision DeclarationKind.
Proof. solve_decision. Defined.

End Syntax.
Export Syntax.

(** * A front end for a fragment of the language

    Declarations ([const], [let], [var]) with identifier names, expression
    statements, blocks, [while], [if] and [throw]; expressions built from
    decimal integer literals, quoted strings without escapes, identifiers,
    array literals, element and property access, calls, parentheses and the
    binary operators of [Operator].  Statements end with a semicolon.  Text
    outside the fragment is rejected ([None]). *)

Module Frontend.

Inductive Token :=
  | TNumber (n : Z)
  | TString (s : string)
  | TName (s : string)
  | TPunct (s : string).

Record Tok := mkTok { tok : Token; tpos : nat; tfin : nat }.

Definition code (c : ascii) : nat := nat_of_ascii c.

Definition isWhiteSpace (c : ascii) : bool :=
  let n := code c in
  ((n =? 32) || (n =? 9) || (n =? 10) || (n =? 13))%nat.

Definition isDigit (c : ascii) : bool :=
  let n := code c in ((48 <=? n) && (n <=? 57))%nat.

Definition isIdentifierStart (c : ascii) : bool :=
  let n := code c in
  (((65 <=? n) && (n <=? 90)) || ((97 <=? n) && (n <=? 122))
   || (n =? 95) || (n =? 36))%nat.

Definition isIdentifierPart (c : ascii) : bool :=
  isIdentifierStart c || isDigit c.

Definition isOperatorChar (c : ascii) : bool :=
  let n := code c in
  ((n =? 61) || (n =? 33) || (n =? 60) || (n =? 62))%nat.

Definition isQuote (c : ascii) : bool :=
  let n := code c in ((n =? 39) || (n =? 34))%nat.

(** The longest prefix of [cs] whose characters satisfy [p], and the rest. *)
Fixpoint scan (p : ascii → bool) (cs : list ascii)
    : list ascii * list ascii :=
  match cs with
  | c :: cs' =>
      if p c then let '(pre, rest) := scan p cs' in (c :: pre, rest)
      else ([], cs)
  | [] => ([], [])
  end.

Definition digitsValue (ds : list ascii) : Z :=
  fold_left (fun acc d => 10 * acc + Z.of_nat (code d - 48)) ds 0.

Definition operators : list string :=
  ["="; "==="; "!=="; "<"; ">"; "<="; ">="].

Definition singles : list nat :=
  [40; 41; 91; 93; 123; 125; 59; 44; 46; 43; 45; 42]%nat.

(** One token at the head of [cs]: the token and the number of characters
    it spans. *)
Definition lexOne (cs : list ascii) : option (Token * nat) :=
  match cs with
  | [] => None
  | c :: cs' =>
      if isDigit c then
        let '(ds, rest) := scan isDigit cs in
        match rest with
        | d :: _ =>
            if isIdentifierPart d || (code d =? 46)%nat then None
            else if (1 <? length ds)%nat && (code c =? 48)%nat then None
            else Some (TNumber (digitsValue ds), length ds)
        | [] =>
            if (1 <? length ds)%nat && (code c =? 48)%nat then None
            else Some (TNumber (digitsValue ds), length ds)
        end
      else if isIdentifierStart c then
        let '(xs, _) := scan isIdentifierPart cs in
        Some (TName (string_of_list_ascii xs), length xs)
      else if isQuote c then
        let '(body, rest) :=
          scan (fun d => negb (code d =? code c)%nat
                         && negb (code d =? 92)%nat
                         && negb (code d =? 10)%nat
                         && negb (code d =? 13)%nat) cs' in
        match rest with
        | d :: _ =>
            if (code d =? code c)%nat
            then Some (TString (string_of_list_ascii body),
                       (length body + 2)%nat)
            else None
        | [] => None
        end
      else if isOperatorChar c then
        let '(os, _) := scan isOperatorChar cs in
        let s := string_of_list_ascii os in
        if bool_decide (s ∈ operators) then Some (TPunct s, length os)
        else None
      else if bool_decide (code c ∈ singles) then
        Some (TPunct (String c EmptyString), 1%nat)
      else None
  end.

Fixpoint lexAll (fuel : nat) (p : nat) (cs : list ascii) : option (list Tok) :=
  match fuel with
  | O => match cs with [] => Some [] | _ => None end
  | S fuel' =>
      match cs with
      | [] => Some []
      | c :: cs' =>
          if isWhiteSpace c then lexAll fuel' (S p) cs'
          else
            match lexOne cs with
            | Some (t, n) =>
                match lexAll fuel' (p + n)%nat (drop n cs) with
                | Some ts => Some (mkTok t p (p + n)%nat :: ts)
                | None => None
                end
            | None => None
            end
      end
  end.

Definition tokenize (text : string) : option (list Tok) :=
  let cs := list_ascii_of_string text in
  if forallb (fun c => (code c <? 128)%nat) cs
  then lexAll (length cs) 0%nat cs
  else None.

Definition reservedWords : list string :=
  ["break"; "case"; "catch"; "class"; "const"; "continue"; "debugger";
   "default"; "delete"; "do"; "else"; "enum"; "export"; "extends"; "false";
   "finally"; "for"; "function"; "if"; "import"; "in"; "instanceof"; "let";
   "new"; "null"; "return"; "super"; "switch"; "this"; "throw"; "true";
   "try"; "typeof"; "var"; "void"; "while"; "with"; "yield"].

Definition isReserved (x : string) : bool := bool_decide (x ∈ reservedWords).

(** Binary operators other than assignment, with their binding strength. *)
Definition binaryOperator (s : string) : option (Operator * nat) :=
  if String.eqb s "*" then Some (AsteriskToken, 4%nat)
  else if String.eqb s "+" then Some (PlusToken, 3%nat)
  else if String.eqb s "-" then Some (MinusToken, 3%nat)
  else if String.eqb s "<" then Some (LessThanToken, 2%nat)
  else if String.eqb s ">" then Some (GreaterThanToken, 2%nat)
  else if String.eqb s "<=" then Some (LessThanEqualsToken, 2%nat)
  else if String.eqb s ">=" then Some (GreaterThanEqualsToken, 2%nat)
  else if String.eqb s "===" then Some (EqualsEqualsEqualsToken, 1%nat)
  else if String.eqb s "!==" then Some (ExclamationEqualsEqualsToken, 1%nat)
  else None.

(** Only a left-hand-side expression may be followed by [=]. *)
Definition isLeftHandSide (e : Expr) : bool :=
  match e with
  | BinaryExpression _ _ _ _ => false
  | _ => true
  end.

Definition isPunct (s : string) (t : Tok) : bool :=
  match tok t with
  | TPunct s' => String.eqb s s'
  | _ => false
  end.

Definition isName (s : string) (t : Tok) : bool :=
  match tok t with
  | TName s' => String.eqb s s'
  | _ => false
  end.

Definition join (a b : Range) : Range := mkRange (pos a) (fin b).

Abbreviation Parser A := (list Tok → option (A * list Tok)).

Definition expect (s : string) : Parser Tok := fun ts =>
  match ts with
  | t :: ts' => if isPunct s t then Some (t, ts') else None
  | [] => None
  end.

Fixpoint parseExpression (n : nat) : Parser Expr := fun ts =>
  match n with
  | O => None
  | S n =>
      '(l, ts1) ← parseBinary n 0%nat ts;
      match ts1 with
      | t :: ts2 =>
          if isPunct "=" t then
            if isLeftHandSide l then
              '(r, ts3) ← parseExpression n ts2;
              Some (BinaryExpression (join (exprRange l) (exprRange r))
                      l EqualsToken r, ts3)
            else None
          else Some (l, ts1)
      | [] => Some (l, ts1)
      end
  end
with parseBinary (n : nat) (minimum : nat) : Parser Expr := fun ts =>
  match n with
  | O => None
  | S n =>
      '(l, ts1) ← parsePostfix n ts;
      parseBinaryRest n minimum l ts1
  end
with parseBinaryRest (n : nat) (minimum : nat) (l : Expr) : Parser Expr :=
  fun ts =>
  match n with
  | O => None
  | S n =>
      match ts with
      | mkTok (TPunct s) _ _ :: ts1 =>
          match binaryOperator s with
          | Some (op, strength) =>
              if (minimum <=? strength)%nat then
                '(r, ts2) ← parseBinary n (S strength) ts1;
                parseBinaryRest n minimum
                  (BinaryExpression (join (exprRange l) (exprRange r)) l op r)
                  ts2
              else Some (l, ts)
          | None => Some (l, ts)
          end
      | _ => Some (l, ts)
      end
  end
with parsePostfix (n : nat) : Parser Expr := fun ts =>
  match n with
  | O => None
  | S n =>
      '(e, ts1) ← parsePrimary n ts;
      parsePostfixRest n e ts1
  end
with parsePostfixRest (n : nat) (e : Expr) : Parser Expr := fun ts =>
  match n with
  | O => None
  | S n =>
      match ts with
      | mkTok (TPunct s) _ _ :: ts1 =>
          if String.eqb s "[" then
            '(i, ts2) ← parseExpression n ts1;
            '(c, ts3) ← expect "]" ts2;
            parsePostfixRest n
              (ElementAccessExpression (mkRange (pos (exprRange e)) (tfin c))
                 e (Some i)) ts3
          else if String.eqb s "." then
            match ts1 with
            | mkTok (TName x) _ q :: ts2 =>
                parsePostfixRest n
                  (PropertyAccessExpression (mkRange (pos (exprRange e)) q) e x)
                  ts2
            | _ => None
            end
          else if String.eqb s "(" then
            '(args, c, ts2) ← parseElements n ")" ts1;
            parsePostfixRest n
              (CallExpression (mkRange (pos (exprRange e)) (tfin c)) e args)
              ts2
          else Some (e, ts)
      | _ => Some (e, ts)
      end
  end
with parsePrimary (n : nat) : Parser Expr := fun ts =>
  match n with
  | O => None
  | S n =>
      match ts with
      | mkTok (TNumber z) p q :: ts1 =>
          Some (NumericLiteral (mkRange p q) z, ts1)
      | mkTok (TString s) p q :: ts1 =>
          Some (StringLiteral (mkRange p q) s, ts1)
      | mkTok (TName x) p q :: ts1 =>
          if String.eqb x "true" then Some (TrueKeyword (mkRange p q), ts1)
          else if String.eqb x "false"
          then Some (FalseKeyword (mkRange p q), ts1)
          else if String.eqb x "null" then Some (NullKeyword (mkRange p q), ts1)
          else if isReserved x then None
          else Some (Identifier (mkRange p q) x, ts1)
      | mkTok (TPunct s) p _ :: ts1 =>
          if String.eqb s "[" then
            '(es, c, ts2) ← parseElements n "]" ts1;
            Some (ArrayLiteralExpression (mkRange p (tfin c)) es, ts2)
          else if String.eqb s "(" then
            '(e, ts2) ← parseExpression n ts1;
            '(c, ts3) ← expect ")" ts2;
            Some (ParenthesizedExpression (mkRange p (tfin c)) e, ts3)
          else None
      | [] => None
      end
  end
with parseElements (n : nat) (close : string)
    : list Tok → option (list Expr * Tok * list Tok) := fun ts =>
  match n with
  | O => None
  | S n =>
      match ts with
      | t :: ts1 =>
          if isPunct close t then Some ([], t, ts1)
          else parseElementsRest n close ts
      | [] => None
      end
  end
with parseElementsRest (n : nat) (close : string)
    : list Tok → option (list Expr * Tok * list Tok) := fun ts =>
  match n with
  | O => None
  | S n =>
      '(e, ts1) ← parseExpression n ts;
      match ts1 with
      | t :: ts2 =>
          if isPunct close t then Some ([e], t, ts2)
          else if isPunct "," t then
            '(es, c, ts3) ← parseElementsRest n close ts2;
            Some (e :: es, c, ts3)
          else None
      | [] => None
      end
  end.

Definition declarationKind (x : string) : option DeclarationKind :=
  if String.eqb x "const" then Some Const
  else if String.eqb x "let" then Some Let
  else if String.eqb x "var" then Some Var
  else None.

(** [name], or [name = initializer]. *)
Definition parseDeclaration (n : nat) : Parser VariableDeclaration := fun ts =>
  match ts with
  | mkTok (TName x) p q :: ts1 =>
      if isReserved x then None
      else
        match ts1 with
        | t :: ts2 =>
            if isPunct "=" t then
              '(e, ts3) ← parseExpression n ts2;
              Some (mkDecl (mkRange p (fin (exprRange e))) x (Some e), ts3)
            else Some (mkDecl (mkRange p q) x None, ts1)
        | [] => Some (mkDecl (mkRange p q) x None, ts1)
        end
  | _ => None
  end.

Fixpoint parseDeclarations (n : nat)
    : list Tok → option (list VariableDeclaration * Tok * list Tok) :=
  fun ts =>
  match n with
  | O => None
  | S n' =>
      '(d, ts1) ← parseDeclaration n ts;
      match ts1 with
      | t :: ts2 =>
          if isPunct ";" t then Some ([d], t, ts2)
          else if isPunct "," t then
            '(ds, c, ts3) ← parseDeclarations n' ts2;
            Some (d :: ds, c, ts3)
          else None
      | [] => None
      end
  end.

Fixpoint parseStatement (n : nat) : Parser Stmt := fun ts =>
  match n with
  | O => None
  | S n =>
      match ts with
      | [] => None
      | t :: ts1 =>
          match tok t with
          | TName x =>
              match declarationKind x with
              | Some k =>
                  '(ds, c, ts2) ← parseDeclarations n ts1;
                  Some (VariableStatement (mkRange (tpos t) (tfin c)) k ds, ts2)
              | None =>
                  if String.eqb x "while" then
                    '(_, ts2) ← expect "(" ts1;
                    '(e, ts3) ← parseExpression n ts2;
                    '(_, ts4) ← expect ")" ts3;
                    '(b, ts5) ← parseStatement n ts4;
                    Some (WhileStatement
                            (mkRange (tpos t) (fin (stmtRange b))) e b, ts5)
                  else if String.eqb x "if" then
                    '(_, ts2) ← expect "(" ts1;
                    '(e, ts3) ← parseExpression n ts2;
                    '(_, ts4) ← expect ")" ts3;
                    '(s1, ts5) ← parseStatement n ts4;
                    match ts5 with
                    | t' :: ts6 =>
                        if isName "else" t' then
                          '(s2, ts7) ← parseStatement n ts6;
                          Some (IfStatement
                                  (mkRange (tpos t) (fin (stmtRange s2)))
                                  e s1 (Some s2), ts7)
                        else
                          Some (IfStatement
                                  (mkRange (tpos t) (fin (stmtRange s1)))
                                  e s1 None, ts5)
                    | [] =>
                        Some (IfStatement
                                (mkRange (tpos t) (fin (stmtRange s1)))
                                e s1 None, ts5)
                    end
                  else if String.eqb x "throw" then
                    '(e, ts2) ← parseExpression n ts1;
                    '(c, ts3) ← expect ";" ts2;
                    Some (ThrowStatement (mkRange (tpos t) (tfin c)) e, ts3)
                  else
                    '(e, ts2) ← parseExpression n ts;
                    '(c, ts3) ← expect ";" ts2;
                    Some (ExpressionStatement
                            (mkRange (tpos t) (tfin c)) e, ts3)
              end
          | TPunct s =>
              if String.eqb s "{" then
                '(ss, c, ts2) ← parseBlockRest n ts1;
                Some (Block (mkRange (tpos t) (tfin c)) ss, ts2)
              else
                '(e, ts2) ← parseExpression n ts;
                '(c, ts3) ← expect ";" ts2;
                Some (ExpressionStatement (mkRange (tpos t) (tfin c)) e, ts3)
          | _ =>
              '(e, ts2) ← parseExpression n ts;
              '(c, ts3) ← expect ";" ts2;
              Some (ExpressionStatement (mkRange (tpos t) (tfin c)) e, ts3)
          end
      end
  end
with parseBlockRest (n : nat)
    : list Tok → option (list Stmt * Tok * list Tok) := fun ts =>
  match n with
  | O => None
  | S n =>
      match ts with
      | [] => None
      | t :: ts1 =>
          if isPunct "}" t then Some ([], t, ts1)
          else
            '(s, ts2) ← parseStatement n ts;
            '(ss, c, ts3) ← parseBlockRest n ts2;
            Some (s :: ss, c, ts3)
      end
  end.

Fixpoint parseStatements (n : nat) (ts : list Tok) : option (list Stmt) :=
  match n with
  | O => None
  | S n' =>
      match ts with
      | [] => Some []
      | _ =>
          '(s, ts1) ← parseStatement n ts;
          ss ← parseStatements n' ts1;
          Some (s :: ss)
      end
  end.

Definition parseProgram (text : string) : option (list Stmt) :=
  ts ← tokenize text;
  parseStatements (10 * length ts + 10) ts.

End Frontend.

(** * The instrumenter ([packages/instrumenter/src/index.ts]) *)

Module SyntaxKind.

Inductive t :=
  | NumericLiteral
  | StringLiteral
  | Identifier
  | TrueKeyword
  | FalseKeyword
  | NullKeyword
  | ArrayLiteralExpression
  | ElementAccessExpression
  | PropertyAccessExpression
  | CallExpression
  | ParenthesizedExpression
  | BinaryExpression
  | VariableDeclaration
  | VariableStatement
  | ExpressionStatement
  | Block
  | WhileStatement
  | IfStatement
  | ThrowStatement.

#[global] Instance eq_dec : EqDecision t.
Proof. solve_decision. Defined.

End SyntaxKind.

Definition newline : string := String (ascii_of_nat 10) EmptyString.

Module Instrumenter.

(** A source file of the project: its text and its tree. *)
Record SourceFile := mkSourceFile {
  fullText : string;
  statements : list Stmt
}.

(** The nodes the instrumenter walks.  The [VariableDeclarationList] that
    TypeScript puts between a statement and its declarations has no node
    of its own here. *)
Inductive Node :=
  | ExprNode (e : Expr)
  | DeclNode (d : VariableDeclaration)
  | StmtNode (s : Stmt).

Definition getKind (n : Node) : SyntaxKind.t :=
  match n with
  | ExprNode e =>
      match e with
      | NumericLiteral _ _ => SyntaxKind.NumericLiteral
      | StringLiteral _ _ => SyntaxKind.StringLiteral
      | Identifier _ _ => SyntaxKind.Identifier
      | TrueKeyword _ => SyntaxKind.TrueKeyword
      | FalseKeyword _ => SyntaxKind.FalseKeyword
      | NullKeyword _ => SyntaxKind.NullKeyword
      | ArrayLiteralExpression _ _ => SyntaxKind.ArrayLiteralExpression
      | ElementAccessExpression _ _ _ => SyntaxKind.ElementAccessExpression
      | PropertyAccessExpression _ _ _ => SyntaxKind.PropertyAccessExpression
      | CallExpression _ _ _ => SyntaxKind.CallExpression
      | ParenthesizedExpression _ _ => SyntaxKind.ParenthesizedExpression
      | BinaryExpression _ _ _ _ => SyntaxKind.BinaryExpression
      end
  | DeclNode _ => SyntaxKind.VariableDeclaration
  | StmtNode s =>
      match s with
      | VariableStatement _ _ _ => SyntaxKind.VariableStatement
      | ExpressionStatement _ _ => SyntaxKind.ExpressionStatement
      | Block _ _ => SyntaxKind.Block
      | WhileStatement _ _ _ => SyntaxKind.WhileStatement
      | IfStatement _ _ _ _ => SyntaxKind.IfStatement
      | ThrowStatement _ _ => SyntaxKind.ThrowStatement
      end
  end.

Definition getRange (n : Node) : Range :=
  match n with
  | ExprNode e => exprRange e
  | DeclNode d => declRange d
  | StmtNode s => stmtRange s
  end.

Definition getStart (n : Node) : nat := pos (getRange n).
Definition getEnd (n : Node) : nat := fin (getRange n).

(** [node.getText()]: the file text from [getStart()] to [getEnd()]. *)
Definition getText (sf : SourceFile) (n : Node) : string :=
  substring (getStart n) (getEnd n - getStart n) (fullText sf).

Definition ofOption {A} (f : A → list (Node * list Node)) (o : option A)
    : list (Node * list Node) :=
  match o with
  | Some a => f a
  | None => []
  end.

(** The nodes below (and including) a node, parents before children and in
    text order, each with its ancestors (nearest first). *)
Fixpoint exprNodes (ancestors : list Node) (e : Expr)
    : list (Node * list Node) :=
  let below := ExprNode e :: ancestors in
  (ExprNode e, ancestors) ::
  match e with
  | ArrayLiteralExpression _ es => flat_map (exprNodes below) es
  | ElementAccessExpression _ a i =>
      exprNodes below a ++ ofOption (exprNodes below) i
  | PropertyAccessExpression _ a _ => exprNodes below a
  | CallExpression _ f args =>
      exprNodes below f ++ flat_map (exprNodes below) args
  | ParenthesizedExpression _ a => exprNodes below a
  | BinaryExpression _ l _ r => exprNodes below l ++ exprNodes below r
  | _ => []
  end.

Definition declNodes (ancestors : list Node) (d : VariableDeclaration)
    : list (Node * list Node) :=
  (DeclNode d, ancestors) ::
  ofOption (exprNodes (DeclNode d :: ancestors)) (declInitializer d).

Fixpoint stmtNodes (ancestors : list Node) (s : Stmt)
    : list (Node * list Node) :=
  let below := StmtNode s :: ancestors in
  (StmtNode s, ancestors) ::
  match s with
  | VariableStatement _ _ ds => flat_map (declNodes below) ds
  | ExpressionStatement _ e => exprNodes below e
  | Block _ ss => flat_map (stmtNodes below) ss
  | WhileStatement _ c b => exprNodes below c ++ stmtNodes below b
  | IfStatement _ c s1 s2 =>
      exprNodes below c ++ stmtNodes below s1 ++ ofOption (stmtNodes below) s2
  | ThrowStatement _ e => exprNodes below e
  end.

Definition getDescendants (sf : SourceFile) : list (Node * list Node) :=
  flat_map (stmtNodes []) (statements sf).

Definition getDescendantsOfKind (sf : SourceFile) (k : SyntaxKind.t)
    : list (Node * list Node) :=
  filter (fun na => getKind na.1 = k) (getDescendants sf).

Definition getFirstAncestorByKind (ancestors : list Node) (k : SyntaxKind.t)
    : option Node :=
  List.find (fun n => bool_decide (getKind n = k)) ancestors.

(** An entry of the [transformations] array. *)
Record Transformation := mkTransformation {
  statement : Node;
  newText : string
}.

Definition isKind (k : SyntaxKind.t) (e : Expr) : bool :=
  bool_decide (getKind (ExprNode e) = k).

(** The body of the loop of [collectArrayDeclarations], for one
    [VariableDeclaration] node. *)
Definition arrayDeclaration (sf : SourceFile) (na : Node * list Node)
    : list Transformation :=
  match na.1 with
  | DeclNode declaration =>
      let name := declName declaration in
      match declInitializer declaration with
      | Some initializer =>
          if isKind SyntaxKind.ArrayLiteralExpression initializer then
            match getFirstAncestorByKind na.2 SyntaxKind.VariableStatement with
            | Some statement =>
                [mkTransformation statement
                   (getText sf statement +:+ newline +:+
                    "__trace.declare('" +:+ name +:+ "', " +:+ name +:+ ");")]
            | None => []
            end
          else []
      | None => []
      end
  | _ => []
  end.

Definition collectArrayDeclarations (sf : SourceFile) : list Transformation :=
  flat_map (arrayDeclaration sf)
    (getDescendantsOfKind sf SyntaxKind.VariableDeclaration).

(** [getExpression().getText()] and [getArgumentExpression()?.getText()] of
    an element access; the latter is [None] for [undefined]. *)
Definition argumentText (sf : SourceFile) (i : option Expr) : option string :=
  (fun e => getText sf (ExprNode e)) <$> i.

(** JavaScript truthiness of an optional string. *)
Definition nonEmpty (o : option string) : bool :=
  match o with
  | Some s => negb (String.eqb s EmptyString)
  | None => false
  end.

(** The body of the loop of [collectArraySwaps], for one [BinaryExpression]
    node. *)
Definition arraySwap (sf : SourceFile) (na : Node * list Node)
    : list Transformation :=
  match na.1 with
  | ExprNode (BinaryExpression _ left_ operator right_) =>
      if bool_decide (operator = EqualsToken) then
        match left_, right_ with
        | ArrayLiteralExpression _ leftElements,
          ArrayLiteralExpression _ rightElements =>
            if bool_decide (length leftElements = 2%nat)
               && bool_decide (length rightElements = 2%nat) then
              match getFirstAncestorByKind na.2
                      SyntaxKind.ExpressionStatement with
              | Some statement =>
                  match leftElements with
                  | ElementAccessExpression _ firstExpression firstArgument ::
                    ElementAccessExpression _ _ secondArgument :: _ =>
                      let arrayName := getText sf (ExprNode firstExpression) in
                      let index1 := argumentText sf firstArgument in
                      let index2 := argumentText sf secondArgument in
                      if nonEmpty index1 && nonEmpty index2 then
                        let i1 := default EmptyString index1 in
                        let i2 := default EmptyString index2 in
                        [mkTransformation statement
                           (getText sf statement +:+ newline +:+
                            "__trace.arrayWrite('" +:+ arrayName +:+ "', " +:+
                              i1 +:+ ", " +:+ arrayName +:+ "[" +:+ i1 +:+ "]);"
                            +:+ newline +:+
                            "__trace.arrayWrite('" +:+ arrayName +:+ "', " +:+
                              i2 +:+ ", " +:+ arrayName +:+ "[" +:+ i2 +:+ "]);"
                            +:+ newline +:+
                            "__trace.assign('" +:+ arrayName +:+ "', " +:+
                              arrayName +:+ ");")]
                      else []
                  | _ => []
                  end
              | None => []
              end
            else []
        | _, _ => []
        end
      else []
  | _ => []
  end.

Definition collectArraySwaps (sf : SourceFile) : list Transformation :=
  flat_map (arraySwap sf)
    (getDescendantsOfKind sf SyntaxKind.BinaryExpression).

(** The body of the loop of [collectArrayAssignments], for one
    [BinaryExpression] node. *)
Definition arrayAssignment (sf : SourceFile) (na : Node * list Node)
    : list Transformation :=
  match na.1 with
  | ExprNode (BinaryExpression _ left_ operator right_) =>
      if bool_decide (operator = EqualsToken) then
        match left_ with
        | ElementAccessExpression _ expression indexExpr =>
            let arrayName := getText sf (ExprNode expression) in
            let value := getText sf (ExprNode right_) in
            match indexExpr with
            | Some indexExpr =>
                let index := getText sf (ExprNode indexExpr) in
                match getFirstAncestorByKind na.2
                        SyntaxKind.ExpressionStatement with
                | Some statement =>
                    [mkTransformation statement
                       (getText sf statement +:+ newline +:+
                        "__trace.arrayWrite('" +:+ arrayName +:+ "', " +:+
                          index +:+ ", " +:+ value +:+ ");")]
                | None => []
                end
            | None => []
            end
        | _ => []
        end
      else []
  | _ => []
  end.

Definition collectArrayAssignments (sf : SourceFile) : list Transformation :=
  flat_map (arrayAssignment sf)
    (getDescendantsOfKind sf SyntaxKind.BinaryExpression).

(** [Array.prototype.sort] with a comparator: a stable sort; [cmp a b < 0]
    puts [a] first and [cmp a b = 0] keeps the order of the array. *)
Fixpoint insertSorted {A} (cmp : A → A → Z) (x : A) (l : list A) : list A :=
  match l with
  | [] => [x]
  | y :: l' =>
      if cmp x y <=? 0 then x :: l else y :: insertSorted cmp x l'
  end.

Definition sort {A} (cmp : A → A → Z) (l : list A) : list A :=
  foldr (insertSorted cmp) [] l.

(** ** Text manipulation

    ts-morph keeps the wrapped nodes of a file up to date when the text is
    manipulated: [replaceWithText] forgets the replaced node and what is
    inside it, and moves the ranges of the nodes after or around it.  A
    wrapped node is modelled by the range the tree gave it and the edits
    made to the file since.

    What [replaceWithText] makes of the text belongs to the library, not
    to the repository: it writes the new text with the indentation that
    the language service gives for the node, puts it where the node was,
    parses the file again, and raises when the new tree does not fit the
    old one.  The instrumenter is developed for an arbitrary
    [replaceWithText] (a [Section] variable). *)

Record Edit := mkEdit { editStart : nat; editEnd : nat; editLength : nat }.

Record NodeRef := mkRef { refStart : nat; refEnd : nat; refForgotten : bool }.

Definition wrap (n : Node) : NodeRef := mkRef (getStart n) (getEnd n) false.

Definition afterEdit (r : NodeRef) (e : Edit) : NodeRef :=
  let removed := (editEnd e - editStart e)%nat in
  if refForgotten r then r
  else if (editStart e <=? refStart r)%nat && (refEnd r <=? editEnd e)%nat
  then mkRef (refStart r) (refEnd r) true
  else if (refEnd r <=? editStart e)%nat then r
  else if (editEnd e <=? refStart r)%nat
  then mkRef (refStart r + editLength e - removed)
             (refEnd r + editLength e - removed) false
  else if (refStart r <=? editStart e)%nat && (editEnd e <=? refEnd r)%nat
  then mkRef (refStart r) (refEnd r + editLength e - removed) false
  else mkRef (refStart r) (refEnd r) true.

(** The node as the manipulations made so far have left it. *)
Definition current (edits : list Edit) (n : Node) : NodeRef :=
  foldl afterEdit (wrap n) edits.

Definition wasForgotten (edits : list Edit) (n : Node) : bool :=
  refForgotten (current edits n).

(** [text] with [new] in the place of the characters from [from] up to
    [to]. *)
Definition replaceRange (text : string) (from to : nat) (new : string)
    : string :=
  substring 0 from text +:+ new +:+ substring to (String.length text - to) text.

(** [node.replaceWithText(newText)], as a function of the file that was
    created (its text and its tree), the text of the file now, the node,
    where the manipulations so far have left it, and the new text.  It
    raises (the message is returned on the left) or gives the new text of
    the file. *)
Definition ReplaceWithText : Type :=
  SourceFile → string → Node → NodeRef → string → string + string.

(** How [transformSourceFile] ends: the text of the file after the
    manipulations, or the message of the manipulation that raised and the
    text of the file as the manipulations before it left it. *)
Inductive Transformed :=
  | Done (text : string)
  | Raised (message : string) (text : string).

Definition collect (sf : SourceFile) : list Transformation :=
  collectArrayDeclarations sf ++ collectArraySwaps sf
  ++ collectArrayAssignments sf.

Definition byStartDescending (a b : Transformation) : Z :=
  Z.of_nat (getStart (statement b)) - Z.of_nat (getStart (statement a)).

Record InstrumentOptions := mkOptions { filePath : option string }.

Record InstrumentResult := mkResult {
  code : string;
  success : bool;
  error : option string
}.

(** The [Project] of a [CodeInstrumenter]: an in-memory file system, the
    text of the file stored under each path. *)
Record CodeInstrumenter := mkInstrumenter { project : gmap string string }.

Definition constructor : CodeInstrumenter := mkInstrumenter ∅.

(** [options.filePath || 'temp.ts'] *)
Definition pathOf (options : InstrumentOptions) : string :=
  match filePath options with
  | Some p => if String.eqb p EmptyString then "temp.ts" else p
  | None => "temp.ts"
  end.

Section Library.

(** The parser of the front end: [parse path text] either raises (the
    message is returned on the left) or builds the tree of [text]. *)
Variable parse : string → string → string + list Stmt.

Variable replaceWithText : ReplaceWithText.

(** The [forEach] of [transformSourceFile]: the file text and the edits made
    so far are the state of the loop.  The length of what a manipulation
    has put in the place of a node is the length the file has gained, and
    the length of the node. *)
Fixpoint applyTransformations (sf : SourceFile) (text : string)
    (edits : list Edit) (ts : list Transformation) : Transformed :=
  match ts with
  | [] => Done text
  | t :: rest =>
      if wasForgotten edits (statement t) then
        applyTransformations sf text edits rest
      else
        let r := current edits (statement t) in
        match replaceWithText sf text (statement t) r (newText t) with
        | inr text' =>
            applyTransformations sf text'
              (edits ++
               [mkEdit (refStart r) (refEnd r)
                  (String.length text' + (refEnd r - refStart r)
                   - String.length text)])
              rest
        | inl message => Raised message text
        end
  end.

(** [transformSourceFile]; the result is the text of the file after the
    manipulations (what [getFullText()] then returns), unless one of them
    raised. *)
Definition transformSourceFile (sf : SourceFile) : Transformed :=
  applyTransformations sf (fullText sf) []
    (sort byStartDescending (collect sf)).

(** [project.createSourceFile(path, text, { overwrite })]: a file that
    exists under the path is an error unless [overwrite] is set, and then
    the new file takes its place. *)
Definition createSourceFile (project : gmap string string)
    (path text : string) (overwrite : bool)
    : string + (SourceFile * gmap string string) :=
  if negb overwrite && bool_decide (is_Some (project !! path)) then
    inl ("A source file already exists at the provided file path: " +:+ path)
  else
    match parse path text with
    | inr tree => inr (mkSourceFile text tree, <[path := text]> project)
    | inl message => inl message
    end.

(** [CodeInstrumenter.instrument]: the result and the instrumenter
    afterwards.  Whatever the [try] block raises, in [createSourceFile] or
    in [transformSourceFile], ends in the [catch]. *)
Definition instrumentWith (this : CodeInstrumenter) (sourceCode : string)
    (options : InstrumentOptions) : InstrumentResult * CodeInstrumenter :=
  match createSourceFile (project this) (pathOf options) sourceCode true with
  | inr (sourceFile, files) =>
      match transformSourceFile sourceFile with
      | Done code =>
          (mkResult code true None,
           mkInstrumenter (<[pathOf options := code]> files))
      | Raised message text =>
          (mkResult sourceCode false (Some message),
           mkInstrumenter (<[pathOf options := text]> files))
      end
  | inl message => (mkResult sourceCode false (Some message), this)
  end.

(** The exported [instrument]: a new [CodeInstrumenter] for every call. *)
Definition instrument (sourceCode : string) (options : InstrumentOptions)
    : InstrumentResult :=
  (instrumentWith constructor sourceCode options).1.

End Library.

(** ** The library on the texts of the fragment

    What is known of ts-morph on a file of the fragment, for the cases the
    examples need.  A node of a tree that a parser built is told by its
    kind and its range. *)

Definition sameNode (a b : Node) : bool :=
  bool_decide (getKind a = getKind b) && bool_decide (getRange a = getRange b).

(** [node.getParent()]; [None] is the source file. *)
Definition getParent (sf : SourceFile) (n : Node) : option Node :=
  na ← List.find (fun na => sameNode na.1 n) (getDescendants sf);
  head na.2.

Definition isTopLevel (sf : SourceFile) (n : Node) : bool :=
  match getParent sf n with
  | None => true
  | Some _ => false
  end.

Definition inBlock (sf : SourceFile) (n : Node) : bool :=
  match getParent sf n with
  | Some (StmtNode (Block _ _)) => true
  | _ => false
  end.

(** What is known of [replaceWithText] on a statement of a file of the
    fragment.  For a statement at the top level of the file, the language
    service gives no indentation, and the new text is put where the
    statement was.  For a statement that is the body of a [while] or a
    branch of an [if], the trace calls of the new text are statements of
    their own in the new tree, beside the [while] or the [if] and not
    inside it: the new tree does not fit the old one and the library
    raises; [message] stands for the message of that error, which has the
    stack of the call in it.  Inside a block the library indents the
    lines it writes; the model has no account of the indentation
    ([None]). *)
Definition manipulation (message : string) (sf : SourceFile) (text : string)
    (n : Node) (r : NodeRef) (newText : string) : option (string + string) :=
  if isTopLevel sf n
  then Some (inr (replaceRange text (refStart r) (refEnd r) newText))
  else if inBlock sf n then None
  else Some (inl message).

(** The files on which [manipulation] has every manipulation that
    [transformSourceFile] makes: none of the statements with a
    transformation is in a block. *)
Definition known (sf : SourceFile) : bool :=
  forallb (fun t => negb (inBlock sf (statement t))) (collect sf).

(** [manipulation] as a library, to run [instrument] on the [known]
    files; what it is given inside a block is not used on them. *)
Definition tsMorph (message : string) : ReplaceWithText :=
  fun sf text n r newText =>
    default (inl message) (manipulation message sf text n r newText).

Definition isCarriageReturn (c : ascii) : bool := (nat_of_ascii c =? 13)%nat.

(** The files for which [tsMorph] is the library and the result is again
    a text of the fragment: every statement with a transformation is at
    the top level of the file, its new text is a text of the fragment by
    itself, and the file has no carriage return (the writer of the library
    ends its lines with a line feed). *)
Definition covered (sf : SourceFile) : bool :=
  forallb (fun t =>
    isTopLevel sf (statement t)
    && bool_decide (is_Some (Frontend.parseProgram (newText t))))
    (collect sf)
  && negb (existsb isCarriageReturn (list_ascii_of_string (fullText sf))).

End Instrumenter.

(** The concrete front end.  [createSourceFile] does not raise on a text
    it cannot parse: the TypeScript parser recovers, and the errors become
    diagnostics of the file.  For a TypeScript file ([.ts]) with a text of
    the fragment, the tree is that of [Frontend.parseProgram].  Of the
    texts the parser recovers from, the model has [const = ;]: the
    parser finds no declaration, skips the [=] and leaves a variable
    statement with an empty list of declarations.  The model has no tree
    ([None]) for another text or another kind of file. *)
Definition invalidSource : string := "const = ;".

Definition isTypeScriptPath (path : string) : bool :=
  let cs := list_ascii_of_string path in
  bool_decide (drop (length cs - 3) cs = list_ascii_of_string ".ts")
  && negb (bool_decide (drop (length cs - 5) cs
                        = list_ascii_of_string ".d.ts")).

Definition frontEnd (path text : string) : option (list Stmt) :=
  if isTypeScriptPath path then
    if String.eqb text invalidSource
    then Some [VariableStatement (mkRange 0 9) Const []]
    else Frontend.parseProgram text
  else None.

(** [instrument] on a text for which the model has the tree and the
    library. *)
Definition instrumentText (sourceCode : string)
    (options : Instrumenter.InstrumentOptions)
    : option Instrumenter.InstrumentResult :=
  tree ← frontEnd (Instrumenter.pathOf options) sourceCode;
  if Instrumenter.covered (Instrumenter.mkSourceFile sourceCode tree)
  then Some (Instrumenter.instrument (fun _ _ => inr tree)
               (Instrumenter.tsMorph EmptyString) sourceCode options)
  else None.

(** * The script engine

    A model of what [vm.runInNewContext] does with a program of the
    fragment.  Numbers are integers, kept within the range in which a
    double is exact; arrays live in a store and are passed by reference.
    A program reaches the [__trace] object through its [declare], [assign]
    and [arrayWrite] methods.  Whatever the model does not cover (other
    built-ins, coercions, the fields of [__trace], errors raised by the
    engine itself) ends in [Unsupported]. *)

Module Engine.

Definition loc := nat.

Inductive Value :=
  | VUndefined
  | VNull
  | VBoolean (b : bool)
  | VNumber (n : Z)
  | VString (s : string)
  | VArray (l : loc)
  | VTrace.

#[global] Instance Value_eq_dec : EqDecision Value.
Proof. solve_decision. Defined.

(** The [data] of an event; a field that the emitting call leaves out is
    [None]. *)
Record TraceEventData := mkData {
  name : option Value;
  index : option Value;
  value : option Value
}.

Record TraceEvent := mkEvent {
  id : nat;
  timestamp : Z;
  type : string;
  data : TraceEventData
}.

(** The [__trace] object of the sandbox. *)
Record TraceRuntime := mkRuntime {
  eventId : nat;
  startTime : Z;
  events : list TraceEvent
}.

Record Binding := mkBinding { kind : DeclarationKind; bound : Value }.

Record State := mkState {
  heap : gmap loc (list Value);
  nextLoc : loc;
  scope : gmap string Binding;
  runtime : TraceRuntime;
  clockReads : nat;
  budget : nat
}.

Inductive Outcome (A : Type) :=
  | Normal (a : A)
  | Throw (v : Value)
  | TimedOut
  | Unsupported.
Arguments Normal {A} a.
Arguments Throw {A} v.
Arguments TimedOut {A}.
Arguments Unsupported {A}.

Definition M (A : Type) : Type := State → Outcome A * State.

Definition ret {A} (a : A) : M A := fun st => (Normal a, st).

Definition bind {A B} (m : M A) (f : A → M B) : M B := fun st =>
  match m st with
  | (Normal a, st') => f a st'
  | (Throw v, st') => (Throw v, st')
  | (TimedOut, st') => (TimedOut, st')
  | (Unsupported, st') => (Unsupported, st')
  end.

Definition throw {A} (v : Value) : M A := fun st => (Throw v, st).
Definition timedOut {A} : M A := fun st => (TimedOut, st).
Definition unsupported {A} : M A := fun st => (Unsupported, st).

Notation "x <- m ;; k" := (bind m (fun x => k))
  (at level 100, m at next level, right associativity).
Notation "m ;;; k" := (bind m (fun _ => k))
  (at level 100, right associativity).

Definition mapM {A B} (f : A → M B) : list A → M (list B) :=
  fix go l :=
    match l with
    | [] => ret []
    | a :: l' => b <- f a ;; bs <- go l' ;; ret (b :: bs)
    end.

(** ** The store *)

Definition allocate (vs : list Value) : M Value := fun st =>
  (Normal (VArray (nextLoc st)),
   mkState (<[nextLoc st := vs]> (heap st)) (S (nextLoc st)) (scope st)
     (runtime st) (clockReads st) (budget st)).

Definition maxSafeInteger : Z := 2 ^ 53 - 1.

Definition number (n : Z) : M Value :=
  if (Z.abs n <=? maxSafeInteger) then ret (VNumber n) else unsupported.

Definition getBinding (x : string) : M Value := fun st =>
  match scope st !! x with
  | Some b => (Normal (bound b), st)
  | None => (Unsupported, st)
  end.

Definition setBinding (x : string) (v : Value) : M unit := fun st =>
  match scope st !! x with
  | Some (mkBinding Const _) => (Unsupported, st)
  | Some (mkBinding k _) =>
      (Normal (),
       mkState (heap st) (nextLoc st) (<[x := mkBinding k v]> (scope st))
         (runtime st) (clockReads st) (budget st))
  | None => (Unsupported, st)
  end.

Definition initialize (k : DeclarationKind) (x : string) (v : Value)
    : M unit := fun st =>
  (Normal (),
   mkState (heap st) (nextLoc st) (<[x := mkBinding k v]> (scope st))
     (runtime st) (clockReads st) (budget st)).

(** [a[i]]: an index past the end reads [undefined]. *)
Definition getElement (a i : Value) : M Value := fun st =>
  match a, i with
  | VArray l, VNumber n =>
      match heap st !! l with
      | Some vs =>
          if 0 <=? n then (Normal (default VUndefined (vs !! Z.to_nat n)), st)
          else (Normal VUndefined, st)
      | None => (Unsupported, st)
      end
  | _, _ => (Unsupported, st)
  end.

Definition maxArrayIndex : Z := 2 ^ 32 - 2.

(** [a[i] = v]: a write past the end extends the array; the elements in
    between read [undefined]. *)
Definition store (vs : list Value) (i : nat) (v : Value) : list Value :=
  if (i <? length vs)%nat then <[i := v]> vs
  else vs ++ replicate (i - length vs) VUndefined ++ [v].

Definition setElement (a i v : Value) : M unit := fun st =>
  match a, i with
  | VArray l, VNumber n =>
      match heap st !! l with
      | Some vs =>
          if (0 <=? n) && (n <=? maxArrayIndex) then
            (Normal (),
             mkState (<[l := store vs (Z.to_nat n) v]> (heap st)) (nextLoc st)
               (scope st) (runtime st) (clockReads st) (budget st))
          else (Unsupported, st)
      | None => (Unsupported, st)
      end
  | _, _ => (Unsupported, st)
  end.

Definition getProperty (a : Value) (p : string) : M Value := fun st =>
  match a with
  | VArray l =>
      match heap st !! l with
      | Some vs =>
          if String.eqb p "length"
          then (Normal (VNumber (Z.of_nat (length vs))), st)
          else (Unsupported, st)
      | None => (Unsupported, st)
      end
  | VString s =>
      if String.eqb p "length"
      then (Normal (VNumber (Z.of_nat (String.length s))), st)
      else (Unsupported, st)
  | _ => (Unsupported, st)
  end.

(** One step of the iterator of an array: the element at [k], or
    [undefined] once the iterator is exhausted. *)
Definition iterate (source : Value) (k : nat) (exhausted : bool)
    : M (Value * bool) := fun st =>
  match source with
  | VArray l =>
      match heap st !! l with
      | Some vs =>
          if exhausted then (Normal (VUndefined, true), st)
          else match vs !! k with
               | Some v => (Normal (v, false), st)
               | None => (Normal (VUndefined, true), st)
               end
      | None => (Unsupported, st)
      end
  | _ => (Unsupported, st)
  end.

Definition truthy (v : Value) : bool :=
  match v with
  | VUndefined | VNull => false
  | VBoolean b => b
  | VNumber n => negb (n =? 0)
  | VString s => negb (String.eqb s EmptyString)
  | VArray _ | VTrace => true
  end.

Definition strictEquals (a b : Value) : bool := bool_decide (a = b).

Definition binary (op : Operator) (a b : Value) : M Value :=
  match op, a, b with
  | PlusToken, VNumber x, VNumber y => number (x + y)
  | PlusToken, VString x, VString y => ret (VString (x +:+ y))
  | MinusToken, VNumber x, VNumber y => number (x - y)
  | AsteriskToken, VNumber x, VNumber y => number (x * y)
  | LessThanToken, VNumber x, VNumber y => ret (VBoolean (x <? y))
  | GreaterThanToken, VNumber x, VNumber y => ret (VBoolean (y <? x))
  | LessThanEqualsToken, VNumber x, VNumber y => ret (VBoolean (x <=? y))
  | GreaterThanEqualsToken, VNumber x, VNumber y => ret (VBoolean (y <=? x))
  | EqualsEqualsEqualsToken, _, _ => ret (VBoolean (strictEquals a b))
  | ExclamationEqualsEqualsToken, _, _ =>
      ret (VBoolean (negb (strictEquals a b)))
  | _, _, _ => unsupported
  end.

(** ** [JSON.parse(JSON.stringify(value))]

    [stringify] gives the JSON text as a tree ([None] where
    [JSON.stringify] returns [undefined] or raises, as on a cyclic array);
    [revive] builds the value of a tree out of new arrays. *)

#[local] Unset Elimination Schemes.
Inductive JSON :=
  | JNull
  | JBoolean (b : bool)
  | JNumber (n : Z)
  | JString (s : string)
  | JArray (elements : list JSON).
#[local] Set Elimination Schemes.

Fixpoint stringify (depth : nat) (h : gmap loc (list Value)) (v : Value)
    : option JSON :=
  match v with
  | VUndefined => None
  | VNull => Some JNull
  | VBoolean b => Some (JBoolean b)
  | VNumber n => Some (JNumber n)
  | VString s => Some (JString s)
  | VArray l =>
      match depth with
      | O => None
      | S depth' =>
          vs ← h !! l;
          JArray <$> list.mapM (fun x =>
            match x with
            | VUndefined => Some JNull
            | _ => stringify depth' h x
            end) vs
      end
  | VTrace => None
  end.

Fixpoint revive (j : JSON) : M Value :=
  match j with
  | JNull => ret VNull
  | JBoolean b => ret (VBoolean b)
  | JNumber n => ret (VNumber n)
  | JString s => ret (VString s)
  | JArray js => vs <- mapM revive js ;; allocate vs
  end.

Definition clone (v : Value) : M Value := fun st =>
  match stringify (S (nextLoc st)) (heap st) v with
  | Some j => revive j st
  | None => (Unsupported, st)
  end.

(** What a consumer that serializes the trace sees of a value. *)
Definition observe (h : gmap loc (list Value)) (v : Value) : option JSON :=
  stringify (S (size h)) h v.

Definition tick : M unit := fun st =>
  match budget st with
  | O => (TimedOut, st)
  | S b =>
      (Normal (),
       mkState (heap st) (nextLoc st) (scope st) (runtime st) (clockReads st) b)
  end.

Section Clock.

(** [clock k] is what the [k]-th call of [Date.now()] returns. *)
Variable clock : nat → Z.

Definition now : M Z := fun st =>
  (Normal (clock (clockReads st)),
   mkState (heap st) (nextLoc st) (scope st) (runtime st)
     (S (clockReads st)) (budget st)).

(** ** The [__trace] runtime *)

Definition push (type : string) (data : TraceEventData) (t : Z) : M unit :=
  fun st =>
  let this := runtime st in
  (Normal (),
   mkState (heap st) (nextLoc st) (scope st)
     (mkRuntime (S (eventId this)) (startTime this)
        (events this ++
         [mkEvent (eventId this) (t - startTime this) type data]))
     (clockReads st) (budget st)).

Definition emit (type : string) (data : TraceEventData) : M unit :=
  t <- now ;; push type data t.

Definition declare (name value : Value) : M unit :=
  c <- clone value ;;
  emit "variable:declare" (mkData (Some name) None (Some c)).

Definition assign (name value : Value) : M unit :=
  c <- clone value ;;
  emit "variable:assign" (mkData (Some name) None (Some c)).

Definition arrayWrite (name index value : Value) : M unit :=
  emit "array:write" (mkData (Some name) (Some index) (Some value)).

Definition getTrace : M (list TraceEvent) := fun st =>
  (Normal (events (runtime st)), st).

Definition argument (args : list Value) (i : nat) : Value :=
  default VUndefined (args !! i).

(** A call [__trace.method(args)] from the program. *)
Definition callTrace (method : string) (args : list Value) : M Value :=
  if String.eqb method "declare" then
    declare (argument args 0) (argument args 1) ;;; ret VUndefined
  else if String.eqb method "assign" then
    assign (argument args 0) (argument args 1) ;;; ret VUndefined
  else if String.eqb method "arrayWrite" then
    arrayWrite (argument args 0) (argument args 1) (argument args 2) ;;;
    ret VUndefined
  else unsupported.

(** ** Expressions and statements *)

Fixpoint eval (e : Expr) : M Value :=
  match e with
  | NumericLiteral _ n => number n
  | StringLiteral _ s => ret (VString s)
  | Identifier _ x => getBinding x
  | TrueKeyword _ => ret (VBoolean true)
  | FalseKeyword _ => ret (VBoolean false)
  | NullKeyword _ => ret VNull
  | ArrayLiteralExpression _ es => vs <- mapM eval es ;; allocate vs
  | ElementAccessExpression _ a (Some i) =>
      va <- eval a ;; vi <- eval i ;; getElement va vi
  | ElementAccessExpression _ _ None => unsupported
  | PropertyAccessExpression _ a p => va <- eval a ;; getProperty va p
  | CallExpression _ f args =>
      match f with
      | PropertyAccessExpression _ o method =>
          vo <- eval o ;;
          match vo with
          | VTrace => vs <- mapM eval args ;; callTrace method vs
          | _ => unsupported
          end
      | _ => unsupported
      end
  | ParenthesizedExpression _ a => eval a
  | BinaryExpression _ l EqualsToken r =>
      match l with
      | Identifier _ x => v <- eval r ;; setBinding x v ;;; ret v
      | ElementAccessExpression _ a (Some i) =>
          va <- eval a ;; vi <- eval i ;; v <- eval r ;;
          setElement va vi v ;;; ret v
      | ArrayLiteralExpression _ targets =>
          v <- eval r ;;
          (fix destructure (targets : list Expr) (k : nat) (exhausted : bool)
               : M unit :=
             match targets with
             | [] => ret ()
             | Identifier _ x :: rest =>
                 step <- iterate v k exhausted ;;
                 setBinding x step.1 ;;;
                 destructure rest (S k) step.2
             | ElementAccessExpression _ a (Some i) :: rest =>
                 va <- eval a ;; vi <- eval i ;;
                 step <- iterate v k exhausted ;;
                 setElement va vi step.1 ;;;
                 destructure rest (S k) step.2
             | _ => unsupported
             end) targets 0%nat false ;;;
          ret v
      | _ => unsupported
      end
  | BinaryExpression _ l op r =>
      vl <- eval l ;; vr <- eval r ;; binary op vl vr
  end.

Definition declareVariable (k : DeclarationKind) (d : VariableDeclaration)
    : M unit :=
  v <- match declInitializer d with
       | Some e => eval e
       | None => ret VUndefined
       end ;;
  initialize k (declName d) v.

Definition forEach {A} (f : A → M unit) : list A → M unit :=
  fix go l :=
    match l with
    | [] => ret ()
    | a :: l' => f a ;;; go l'
    end.

(** At most [n] iterations of a loop.  Every iteration takes one unit of
    the budget of the run; the timeout fires when none is left. *)
Definition iterations (condition : M Value) (body : M unit)
    : nat → M unit :=
  fix loop n :=
    match n with
    | O => timedOut
    | S n' =>
        tick ;;;
        v <- condition ;;
        if truthy v then body ;;; loop n' else ret ()
    end.

Fixpoint exec (s : Stmt) : M unit :=
  match s with
  | VariableStatement _ k ds => forEach (declareVariable k) ds
  | ExpressionStatement _ e => eval e ;;; ret ()
  | Block _ ss => forEach exec ss
  | WhileStatement _ c b => fun st =>
      iterations (eval c) (exec b) (S (budget st)) st
  | IfStatement _ c s1 s2 =>
      v <- eval c ;;
      if truthy v then exec s1
      else match s2 with
           | Some s2 => exec s2
           | None => ret ()
           end
  | ThrowStatement _ e => v <- eval e ;; throw v
  end.

Definition runInNewContext (program : list Stmt) : M unit :=
  forEach exec program.

End Clock.

(** ** Early errors

    The engine rejects a script before running any of it when an
    assignment target is not assignable or a declaration is malformed.
    [wellFormed] singles out the programs for which the model accounts:
    declarations at the top level only, with distinct names that are none
    of the names the context already knows. *)

Definition assignable (e : Expr) : bool :=
  match e with
  | Identifier _ _ => true
  | ElementAccessExpression _ _ (Some _) => true
  | _ => false
  end.

Definition validTarget (l : Expr) : bool :=
  match l with
  | ArrayLiteralExpression _ targets => forallb assignable targets
  | _ => assignable l
  end.

Fixpoint validExpr (e : Expr) : bool :=
  match e with
  | ArrayLiteralExpression _ es => forallb validExpr es
  | ElementAccessExpression _ a (Some i) => validExpr a && validExpr i
  | ElementAccessExpression _ _ None => false
  | PropertyAccessExpression _ a _ => validExpr a
  | CallExpression _ f args => validExpr f && forallb validExpr args
  | ParenthesizedExpression _ a => validExpr a
  | BinaryExpression _ l op r =>
      (if bool_decide (op = EqualsToken) then validTarget l else true)
      && validExpr l && validExpr r
  | _ => true
  end.

Definition knownNames : list string :=
  ["__trace"; "console"; "Math"; "Date"; "JSON"; "Array"; "Object"; "String";
   "Number"; "Boolean"; "undefined"; "NaN"; "Infinity"].

Definition validDeclaration (k : DeclarationKind) (d : VariableDeclaration)
    : bool :=
  match declInitializer d with
  | Some e => validExpr e
  | None => negb (bool_decide (k = Const))
  end.

(** A statement below the top level: no declarations. *)
Fixpoint validNested (s : Stmt) : bool :=
  match s with
  | VariableStatement _ _ _ => false
  | ExpressionStatement _ e => validExpr e
  | Block _ ss => forallb validNested ss
  | WhileStatement _ c b => validExpr c && validNested b
  | IfStatement _ c s1 s2 =>
      validExpr c && validNested s1
      && match s2 with Some s2 => validNested s2 | None => true end
  | ThrowStatement _ e => validExpr e
  end.

Definition validTopLevel (s : Stmt) : bool :=
  match s with
  | VariableStatement _ k ds => forallb (validDeclaration k) ds
  | _ => validNested s
  end.

Definition declaredNames (program : list Stmt) : list string :=
  flat_map (fun s =>
    match s with
    | VariableStatement _ _ ds => declName <$> ds
    | _ => []
    end) program.

Definition wellFormed (program : list Stmt) : bool :=
  forallb validTopLevel program
  && bool_decide (NoDup (declaredNames program))
  && forallb (fun x => negb (bool_decide (x ∈ knownNames)))
       (declaredNames program).

End Engine.

(** * The executor ([packages/executor/dist/index.js]) *)

Module Executor.
Import Engine.

Record ExecutorOptions := mkOptions { timeoutOption : option nat }.

Record CodeExecutor := mkExecutor { timeout : nat }.

(** [options.timeout ?? 5000] *)
Definition constructor (options : ExecutorOptions) : CodeExecutor :=
  mkExecutor (default 5000%nat (timeoutOption options)).

(** The [error] of a result; the [stack] text is left out. *)
Record ExecutionError := mkError { message : string; eventIndex : nat }.

Record ExecutionResult := mkResult {
  success : bool;
  trace : list TraceEvent;
  duration : Z;
  error : option ExecutionError
}.

(** [String(error)] for a throwSource primitive. *)
Definition toString (v : Value) : option string :=
  match v with
  | VUndefined => Some "undefined"
  | VNull => Some "null"
  | VBoolean true => Some "true"
  | VBoolean false => Some "false"
  | VNumber n => Some (pretty n)
  | VString s => Some s
  | VArray _ | VTrace => None
  end.

Section Host.

(** The host: its clock, and the number of loop iterations the engine
    gets through before the timeout of a run fires. *)
Variable clock : nat → Z.
Variable steps : nat.

(** [createSandbox]: the context with its [__trace] object; [reads] is the
    number of times the clock was read before. *)
Definition createSandbox (reads : nat) : State :=
  mkState ∅ 0%nat {["__trace" := mkBinding Var VTrace]}
    (mkRuntime 0%nat (clock reads) []) (S reads) steps.

(** The [try] block of [execute] up to the point where the script ends:
    the outcome and the context it leaves.  [None]: the script is not one
    the engine model runs. *)
Definition run (instrumentedCode : string) : option (Outcome unit * State) :=
  program ← Frontend.parseProgram instrumentedCode;
  if wellFormed program
  then Some (runInNewContext clock program (createSandbox 1%nat))
  else None.

Definition failed (st : State) (message : string) : ExecutionResult :=
  let duration := clock (clockReads st) - clock 0%nat in
  let partialTrace : list TraceEvent := [] in
  let eventIndex := length partialTrace in
  mkResult false partialTrace duration (Some (mkError message eventIndex)).

(** The timeouts that [vm] accepts; for another one it raises a
    [RangeError] before it runs the script, which the model leaves out. *)
Definition validTimeout (ms : nat) : bool :=
  (1 <=? Z.of_nat ms) && (Z.of_nat ms <=? 4294967295).

(** [CodeExecutor.execute]; the result comes with the store its values
    refer to.  What the script throws, and the error of the timeout, are
    values of the context of the script and no [Error] of the caller: the
    message is [String(error)]. *)
Definition executeWith (this : CodeExecutor) (instrumentedCode : string)
    : option (ExecutionResult * gmap loc (list Value)) :=
  if validTimeout (timeout this) then
    match run instrumentedCode with
    | Some (Normal _, st) =>
        let trace := events (runtime st) in
        let duration := clock (clockReads st) - clock 0%nat in
        Some (mkResult true trace duration None, heap st)
    | Some (Throw v, st) =>
        message ← toString v;
        Some (failed st message, heap st)
    | Some (TimedOut, st) =>
        Some (failed st
                ("Error: Script execution timed out after "
                 +:+ pretty (timeout this) +:+ "ms"), heap st)
    | Some (Unsupported, _) => None
    | None => None
    end
  else None.

(** The exported [execute]. *)
Definition execute (instrumentedCode : string) (options : ExecutorOptions)
    : option (ExecutionResult * gmap loc (list Value)) :=
  executeWith (constructor options) instrumentedCode.

End Host.

End Executor.

(** * The pipeline: the [file:changed] handler of [packages/cli] *)

Module Cli.
Import Engine.

(** What the handler asks of its collaborators, in order, as long as none
    of the calls raises (a broadcast raises when its message cannot be
    serialized, and the handler ends there).  Console output is left
    out. *)
Inductive Call :=
  | Instrument (content filePath : string)
  | Execute (code : string)
  | BroadcastTraceStart
  | BroadcastTrace (events : list TraceEvent) (duration : Z)
  | BroadcastError (error : string) (partialTrace : list TraceEvent).

(** [text || fallback] *)
Definition orElse (text : option string) (fallback : string) : string :=
  match text with
  | Some s => if String.eqb s EmptyString then fallback else s
  | None => fallback
  end.

Section Pipeline.

(** The two stages the handler composes: the transformer, with its
    front end and the text manipulation of its library, and the runner
    ([execute] with its default options). *)
Variable parse : string → string → string + list Stmt.
Variable replaceWithText : Instrumenter.ReplaceWithText.
Variable execute : string → Executor.ExecutionResult.

Definition fileChanged (filePath content : string) : list Call :=
  let instrumentResult :=
    Instrumenter.instrument parse replaceWithText content
      (Instrumenter.mkOptions (Some filePath)) in
  if negb (Instrumenter.success instrumentResult) then
    [Instrument content filePath;
     BroadcastError
       (orElse (Instrumenter.error instrumentResult) "Instrumentation failed")
       []]
  else
    let executionResult := execute (Instrumenter.code instrumentResult) in
    if negb (Executor.success executionResult) then
      [Instrument content filePath; BroadcastTraceStart;
       Execute (Instrumenter.code instrumentResult);
       BroadcastError
         (orElse (Executor.message <$> Executor.error executionResult)
            "Execution failed")
         (Executor.trace executionResult)]
    else
      [Instrument content filePath; BroadcastTraceStart;
       Execute (Instrumenter.code instrumentResult);
       BroadcastTrace (Executor.trace executionResult)
         (Executor.duration executionResult)].

End Pipeline.

End Cli.

(** * The visualization server ([packages/server/dist/index.js])

    The server keeps the set of connected sockets and the trace of the
    last run.  The sockets themselves belong to the WebSocket library: a
    socket has a [readyState], and what [send] was given is recorded in the
    order of the calls.  The payload of a [send] is
    [JSON.stringify(message)], which raises on a message that cannot be
    serialized (a trace with an array that contains itself); the server is
    developed for an arbitrary serializer (a [Section] variable).  The
    HTTP side of the server ([start], [stop], [getFastify],
    [getVisualizerHTML]) is left out. *)

Module Server.

Definition Socket := nat.

Record Summary := mkSummary { totalEvents : nat; duration : Z }.

Record ServerMessage := mkMessage {
  type : string;
  timestamp : option Z;
  event : option Engine.TraceEvent;
  events : option (list Engine.TraceEvent);
  summary : option Summary;
  error : option string;
  partialTrace : option (list Engine.TraceEvent)
}.

Record WebSocket := mkSocket {
  readyState : Z;
  sent : list string
}.

(** [WebSocket.OPEN] *)
Definition OPEN : Z := 1.

Record VisualizationServer := mkServer {
  port : Z;
  clients : gset Socket;
  currentTrace : list Engine.TraceEvent
}.

(** [new VisualizationServer(port)], with [port = 3000] by default. *)
Definition constructor (port : option Z) : VisualizationServer :=
  mkServer (default 3000 port) ∅ [].

(** [client.send(data)] *)
Definition send (data : string) (client : WebSocket) : WebSocket :=
  mkSocket (readyState client) (sent client ++ [data]).

(** The sockets after a call that may have raised: they are as the call
    left them, and a call that raises in [JSON.stringify] has sent
    nothing. *)
Definition settle (sockets : gmap Socket WebSocket)
    (r : VisualizationServer * option (gmap Socket WebSocket))
    : VisualizationServer * gmap Socket WebSocket :=
  (r.1, default sockets r.2).

(** The loop of [broadcast]. *)
Definition deliver (clients : gset Socket) (data : string)
    (sockets : gmap Socket WebSocket) : gmap Socket WebSocket :=
  set_fold (λ client sockets,
    match sockets !! client with
    | Some w =>
        if readyState w =? OPEN then <[client := send data w]> sockets
        else sockets
    | None => sockets
    end) sockets clients.

Section Serializer.

(** [JSON.stringify(message)]: the text, or [None] when it raises. *)
Variable stringify : ServerMessage → option string.

(** [sendToClient]: nothing is sent to a socket that is not open, and
    nothing is serialized for it.  [None]: [JSON.stringify] raised. *)
Definition sendToClient (sockets : gmap Socket WebSocket) (client : Socket)
    (message : ServerMessage) : option (gmap Socket WebSocket) :=
  match sockets !! client with
  | Some w =>
      if readyState w =? OPEN then
        data ← stringify message;
        Some (<[client := send data w]> sockets)
      else Some sockets
  | None => Some sockets
  end.

(** [broadcast]: the message is serialized first, then comes the loop
    over [this.clients].  [None]: [JSON.stringify] raised. *)
Definition broadcast (this : VisualizationServer)
    (sockets : gmap Socket WebSocket) (message : ServerMessage)
    : option (gmap Socket WebSocket) :=
  data ← stringify message;
  Some (deliver (clients this) data sockets).

(** The message [handleConnection] greets a new client with. *)
Definition replay (this : VisualizationServer) : ServerMessage :=
  mkMessage "trace:complete" None None (Some (currentTrace this))
    (Some (mkSummary (length (currentTrace this)) 0)) None None.

(** [handleConnection]; the two listeners it registers on the socket at
    its end are [onClose] and [onError] below.  [None] for the sockets:
    [sendToClient] raised. *)
Definition handleConnection (this : VisualizationServer)
    (sockets : gmap Socket WebSocket) (socket : Socket)
    : VisualizationServer * option (gmap Socket WebSocket) :=
  let this' :=
    mkServer (port this) ({[socket]} ∪ clients this) (currentTrace this) in
  if (0 <? length (currentTrace this'))%nat
  then (this', sendToClient sockets socket (replay this'))
  else (this', Some sockets).

Definition onClose (this : VisualizationServer) (socket : Socket)
    : VisualizationServer :=
  mkServer (port this) (clients this ∖ {[socket]}) (currentTrace this).

Definition onError (this : VisualizationServer) (socket : Socket)
    : VisualizationServer :=
  mkServer (port this) (clients this ∖ {[socket]}) (currentTrace this).

(** [broadcastTraceStart]; [now] is what [Date.now()] returns. *)
Definition broadcastTraceStart (this : VisualizationServer)
    (sockets : gmap Socket WebSocket) (now : Z)
    : VisualizationServer * option (gmap Socket WebSocket) :=
  let this' := mkServer (port this) (clients this) [] in
  let message := mkMessage "trace:start" (Some now) None None None None None in
  (this', broadcast this' sockets message).

Definition broadcastTrace (this : VisualizationServer)
    (sockets : gmap Socket WebSocket) (events : list Engine.TraceEvent)
    (duration : Z) : VisualizationServer * option (gmap Socket WebSocket) :=
  let this' := mkServer (port this) (clients this) events in
  let message :=
    mkMessage "trace:complete" None None (Some events)
      (Some (mkSummary (length events) duration)) None None in
  (this', broadcast this' sockets message).

(** [broadcastError(error, partialTrace = [])] *)
Definition broadcastError (this : VisualizationServer)
    (sockets : gmap Socket WebSocket) (error : string)
    (partialTrace : option (list Engine.TraceEvent))
    : VisualizationServer * option (gmap Socket WebSocket) :=
  let partialTrace := default [] partialTrace in
  let message :=
    mkMessage "trace:error" None None None None (Some error)
      (Some partialTrace) in
  (this, broadcast this sockets message).

End Serializer.

(** What happens to a server and the sockets around it.  The socket
    library hands over a connection, calls the [close] or the [error]
    listener that [handleConnection] registered on a socket, or changes
    the state of a socket (a new socket starts without anything sent);
    the owner of the server calls one of the three broadcasts. *)
Inductive Input :=
  | Connection (socket : Socket)
  | Close (socket : Socket)
  | Error (socket : Socket)
  | ReadyState (socket : Socket) (state : Z)
  | TraceStart (now : Z)
  | Trace (events : list Engine.TraceEvent) (duration : Z)
  | TraceError (error : string)
      (partialTrace : option (list Engine.TraceEvent)).

Section Machine.

Variable stringify : ServerMessage → option string.

(** One input; an exception goes to the caller, and the server and the
    sockets stay as the call left them. *)
Definition step (x : VisualizationServer * gmap Socket WebSocket)
    (input : Input) : VisualizationServer * gmap Socket WebSocket :=
  match input with
  | Connection socket =>
      settle x.2 (handleConnection stringify x.1 x.2 socket)
  | Close socket => (onClose x.1 socket, x.2)
  | Error socket => (onError x.1 socket, x.2)
  | ReadyState socket state =>
      (x.1,
       <[socket := mkSocket state (from_option sent [] (x.2 !! socket))]> x.2)
  | TraceStart now => settle x.2 (broadcastTraceStart stringify x.1 x.2 now)
  | Trace events duration =>
      settle x.2 (broadcastTrace stringify x.1 x.2 events duration)
  | TraceError error partialTrace =>
      settle x.2 (broadcastError stringify x.1 x.2 error partialTrace)
  end.

Definition run (inputs : list Input)
    (x : VisualizationServer * gmap Socket WebSocket)
    : VisualizationServer * gmap Socket WebSocket :=
  foldl step x inputs.

(** The calls of the [file:changed] handler that go to the server. *)
Definition perform (now : Z) (x : VisualizationServer * gmap Socket WebSocket)
    (call : Cli.Call) : VisualizationServer * option (gmap Socket WebSocket) :=
  match call with
  | Cli.Instrument _ _ => (x.1, Some x.2)
  | Cli.Execute _ => (x.1, Some x.2)
  | Cli.BroadcastTraceStart => broadcastTraceStart stringify x.1 x.2 now
  | Cli.BroadcastTrace events duration =>
      broadcastTrace stringify x.1 x.2 events duration
  | Cli.BroadcastError error partialTrace =>
      broadcastError stringify x.1 x.2 error (Some partialTrace)
  end.

(** The handler on the server: its calls one after the other, up to the
    first that raises.  The flag tells whether one did: the exception
    then leaves the handler. *)
Fixpoint handle (now : Z) (x : VisualizationServer * gmap Socket WebSocket)
    (calls : list Cli.Call)
    : VisualizationServer * gmap Socket WebSocket * bool :=
  match calls with
  | [] => (x, false)
  | call :: rest =>
      match perform now x call with
      | (this, Some sockets) => handle now (this, sockets) rest
      | (this, None) => ((this, x.2), true)
      end
  end.

End Machine.


(** What the sockets were sent. *)
Definition inbox (sockets : gmap Socket WebSocket) (s : Socket)
    : list string :=
  from_option sent [] (sockets !! s).

Definition isOpen (sockets : gmap Socket WebSocket) (s : Socket) : bool :=
  from_option (λ w, readyState w =? OPEN) false (sockets !! s).

(** The payloads of some messages, up to the first that cannot be
    serialized. *)
Fixpoint payloads (stringify : ServerMessage → option string)
    (messages : list ServerMessage) : list string :=
  match messages with
  | [] => []
  | message :: rest =>
      match stringify message with
      | Some data => data :: payloads stringify rest
      | None => []
      end
  end.

End Server.

(** * The visualizer ([packages/visualizer/src])

    The page holds the state of the [useWebSocket] hook; the messages of
    the server reach it as parsed JSON.  What the components draw is left
    out: the model has the functions that select what is drawn. *)

Module Visualizer.

Abbreviation JSON := Engine.JSON.

(** An event as the client has it, [data] being a [Record<string, unknown>]. *)
Record TraceEvent := mkEvent {
  id : Z;
  timestamp : Z;
  type : string;
  data : gmap string JSON
}.

Record Summary := mkSummary { totalEvents : Z; duration : Z }.

Record ServerMessage := mkMessage {
  messageType : string;
  messageTimestamp : option Z;
  event : option TraceEvent;
  messageEvents : option (list TraceEvent);
  summary : option Summary;
  messageError : option string;
  partialTrace : option (list TraceEvent)
}.

(** ** [components/ArrayBars.tsx] *)

Definition isSnapshot (event : TraceEvent) : bool :=
  (String.eqb (type event) "variable:declare"
   || String.eqb (type event) "variable:assign")
  && match data event !! "value" with
     | Some (Engine.JArray _) => true
     | _ => false
     end.

Definition snapshot (event : TraceEvent) : list JSON :=
  match data event !! "value" with
  | Some (Engine.JArray elements) => elements
  | _ => []
  end.

(** The loop of [getArrayFromEvents], from [i] down to 0; [events[i]] is
    [undefined] past the end. *)
Fixpoint mostRecent (events : list TraceEvent) (i : nat) : list JSON :=
  let earlier :=
    match i with
    | O => []
    | S i' => mostRecent events i'
    end in
  match events !! i with
  | Some event => if isSnapshot event then snapshot event else earlier
  | None => earlier
  end.

Definition getArrayFromEvents (events : list TraceEvent) (currentIndex : nat)
    : list JSON :=
  if (length events =? 0)%nat then [] else mostRecent events currentIndex.

(** JavaScript truthiness of a JSON value. *)
Definition truthy (j : JSON) : bool :=
  match j with
  | Engine.JNull => false
  | Engine.JBoolean b => b
  | Engine.JNumber n => negb (n =? 0)
  | Engine.JString s => negb (String.eqb s EmptyString)
  | Engine.JArray _ => true
  end.

Definition isNumber (index : nat) (j : JSON) : bool :=
  match j with
  | Engine.JNumber n => n =? Z.of_nat index
  | _ => false
  end.

(** [isIndexActive].  [None]: [indices] is something else than an array,
    whose [includes] the model does not have. *)
Definition isIndexActive (event : option TraceEvent) (index : nat)
    : option bool :=
  match event with
  | None => Some false
  | Some event =>
      if String.eqb (type event) "array:write"
         && from_option (isNumber index) false (data event !! "index")
      then Some true
      else if String.eqb (type event) "compare"
              && from_option truthy false (data event !! "indices")
      then match data event !! "indices" with
           | Some (Engine.JArray indices) =>
               Some (existsb (isNumber index) indices)
           | _ => None
           end
      else Some false
  end.

(** ** [hooks/useWebSocket.ts]

    The state of the hook, the interval that [playIntervalRef] holds, and
    the intervals that are running: an interval of [play] carries the
    number of events of the render that started it. *)

Record Hook := mkHook {
  connected : bool;
  events : list TraceEvent;
  error : option string;
  isPlaying : bool;
  currentEventIndex : nat;
  playIntervalRef : option nat;
  intervals : gmap nat nat;
  nextInterval : nat
}.

(** [useState] initial values. *)
Definition initial : Hook := mkHook false [] None false 0 None ∅ 0.

Definition onopen (h : Hook) : Hook :=
  mkHook true (events h) None (isPlaying h) (currentEventIndex h)
    (playIntervalRef h) (intervals h) (nextInterval h).

Definition onclose (h : Hook) : Hook :=
  mkHook false (events h) (error h) (isPlaying h) (currentEventIndex h)
    (playIntervalRef h) (intervals h) (nextInterval h).

Definition onerror (h : Hook) : Hook :=
  mkHook false (events h) (Some "Connection error") (isPlaying h)
    (currentEventIndex h) (playIntervalRef h) (intervals h) (nextInterval h).

Definition onmessage (message : ServerMessage) (h : Hook) : Hook :=
  if String.eqb (messageType message) "trace:start" then
    mkHook (connected h) [] None (isPlaying h) 0
      (playIntervalRef h) (intervals h) (nextInterval h)
  else if String.eqb (messageType message) "trace:complete" then
    mkHook (connected h) (default [] (messageEvents message)) (error h)
      (isPlaying h) 0 (playIntervalRef h) (intervals h) (nextInterval h)
  else if String.eqb (messageType message) "trace:error" then
    mkHook (connected h) (default [] (partialTrace message))
      (Some (Cli.orElse (messageError message) "Unknown error"))
      (isPlaying h) (currentEventIndex h)
      (playIntervalRef h) (intervals h) (nextInterval h)
  else h.

(** [clearInterval(playIntervalRef.current)], when the ref holds one. *)
Definition clearPlayInterval (h : Hook) : gmap nat nat :=
  match playIntervalRef h with
  | Some i => delete i (intervals h)
  | None => intervals h
  end.

Definition play (h : Hook) : Hook :=
  mkHook (connected h) (events h) (error h) true (currentEventIndex h)
    (Some (nextInterval h))
    (<[nextInterval h := length (events h)]> (intervals h))
    (S (nextInterval h)).

(** The callback of an interval of [play], every 200 ms while it runs. *)
Definition tick (interval : nat) (h : Hook) : Hook :=
  match intervals h !! interval with
  | Some total =>
      if Z.of_nat total - 1 <=? Z.of_nat (currentEventIndex h) then
        mkHook (connected h) (events h) (error h) false (currentEventIndex h)
          (playIntervalRef h) (clearPlayInterval h) (nextInterval h)
      else
        mkHook (connected h) (events h) (error h) (isPlaying h)
          (S (currentEventIndex h))
          (playIntervalRef h) (intervals h) (nextInterval h)
  | None => h
  end.

Definition pause (h : Hook) : Hook :=
  mkHook (connected h) (events h) (error h) false (currentEventIndex h)
    None (clearPlayInterval h) (nextInterval h).

Definition reset (h : Hook) : Hook :=
  let h := pause h in
  mkHook (connected h) (events h) (error h) (isPlaying h) 0
    (playIntervalRef h) (intervals h) (nextInterval h).

(** ** [components/PlaybackControls.tsx] *)

(** The [disabled] attribute of the Play button. *)
Definition playDisabled (currentIndex totalEvents : nat) : bool :=
  (totalEvents =? 0)%nat
  || (Z.of_nat totalEvents - 1 <=? Z.of_nat currentIndex).

(** The [disabled] attribute of the Reset button. *)
Definition resetDisabled (totalEvents : nat) : bool := (totalEvents =? 0)%nat.

End Visualizer.

(** * The file watcher ([packages/watcher/src/index.ts])

    A [FileWatcher] lives in a host that has a clock, the timers that are
    pending, the chokidar watchers that are open, the reads of files that
    are under way and the calls of [stop] that wait for [close()].  The
    host decides when a timer fires, when a read settles (and what the
    listeners of the events do then) and when chokidar reports something;
    the watcher decides what happens then. *)

Module Watcher.

Record WatcherOptions := mkOptions { debounceMsOption : option Z }.

Definition Timeout := nat.
Definition FSWatcher := nat.

Record FileWatcher := mkWatcher {
  watcher : option FSWatcher;
  debounceMs : Z;
  debounceTimers : gmap string Timeout
}.

(** [options.debounceMs ?? 300] *)
Definition constructor (options : WatcherOptions) : FileWatcher :=
  mkWatcher None (default 300 (debounceMsOption options)) ∅.

Record Host := mkHost {
  now : Z;
  timers : gmap Timeout (Z * string);
  nextTimeout : Timeout;
  watchers : gset FSWatcher;
  nextWatcher : FSWatcher;
  reads : list string;
  closing : list FSWatcher
}.

Definition idle : Host := mkHost 0 ∅ 0%nat ∅ 0%nat [] [].

(** What [readFile] rejects with, or what else is thrown. *)
Inductive Thrown :=
  | ErrorObject (message : string)
  | Other (text : string).

(** What the watcher emits, by the name of the event. *)
Inductive Emitted :=
  | FileChanged (filePath content : string)
  | FileError (filePath : string) (error : Thrown)
  | WatcherError (error : Thrown).

(** The delay of a timer: one millisecond when the argument is below 1 or
    above [2^31 - 1]. *)
Definition delay (ms : Z) : Z :=
  if (ms <? 1) || (2147483647 <? ms) then 1 else ms.

(** [setTimeout(callback, ms)], for the callback of [handleFileChange]
    for [filePath]. *)
Definition setTimeout (host : Host) (ms : Z) (filePath : string)
    : Host * Timeout :=
  (mkHost (now host)
     (<[nextTimeout host := (now host + delay ms, filePath)]> (timers host))
     (S (nextTimeout host)) (watchers host) (nextWatcher host) (reads host)
     (closing host),
   nextTimeout host).

Definition clearTimeout (host : Host) (timer : Timeout) : Host :=
  mkHost (now host) (delete timer (timers host)) (nextTimeout host)
    (watchers host) (nextWatcher host) (reads host) (closing host).

(** [handleFileChange] *)
Definition handleFileChange (this : FileWatcher) (host : Host)
    (filePath : string) : FileWatcher * Host :=
  let host :=
    match debounceTimers this !! filePath with
    | Some existingTimer => clearTimeout host existingTimer
    | None => host
    end in
  let (host, timer) := setTimeout host (debounceMs this) filePath in
  (mkWatcher (watcher this) (debounceMs this)
     (<[filePath := timer]> (debounceTimers this)),
   host).

(** The callback of the timer: the entry of the file is deleted and
    [readAndEmitFile] starts to read. *)
Definition onTimeout (this : FileWatcher) (host : Host) (filePath : string)
    : FileWatcher * Host :=
  (mkWatcher (watcher this) (debounceMs this)
     (delete filePath (debounceTimers this)),
   mkHost (now host) (timers host) (nextTimeout host) (watchers host)
     (nextWatcher host) (reads host ++ [filePath]) (closing host)).

(** The event of [handleFileError]: what is not an [Error] is wrapped in
    one. *)
Definition handleFileError (filePath : string) (error : Thrown) : Emitted :=
  FileError filePath
    match error with
    | ErrorObject message => ErrorObject message
    | Other text => ErrorObject text
    end.

(** What the listeners of an event do with it: [None] when every one of
    them returns, or what the first that throws has thrown ([emit] calls
    the listeners one after the other and does not catch). *)
Definition Listeners : Type := Emitted → option Thrown.

(** What comes out of the watcher. *)
Inductive Output :=
  | Emit (event : Emitted)
  | Raise (message : string)
  | Unhandled (error : Thrown).

(** [handleFileError] with its [emit].  What a listener of [file:error]
    throws leaves [readAndEmitFile], whose promise nobody waits for. *)
Definition emitFileError (listeners : Listeners) (filePath : string)
    (error : Thrown) : list Output :=
  let event := handleFileError filePath error in
  match listeners event with
  | None => [Emit event]
  | Some thrown => [Emit event; Unhandled thrown]
  end.

(** The rest of [readAndEmitFile], once [readFile] has settled.  The
    [emit] of [file:changed] is inside the [try]: what a listener throws
    is caught and reported as a [file:error] of the file. *)
Definition onRead (listeners : Listeners) (filePath : string)
    (result : Thrown + string) : list Output :=
  match result with
  | inr content =>
      let event := FileChanged filePath content in
      match listeners event with
      | None => [Emit event]
      | Some thrown => Emit event :: emitFileError listeners filePath thrown
      end
  | inl error => emitFileError listeners filePath error
  end.

Definition handleError (error : Thrown) : Emitted := WatcherError error.

(** [watch]: the exception, or the watcher with a new chokidar watcher. *)
Definition watch (this : FileWatcher) (host : Host) (pattern : string)
    : string + FileWatcher * Host :=
  match watcher this with
  | Some _ => inl "Watcher is already running. Call stop() first."
  | None =>
      inr (mkWatcher (Some (nextWatcher host)) (debounceMs this)
             (debounceTimers this),
           mkHost (now host) (timers host) (nextTimeout host)
             ({[nextWatcher host]} ∪ watchers host) (S (nextWatcher host))
             (reads host) (closing host))
  end.

(** The end of [stop]: the pending timers are cleared and forgotten. *)
Definition clearTimers (this : FileWatcher) (host : Host)
    : FileWatcher * Host :=
  (mkWatcher (watcher this) (debounceMs this) ∅,
   map_fold (λ _ timer host, clearTimeout host timer) host
     (debounceTimers this)).

(** [stop] up to its [await]: with a watcher, [close()] is called and the
    rest waits; without one, the rest runs at once. *)
Definition stop (this : FileWatcher) (host : Host) : FileWatcher * Host :=
  match watcher this with
  | Some w =>
      (this,
       mkHost (now host) (timers host) (nextTimeout host) (watchers host)
         (nextWatcher host) (reads host) (closing host ++ [w]))
  | None => clearTimers this host
  end.

(** [stop] after its [await]: [close()] of [w] has resolved. *)
Definition stopped (this : FileWatcher) (host : Host) (w : FSWatcher)
    : FileWatcher * Host :=
  clearTimers (mkWatcher None (debounceMs this) (debounceTimers this))
    (mkHost (now host) (timers host) (nextTimeout host) (watchers host ∖ {[w]})
       (nextWatcher host) (reads host) (closing host)).

Inductive Input :=
  | Watch (pattern : string)
  | Stop
  | Closed (k : nat)
  | Add (w : FSWatcher) (path : string)
  | Change (w : FSWatcher) (path : string)
  | Failure (w : FSWatcher) (error : Thrown)
  | TimerFires (timer : Timeout)
  | ReadSettles (k : nat) (result : Thrown + string) (listeners : Listeners)
  | Elapse (ms : Z).

(** One step of the host.  [None]: the host cannot do this now (a timer
    fires when it is due, a chokidar watcher reports until [close()] has
    resolved, the [k]-th pending [close()] resolves, the [k]-th read under
    way settles, time does not go back). *)
Definition step (x : FileWatcher * Host) (input : Input)
    : option (FileWatcher * Host * list Output) :=
  let (this, host) := x in
  match input with
  | Watch pattern =>
      match watch this host pattern with
      | inl message => Some (x, [Raise message])
      | inr y => Some (y, [])
      end
  | Stop => Some (stop this host, [])
  | Closed k =>
      match closing host !! k with
      | Some w =>
          Some (stopped this
                  (mkHost (now host) (timers host) (nextTimeout host)
                     (watchers host) (nextWatcher host) (reads host)
                     (delete k (closing host))) w,
                [])
      | None => None
      end
  | Add w path | Change w path =>
      if bool_decide (w ∈ watchers host)
      then Some (handleFileChange this host path, [])
      else None
  | Failure w error =>
      if bool_decide (w ∈ watchers host)
      then Some (x, [Emit (handleError error)])
      else None
  | TimerFires timer =>
      match timers host !! timer with
      | Some (due, filePath) =>
          if due <=? now host
          then Some (onTimeout this (clearTimeout host timer) filePath, [])
          else None
      | None => None
      end
  | ReadSettles k result listeners =>
      match reads host !! k with
      | Some filePath =>
          Some ((this,
                 mkHost (now host) (timers host) (nextTimeout host)
                   (watchers host) (nextWatcher host) (delete k (reads host))
                   (closing host)),
                onRead listeners filePath result)
      | None => None
      end
  | Elapse ms =>
      if 0 <=? ms
      then Some ((this,
                  mkHost (now host + ms) (timers host) (nextTimeout host)
                    (watchers host) (nextWatcher host) (reads host)
                    (closing host)),
                 [])
      else None
  end.

Fixpoint run (inputs : list Input) (x : FileWatcher * Host)
    : option (FileWatcher * Host * list Output) :=
  match inputs with
  | [] => Some (x, [])
  | input :: rest =>
      match step x input with
      | Some (y, out) =>
          match run rest y with
          | Some (z, outs) => Some (z, (out ++ outs)%list)
          | None => None
          end
      | None => None
      end
  end.

(** The time that passes during some inputs. *)
Definition elapsed (inputs : list Input) : Z :=
  foldr (λ i total, match i with Elapse ms => ms + total | _ => total end)
    0 inputs.

Definition changes (path : string) (input : Input) : bool :=
  match input with
  | Add _ p | Change _ p => String.eqb p path
  | _ => false
  end.

Definition isChange (input : Input) : bool :=
  match input with
  | Add _ _ | Change _ _ => true
  | _ => false
  end.

(** The two events that come out of [readAndEmitFile]. *)
Definition isFileChanged (output : Output) : bool :=
  match output with
  | Emit (FileChanged _ _) => true
  | _ => false
  end.

Definition isFileError (output : Output) : bool :=
  match output with
  | Emit (FileError _ _) => true
  | _ => false
  end.

(** The pending timers are those of [debounceTimers], each for its file. *)
Definition coherent (x : FileWatcher * Host) : Prop :=
  (∀ p t, debounceTimers x.1 !! p = Some t
          ↔ ∃ due, timers x.2 !! t = Some (due, p))
  ∧ ∀ t, is_Some (timers x.2 !! t) → (t < nextTimeout x.2)%nat.

(** Since a change of [p] at time [start]: [e] milliseconds have passed,
    and a timer for [p] is due no sooner than [wait] after [start]. *)
Definition since (p : string) (start wait e : Z) (x : FileWatcher * Host)
    : Prop :=
  coherent x ∧ delay (debounceMs x.1) = wait ∧ 0 ≤ e
  ∧ now x.2 = start + e
  ∧ ∀ t due, timers x.2 !! t = Some (due, p) → start + wait ≤ due.

End Watcher.

(** * Notions for the runs of the engine

    The arrays of a run are of two kinds.  The copies that [declare] and
    [assign] make for their events are [frozen]: the script has no way to
    them.  All the others are [live]: the script reaches them through its
    variables and through one another. *)

Module Snapshots.
Import Engine.

(** The types of the events that the [__trace] object emits. *)
Definition traceTypes : list string :=
  ["variable:declare"; "variable:assign"; "array:write"].

(** The events whose value is a copy. *)
Definition snapshotType (type : string) : bool :=
  String.eqb type "variable:declare" || String.eqb type "variable:assign".

Definition live (F : gset loc) (st : State) (v : Value) : Prop :=
  match v with
  | VArray l => (l ∉ F) ∧ (l < nextLoc st)%nat
  | _ => True
  end.

Definition frozen (F : gset loc) (v : Value) : Prop :=
  match v with
  | VArray l => l ∈ F
  | _ => True
  end.

(** The store is separated by the set [F] of the frozen arrays: variables
    and live arrays hold live values, frozen arrays hold frozen values,
    and the values of the [declare] and [assign] events are frozen. *)
Record separated (F : gset loc) (st : State) : Prop := mkSeparated {
  allocated : ∀ l, is_Some (heap st !! l) → (l < nextLoc st)%nat;
  frozenAllocated : ∀ l, l ∈ F → (l < nextLoc st)%nat;
  scopeLive : ∀ x b, scope st !! x = Some b → live F st (bound b);
  liveArrays :
    ∀ l vs, heap st !! l = Some vs → l ∉ F → Forall (live F st) vs;
  frozenArrays :
    ∀ l vs, heap st !! l = Some vs → l ∈ F → Forall (frozen F) vs;
  snapshotsFrozen :
    ∀ e v, e ∈ events (runtime st) → snapshotType (type e) = true →
           value (data e) = Some v → frozen F v
}.

(** From one moment of a run to a later one: arrays are only added, the
    frozen ones stay as they are, new frozen arrays are new arrays, and
    events are only added. *)
Record extends (F : gset loc) (st : State) (F' : gset loc) (st' : State)
    : Prop := mkExtends {
  moreFrozen : F ⊆ F';
  moreLocations : (nextLoc st ≤ nextLoc st')%nat;
  newFrozen : ∀ l, l ∈ F' → l ∉ F → (nextLoc st ≤ l)%nat;
  frozenKept : ∀ l, l ∈ F → heap st' !! l = heap st !! l;
  moreArrays : ∀ l, is_Some (heap st !! l) → is_Some (heap st' !! l);
  moreEvents : events (runtime st) `prefix_of` events (runtime st')
}.

(** [m], started in a separated store in which [J] holds, ends in such a
    store again, which extends the first one; when it ends normally, [Q]
    holds of its result. *)
Definition wp (J : State → Prop) {A} (m : M A) (F : gset loc) (st : State)
    (Q : gset loc → State → A → Prop) : Prop :=
  separated F st → J st →
  ∃ F', extends F st F' (m st).2 ∧ separated F' (m st).2 ∧ J (m st).2
        ∧ ∀ a, (m st).1 = Normal a → Q F' (m st).2 a.

(** The times of the events of a [__trace] object that was created at the
    second reading of the clock: no event is older than the object or
    younger than the last reading, and no event is older than the one
    before it. *)
Definition timely (clock : nat → Z) (st : State) : Prop :=
  startTime (runtime st) = clock 1%nat
  ∧ (2 ≤ clockReads st)%nat
  ∧ Forall (λ e, 0 ≤ timestamp e
                 ≤ clock (clockReads st - 1)%nat - clock 1%nat)
      (events (runtime st))
  ∧ ∀ i j e e', (i ≤ j)%nat → events (runtime st) !! i = Some e →
                events (runtime st) !! j = Some e' →
                timestamp e ≤ timestamp e'.

(** The number of arrays of a JSON value. *)
Fixpoint arrays (j : JSON) : nat :=
  match j with
  | JArray js => S (sum_list_with arrays js)
  | _ => 0
  end.

(** The arrays of the store are those at the locations handed out so
    far. *)
Definition dense (st : State) : Prop :=
  size (heap st) = nextLoc st
  ∧ ∀ l, is_Some (heap st !! l) → (l < nextLoc st)%nat.

(** [c] reads as [j] in every store that has the arrays of [h] at the
    locations from [lo] up to [hi]. *)
Definition readsAs (c : Value) (j : JSON) (lo hi : loc)
    (h : gmap loc (list Value)) : Prop :=
  ∀ h' d, (∀ l, (lo ≤ l < hi)%nat → h' !! l = h !! l) → (arrays j ≤ d)%nat →
          stringify d h' c = Some j.

End Snapshots.

(** * Which transformation of a statement is applied *)

Module Anchors.
Import Instrumenter.

(** Two transformations of the same statement. *)
Definition sameStatement (t t' : Transformation) : bool :=
  bool_decide (getRange (statement t') = getRange (statement t)).

(** [t] is the transformation collected first for its statement: array
    declarations are collected before swaps, swaps before element
    assignments, and each kind in the order of the tree. *)
Definition firstCollected (sf : SourceFile) (t : Transformation) : Prop :=
  List.find (sameStatement t) (collect sf) = Some t.

(** The statement of [t] has been replaced by one of the edits. *)
Definition replaced (edits : list Edit) (t : Transformation) : bool :=
  existsb (λ e, (editStart e =? getStart (statement t))%nat
                && (editEnd e =? getEnd (statement t))%nat) edits.

Definition twoDeclarationsSource : string := "const a=[1], b=[2];".

End Anchors.

(** * Notions the statements below are written with *)

Module Spec.
Import Instrumenter Engine.

(** ** The pipeline on one source text *)

Definition noOptions : InstrumentOptions := Instrumenter.mkOptions None.

(** Instrument, then (when that succeeded) execute with the default
    options. *)
Definition instrumentAndExecute (clock : nat → Z) (steps : nat)
    (sourceText : string)
    : option (Executor.ExecutionResult * gmap loc (list Value)) :=
  instrumentResult ← instrumentText sourceText noOptions;
  if Instrumenter.success instrumentResult then
    Executor.execute clock steps (Instrumenter.code instrumentResult)
      (Executor.mkOptions None)
  else None.

(** The instrumented text of a source text, where the model has it. *)
Definition instrumented (sourceText : string) : option string :=
  Instrumenter.code <$> instrumentText sourceText noOptions.

(** An event as a consumer sees it: kind, name, index, and the value as it
    reads in the store the run left. *)
Definition describe (h : gmap loc (list Value)) (e : TraceEvent)
    : string * option Value * option Value * option JSON :=
  (type e, name (data e), index (data e), value (data e) ≫= observe h).

Definition described (r : Executor.ExecutionResult * gmap loc (list Value))
    : bool * list (string * option Value * option Value * option JSON) :=
  (Executor.success r.1, describe r.2 <$> Executor.trace r.1).

(** A serializer for the examples.  The type of a message stands for its
    text; a message with a value that has no JSON reading in the store
    [h] (an array that contains itself) cannot be serialized. *)
Definition readable (h : gmap loc (list Value)) (field : option Value)
    : bool :=
  match field with
  | None | Some VUndefined => true
  | Some v => bool_decide (is_Some (observe h v))
  end.

Definition serialize (h : gmap loc (list Value))
    (message : Server.ServerMessage) : option string :=
  let events :=
    (default [] (Server.events message)
     ++ default [] (Server.partialTrace message))%list in
  if forallb (λ e, readable h (name (data e)) && readable h (index (data e))
                   && readable h (value (data e))) events
  then Some (Server.type message) else None.

(** A front end that raises on every text. *)
Definition refusing (path text : string) : string + list Stmt :=
  inl "Cannot create the source file".

(** The inputs of the examples. *)
Definition indexedWriteSource : string := "const a=[1,2,3]; a[1] = a[1] + 5;".
Definition swapSource : string := "const a=[2,1]; [a[0],a[1]]=[a[1],a[0]];".
Definition endlessLoopSource : string := "const a=[1]; while (true) {}".
Definition throwSource : string := "const a=[1]; throw 5;".
Definition sharedRowSource : string := "const r=[1]; const m=[[0]]; m[0] = r;".
Definition sharedRowMutatedSource : string :=
  "const r=[1]; const m=[[0]]; m[0] = r; r[0] = 9;".
Definition pairSource : string := "[a[0],a[1]]=[1,2];".
Definition tripleSource : string := "[a[0],a[1],a[2]]=[a[2],a[0],a[1]];".
Definition plainSource : string := "x = 1;".
Definition unbracedSource : string := "const a=[1]; while (false) a[0] = 2;".
Definition selfSource : string := "const a=[1]; a[0] = a;".

(** ** Event identifiers *)

(** The identifiers of the events of a [__trace] object are their
    positions, and the counter is the number of events. *)
Definition consistent (rt : TraceRuntime) : Prop :=
  eventId rt = length (events rt)
  ∧ ∀ i e, events rt !! i = Some e → id e = i.

(** A computation keeps a property of the context. *)
Definition keeps (I : State → Prop) {A} (m : M A) : Prop :=
  ∀ st, I st → I (m st).2.

Fixpoint esize (e : Expr) : nat :=
  S match e with
    | ArrayLiteralExpression _ es => sum_list_with esize es
    | ElementAccessExpression _ a i => esize a + from_option esize 0%nat i
    | PropertyAccessExpression _ a _ => esize a
    | CallExpression _ f args => esize f + sum_list_with esize args
    | ParenthesizedExpression _ a => esize a
    | BinaryExpression _ l _ r => esize l + esize r
    | _ => 0
    end.

(** ** Recognized constructs *)

Definition isArrayLiteral (e : Expr) : bool :=
  match e with
  | ArrayLiteralExpression _ _ => true
  | _ => false
  end.

Definition isElementAccess (e : Expr) : bool :=
  match e with
  | ElementAccessExpression _ _ _ => true
  | _ => false
  end.

Definition elementsOf (e : Expr) : list Expr :=
  match e with
  | ArrayLiteralExpression _ es => es
  | _ => []
  end.

(** A variable declaration with an array-literal initializer. *)
Definition arrayDeclared (n : Node) : bool :=
  match n with
  | DeclNode d => from_option isArrayLiteral false (declInitializer d)
  | _ => false
  end.

(** A two-element destructuring assignment between array literals. *)
Definition pairDestructured (n : Node) : bool :=
  match n with
  | ExprNode (BinaryExpression _ l EqualsToken r) =>
      isArrayLiteral l && isArrayLiteral r
      && bool_decide (length (elementsOf l) = 2%nat)
      && bool_decide (length (elementsOf r) = 2%nat)
  | _ => false
  end.

(** An indexed element assignment. *)
Definition elementAssigned (n : Node) : bool :=
  match n with
  | ExprNode (BinaryExpression _ l EqualsToken _) => isElementAccess l
  | _ => false
  end.

Definition recognized (n : Node) : bool :=
  arrayDeclared n || pairDestructured n || elementAssigned n.

(** A file without any recognized construct. *)
Definition plain (sf : SourceFile) : bool :=
  forallb (fun na => negb (recognized na.1)) (getDescendants sf).

(** The exact two-element reciprocal swap: both sides have two elements,
    all four are indexed accesses into the same named collection, and the
    right-hand side has the indices of the left-hand side exchanged. *)
Definition reciprocalSwap (sf : SourceFile) (l r : Expr) : bool :=
  match l, r with
  | ArrayLiteralExpression _
      [ElementAccessExpression _ a1 (Some i1);
       ElementAccessExpression _ a2 (Some i2)],
    ArrayLiteralExpression _
      [ElementAccessExpression _ b1 (Some j1);
       ElementAccessExpression _ b2 (Some j2)] =>
      let text e := getText sf (ExprNode e) in
      String.eqb (text a1) (text a2) && String.eqb (text a1) (text b1)
      && String.eqb (text a1) (text b2)
      && String.eqb (text j1) (text i2) && String.eqb (text j2) (text i1)
  | _, _ => false
  end.

(** The text [collectArraySwaps] puts in place of [statement] for the
    collection [arrayName] and the index texts [i1] and [i2]. *)
Definition swapText (sf : SourceFile) (statement : Node)
    (arrayName i1 i2 : string) : string :=
  getText sf statement +:+ newline +:+
  "__trace.arrayWrite('" +:+ arrayName +:+ "', " +:+ i1 +:+ ", " +:+
    arrayName +:+ "[" +:+ i1 +:+ "]);" +:+ newline +:+
  "__trace.arrayWrite('" +:+ arrayName +:+ "', " +:+ i2 +:+ ", " +:+
    arrayName +:+ "[" +:+ i2 +:+ "]);" +:+ newline +:+
  "__trace.assign('" +:+ arrayName +:+ "', " +:+ arrayName +:+ ");".

(** ** Insertions *)

(** [text] with [new] inserted at position [p]. *)
Definition insertAt (text : string) (p : nat) (new : string) : string :=
  substring 0 p text +:+ new +:+ substring p (String.length text - p) text.

(** Insertions made one after the other, listed from the bottom of the
    text to the top: when the positions decrease, every one of them is a
    position of the text the insertions started from. *)
Definition insertAll (text : string) (insertions : list (nat * string))
    : string :=
  foldl (λ t i, insertAt t i.1 i.2) text insertions.

(** The new text of a transformation after the text of its statement: a
    new line with the trace calls. *)
Definition calls (sf : SourceFile) (t : Transformation) : string :=
  let n := String.length (getText sf (statement t)) in
  substring n (String.length (newText t) - n) (newText t).

(** [text] reads as the text of the file up to the end of the statement
    of [t]. *)
Definition agrees (sf : SourceFile) (t : Transformation) (text : string)
    : Prop :=
  take (getEnd (statement t)) (list_ascii_of_string text)
  = take (getEnd (statement t)) (list_ascii_of_string (fullText sf)).

(** The library keeps the statement it replaces.  Whenever
    [replaceWithText] is called for a collected transformation [t], on a
    file that reads as the source up to the end of the statement, and does
    not raise, the new text of the file has, where the statement was, the
    statement itself and then [inserted t].  (The library writes the first
    line of the new text as it is; it indents the lines after it.) *)
Definition keepsStatements (replaceWithText : ReplaceWithText)
    (sf : SourceFile) (inserted : Transformation → string) : Prop :=
  ∀ t text text',
    t ∈ collect sf → agrees sf t text →
    replaceWithText sf text (statement t) (wrap (statement t)) (newText t)
    = inr text' →
    text'
    = replaceRange text (getStart (statement t)) (getEnd (statement t))
        (getText sf (statement t) +:+ inserted t).


Definition apart (a b : Range) : bool :=
  (fin a <=? pos b)%nat || (fin b <=? pos a)%nat.

(** The anchor statements of a file lie in its text, are not empty, and
    any two of them are the same statement or do not overlap. *)
Definition orderly (sf : SourceFile) : bool :=
  forallb (λ t,
    let r := getRange (statement t) in
    (pos r <? fin r)%nat && (fin r <=? String.length (fullText sf))%nat
    && forallb (λ t',
         let r' := getRange (statement t') in
         bool_decide (r = r') || apart r r') (collect sf))
    (collect sf).

End Spec.

(** * What the collectors recognize *)

Section Recognition.
Import Instrumenter Spec.

(** C4 as stated fails at [[a[0],a[1]]=[1,2];]: an assignment between two
    array literals that is not a reciprocal swap, and that gets the swap
    instrumentation. *)
Lemma pair_assignment_is_instrumented :
  let sf := mkSourceFile pairSource
              (default [] (Frontend.parseProgram pairSource)) in
  ∃ na r l rhs,
    na ∈ getDescendantsOfKind sf SyntaxKind.BinaryExpression
    ∧ na.1 = ExprNode (BinaryExpression r l EqualsToken rhs)
    ∧ isArrayLiteral l = true ∧ isArrayLiteral rhs = true
    ∧ reciprocalSwap sf l rhs = false
    ∧ newText <$> arraySwap sf na
      = [pairSource +:+ newline +:+
         "__trace.arrayWrite('a', 0, a[0]);" +:+ newline +:+
         "__trace.arrayWrite('a', 1, a[1]);" +:+ newline +:+
         "__trace.assign('a', a);"]
    ∧ code <$> instrumentText pairSource noOptions
      = Some (pairSource +:+ newline +:+
              "__trace.arrayWrite('a', 0, a[0]);" +:+ newline +:+
              "__trace.arrayWrite('a', 1, a[1]);" +:+ newline +:+
              "__trace.assign('a', a);").
Proof.
  intros sf.
  let l := eval vm_compute in
             (getDescendantsOfKind sf SyntaxKind.BinaryExpression) in
  match l with
  | (ExprNode (BinaryExpression ?r ?l EqualsToken ?rhs), ?ancestors) :: _ =>
      exists (ExprNode (BinaryExpression r l EqualsToken rhs), ancestors),
        r, l, rhs
  end.
  split; [vm_compute; apply list_elem_of_here|].
  repeat split; vm_compute; reflexivity.
Qed.

(** C4, amended: the swap instrumentation is emitted for an assignment
    only when both sides are array literals of exactly two elements and
    the two elements on the left are indexed accesses with a non-empty
    index text, inside an expression statement.  An assignment between
    array literals of another length is left uninstrumented.  When the two
    accesses on the left name the same collection, the statement is
    followed by an [arrayWrite] for each of the two indices, reading the
    element back, and an [assign] of the collection, whatever stands on
    the right. *)
Theorem swap_instrumentation_shape sf na :
  (∀ t, t ∈ arraySwap sf na →
     ∃ r rl rr q1 a1 i1 q2 a2 i2 r1 r2,
       na.1 = ExprNode
                (BinaryExpression r
                   (ArrayLiteralExpression rl
                      [ElementAccessExpression q1 a1 (Some i1);
                       ElementAccessExpression q2 a2 (Some i2)])
                   EqualsToken (ArrayLiteralExpression rr [r1; r2]))
       ∧ getText sf (ExprNode i1) ≠ EmptyString
       ∧ getText sf (ExprNode i2) ≠ EmptyString
       ∧ getFirstAncestorByKind na.2 SyntaxKind.ExpressionStatement
         = Some (statement t))
  ∧ (∀ r rl rr ls rs,
       na.1 = ExprNode
                (BinaryExpression r (ArrayLiteralExpression rl ls)
                   EqualsToken (ArrayLiteralExpression rr rs)) →
       length ls ≠ 2%nat ∨ length rs ≠ 2%nat →
       arraySwap sf na = [] ∧ arrayAssignment sf na = [])
  ∧ (∀ r rl rr q1 a1 i1 q2 a2 i2 r1 r2 statement,
       na.1 = ExprNode
                (BinaryExpression r
                   (ArrayLiteralExpression rl
                      [ElementAccessExpression q1 a1 (Some i1);
                       ElementAccessExpression q2 a2 (Some i2)])
                   EqualsToken (ArrayLiteralExpression rr [r1; r2])) →
       getFirstAncestorByKind na.2 SyntaxKind.ExpressionStatement
       = Some statement →
       getText sf (ExprNode a1) = getText sf (ExprNode a2) →
       getText sf (ExprNode i1) ≠ EmptyString →
       getText sf (ExprNode i2) ≠ EmptyString →
       arraySwap sf na
       = [mkTransformation statement
            (swapText sf statement (getText sf (ExprNode a1))
               (getText sf (ExprNode i1)) (getText sf (ExprNode i2)))]).
Proof.
  destruct na as [n ancestors]. unfold arraySwap. cbn [fst snd].
  split; [|split].
  - intros t Ht.
    destruct n as [[| | | | | | | | | | |r l op rhs]| |];
      try by apply elem_of_nil in Ht.
    case_bool_decide as Hop; [subst op|by apply elem_of_nil in Ht].
    destruct l as [| | | | | |rl ls| | | | |];
      try by apply elem_of_nil in Ht.
    destruct rhs as [| | | | | |rr rs| | | | |];
      try by apply elem_of_nil in Ht.
    destruct (bool_decide (length ls = 2%nat)) eqn:Hls;
      [|by apply elem_of_nil in Ht].
    destruct (bool_decide (length rs = 2%nat)) eqn:Hrs;
      [|by apply elem_of_nil in Ht].
    apply bool_decide_eq_true in Hls, Hrs. cbn [andb] in Ht.
    destruct ls as [|l1 [|l2 [|]]]; try done.
    destruct rs as [|r1 [|r2 [|]]]; try done.
    destruct (getFirstAncestorByKind ancestors _) as [st|];
      [|by apply elem_of_nil in Ht].
    destruct l1 as [| | | | | | |q1 a1 i1| | | |];
      try by apply elem_of_nil in Ht.
    destruct l2 as [| | | | | | |q2 a2 i2| | | |];
      try by apply elem_of_nil in Ht.
    destruct (nonEmpty (argumentText sf i1)) eqn:H1;
      [|by apply elem_of_nil in Ht].
    destruct (nonEmpty (argumentText sf i2)) eqn:H2;
      [|by apply elem_of_nil in Ht].
    destruct i1 as [i1|]; [|done]. destruct i2 as [i2|]; [|done].
    cbn in H1, H2. apply negb_true_iff, String.eqb_neq in H1, H2.
    apply list_elem_of_singleton in Ht as ->.
    by eexists _, _, _, _, _, _, _, _, _, _, _.
  - intros r rl rr ls rs -> Hlen. split; [|done].
    rewrite bool_decide_true by done.
    destruct Hlen as [H|H]; rewrite (bool_decide_false _ H);
      [done|by rewrite andb_false_r].
  - intros r rl rr q1 a1 i1 q2 a2 i2 r1 r2 st -> -> _ H1 H2.
    rewrite bool_decide_true by done. cbn.
    apply String.eqb_neq in H1, H2. by rewrite H1, H2.
Qed.

Lemma swap_instrumentation_shape_witness :
  let sf := mkSourceFile swapSource
              (default [] (Frontend.parseProgram swapSource)) in
  ∃ na t,
    na ∈ getDescendantsOfKind sf SyntaxKind.BinaryExpression
    ∧ t ∈ arraySwap sf na
    ∧ ∃ r rl rr q1 a1 i1 q2 a2 i2 r1 r2,
        na.1 = ExprNode
                 (BinaryExpression r
                    (ArrayLiteralExpression rl
                       [ElementAccessExpression q1 a1 (Some i1);
                        ElementAccessExpression q2 a2 (Some i2)])
                    EqualsToken (ArrayLiteralExpression rr [r1; r2]))
        ∧ getText sf (ExprNode i1) ≠ EmptyString
        ∧ getText sf (ExprNode i2) ≠ EmptyString
        ∧ getFirstAncestorByKind na.2 SyntaxKind.ExpressionStatement
          = Some (statement t).
Proof.
  intros sf.
  let l := eval vm_compute in
             (getDescendantsOfKind sf SyntaxKind.BinaryExpression) in
  match l with
  | ?na :: _ =>
      exists na;
      let ts := eval vm_compute in (arraySwap sf na) in
      match ts with
      | ?t :: _ =>
          exists t;
          assert (t ∈ arraySwap sf na) as Ht
            by (vm_compute; apply list_elem_of_here);
          split; [vm_compute; apply list_elem_of_here|];
          split; [exact Ht|];
          exact (proj1 (swap_instrumentation_shape sf na) t Ht)
      end
  end.
Defined.

(** A rotation of three elements is left as it is. *)
Example triple_rotation_is_left_alone :
  instrumentText tripleSource noOptions
  = Some (mkResult tripleSource true None).
Proof. vm_compute. reflexivity. Qed.

(** Nothing is collected at a node that is none of the recognized
    constructs. *)
Lemma unrecognized_node sf na :
  recognized na.1 = false →
  arrayDeclaration sf na = [] ∧ arraySwap sf na = []
  ∧ arrayAssignment sf na = [].
Proof.
  destruct na as [n ancestors].
  unfold recognized, arrayDeclaration, arraySwap, arrayAssignment.
  cbn [fst snd]. intros H.
  apply orb_false_iff in H as [H Hassign].
  apply orb_false_iff in H as [Hdecl Hpair].
  destruct n as [e|d|s]; [|split; [|done]|done].
  - split; [done|].
    destruct e as [| | | | | | | | | | |r l op rhs]; try done.
    destruct op; try done. cbn in Hpair, Hassign.
    rewrite bool_decide_true by done.
    destruct l as [| | | | | |rl ls| | | | |]; try done.
    destruct rhs as [| | | | | |rr rs| | | | |]; try done.
    cbn in Hpair. by rewrite Hpair.
  - cbn in Hdecl. destruct (declInitializer d) as [init|]; [|done].
    cbn in Hdecl. unfold isKind.
    destruct init; try done.
Qed.

Lemma flat_map_filter_nil {A B} (f : A → list B) (P : A → Prop)
    `{∀ a, Decision (P a)} (l : list A) :
  (∀ a, In a l → f a = []) → flat_map f (filter P l) = [].
Proof.
  induction l as [|a l IH]; intros Hf; [done|].
  rewrite filter_cons. case_decide.
  - cbn. rewrite Hf by (by left). apply IH. intros; apply Hf; by right.
  - apply IH. intros; apply Hf; by right.
Qed.

Lemma plain_collects_nothing sf : plain sf = true → collect sf = [].
Proof.
  unfold plain, collect, collectArrayDeclarations, collectArraySwaps,
    collectArrayAssignments, getDescendantsOfKind.
  intros H. rewrite forallb_forall in H.
  rewrite !flat_map_filter_nil; [done|..]; intros na Hna;
    apply unrecognized_node, negb_true_iff, H, Hna.
Qed.

End Recognition.

(** * Text and ranges *)

Section Text.

Lemma chars_append (a b : string) :
  list_ascii_of_string (a +:+ b)
  = (list_ascii_of_string a ++ list_ascii_of_string b)%list.
Proof. induction a as [|c a IH]; simpl; [done|]. by rewrite IH. Qed.

Lemma chars_substring (s : string) (n m : nat) :
  list_ascii_of_string (substring n m s)
  = take m (drop n (list_ascii_of_string s)).
Proof.
  revert n m. induction s as [|c s IH]; intros [|n] [|m]; simpl;
    rewrite ?IH; done.
Qed.

Lemma chars_length (s : string) :
  String.length s = length (list_ascii_of_string s).
Proof. induction s as [|c s IH]; simpl; [done|]. by rewrite IH. Qed.

Lemma chars_inj (a b : string) :
  list_ascii_of_string a = list_ascii_of_string b → a = b.
Proof.
  intros H. rewrite <- (string_of_list_ascii_of_string a),
    <- (string_of_list_ascii_of_string b). by rewrite H.
Qed.

End Text.

(** * The sort of [transformSourceFile] *)

Section Sorting.
Import Instrumenter.

Context {A : Type} (key : A → nat).

Lemma insertSorted_elem x y (l : list A) :
  y ∈ insertSorted (λ a b, Z.of_nat (key b) - Z.of_nat (key a)) x l
  ↔ y = x ∨ y ∈ l.
Proof.
  induction l as [|z l IH]; simpl.
  - rewrite list_elem_of_singleton. split; [by left|].
    intros [->|Hy]; [done|by apply elem_of_nil in Hy].
  - destruct (_ <=? _); rewrite !elem_of_cons, ?IH; tauto.
Qed.

Lemma sort_elem x (l : list A) :
  x ∈ sort (λ a b, Z.of_nat (key b) - Z.of_nat (key a)) l ↔ x ∈ l.
Proof.
  unfold sort. induction l as [|z l IH]; simpl; [done|].
  rewrite insertSorted_elem, IH, elem_of_cons. tauto.
Qed.

Lemma insertSorted_sorted x (l : list A) :
  StronglySorted (λ a b, (key b ≤ key a)%nat) l →
  StronglySorted (λ a b, (key b ≤ key a)%nat)
    (insertSorted (λ a b, Z.of_nat (key b) - Z.of_nat (key a)) x l).
Proof.
  induction l as [|z l IH]; intros Hl; simpl.
  - by repeat constructor.
  - apply StronglySorted_inv in Hl as [Hl Hz].
    case_match eqn:Hcmp.
    + apply Z.leb_le in Hcmp. constructor; [by constructor|].
      constructor; [lia|].
      eapply Forall_impl; [exact Hz|]. simpl. intros; lia.
    + apply Z.leb_gt in Hcmp. constructor; [by apply IH|].
      apply Forall_forall. intros y Hy%insertSorted_elem.
      destruct Hy as [->|Hy]; [lia|].
      by eapply Forall_forall in Hz.
Qed.

Lemma sort_sorted (l : list A) :
  StronglySorted (λ a b, (key b ≤ key a)%nat)
    (sort (λ a b, Z.of_nat (key b) - Z.of_nat (key a)) l).
Proof.
  unfold sort. induction l as [|z l IH]; simpl; [constructor|].
  by apply insertSorted_sorted.
Qed.

End Sorting.

(** * The transformation only inserts *)

Section Additive.
Import Instrumenter Spec Anchors.

Lemma replace_is_insert text original s e calls bound :
  (s < e)%nat → (e ≤ bound)%nat →
  take bound (list_ascii_of_string text)
  = take bound (list_ascii_of_string original) →
  replaceRange text s e (substring s (e - s) original +:+ calls)
  = insertAt text e calls.
Proof.
  intros Hse Heb Hprefix. apply chars_inj.
  unfold replaceRange, insertAt.
  rewrite !chars_append, !chars_substring, !drop_0, !app_assoc.
  do 2 f_equal.
  set (T := list_ascii_of_string text) in *.
  set (O := list_ascii_of_string original) in *.
  rewrite !take_drop_commute.
  replace (s + (e - s))%nat with e by lia.
  assert (take e O = take e T) as ->.
  { rewrite <- (Nat.min_l e bound), <- !take_take by lia. by rewrite Hprefix. }
  rewrite <- (take_drop s (take e T)) at 2.
  f_equal. rewrite take_take. f_equal. lia.
Qed.

Lemma prefix_after_insert text e calls s :
  (s ≤ e)%nat → (e ≤ String.length text)%nat →
  take s (list_ascii_of_string (insertAt text e calls))
  = take s (list_ascii_of_string text).
Proof.
  intros Hse He. unfold insertAt. rewrite chars_length in He.
  rewrite !chars_append, !chars_substring, drop_0.
  rewrite take_app_le by (rewrite length_take; lia).
  rewrite take_take. f_equal. lia.
Qed.

(** A node that every edit so far either replaced or left behind it
    is where the tree put it, and forgotten when an edit replaced it. *)
Lemma current_untouched edits n :
  (getStart n < getEnd n)%nat →
  (∀ e, e ∈ edits →
     (editStart e = getStart n ∧ editEnd e = getEnd n)
     ∨ (getEnd n ≤ editStart e)%nat) →
  current edits n
  = mkRef (getStart n) (getEnd n)
      (existsb (λ e, (editStart e =? getStart n)%nat
                     && (editEnd e =? getEnd n)%nat) edits).
Proof.
  intros Hn. unfold current.
  induction edits as [|e edits IH] using rev_ind; intros He; [done|].
  rewrite foldl_snoc, existsb_app, IH
    by (intros; apply He, elem_of_app; by left).
  specialize (He e ltac:(apply elem_of_app; right; by left)).
  unfold afterEdit. cbn [refForgotten refStart refEnd existsb].
  destruct (existsb _ edits); [done|]. cbn [orb]. rewrite orb_false_r.
  destruct He as [[-> ->]|He].
  - by rewrite !Nat.leb_refl, !Nat.eqb_refl.
  - rewrite (proj2 (Nat.leb_gt _ _)) by lia. cbn [andb].
    rewrite (proj2 (Nat.leb_le _ _)) by lia.
    rewrite (proj2 (Nat.eqb_neq _ _)) by lia. done.
Qed.

(** What is put in place of an anchor statement is the statement itself
    and, after it, a new line of trace calls. *)
Lemma collected_text sf t :
  t ∈ collect sf →
  ∃ calls, newText t = getText sf (statement t) +:+ newline +:+ calls.
Proof.
  unfold collect, collectArrayDeclarations, collectArraySwaps,
    collectArrayAssignments.
  rewrite !elem_of_app, !list_elem_of_In, !in_flat_map.
  intros [(na & _ & Ht)|[(na & _ & Ht)|(na & _ & Ht)]];
    apply list_elem_of_In in Ht; destruct na as [n ancestors];
    revert Ht.
  - unfold arrayDeclaration. cbn [fst snd]. intros Ht.
    repeat case_match; try by apply elem_of_nil in Ht.
    apply list_elem_of_singleton in Ht as ->. by eexists.
  - unfold arraySwap. cbn [fst snd]. intros Ht.
    repeat case_match; try by apply elem_of_nil in Ht.
    apply list_elem_of_singleton in Ht as ->. by eexists.
  - unfold arrayAssignment. cbn [fst snd]. intros Ht.
    repeat case_match; try by apply elem_of_nil in Ht.
    apply list_elem_of_singleton in Ht as ->. by eexists.
Qed.

Lemma orderly_anchor sf t :
  orderly sf = true → t ∈ collect sf →
  (getStart (statement t) < getEnd (statement t))%nat
  ∧ (getEnd (statement t) ≤ String.length (fullText sf))%nat
  ∧ ∀ t', t' ∈ collect sf →
      getRange (statement t) = getRange (statement t')
      ∨ (getEnd (statement t) ≤ getStart (statement t'))%nat
      ∨ (getEnd (statement t') ≤ getStart (statement t))%nat.
Proof.
  unfold orderly. rewrite forallb_forall. intros H Ht.
  specialize (H t ltac:(by apply list_elem_of_In)). cbv zeta in H.
  apply andb_true_iff in H as [H Hothers].
  apply andb_true_iff in H as [Hlt Hle].
  apply Nat.ltb_lt in Hlt. apply Nat.leb_le in Hle.
  split; [done|]. split; [done|]. intros t' Ht'.
  rewrite forallb_forall in Hothers.
  specialize (Hothers t' ltac:(by apply list_elem_of_In)). cbv zeta in Hothers.
  apply orb_true_iff in Hothers as [Heq|Hapart].
  - left. by apply bool_decide_eq_true in Heq.
  - right. unfold apart in Hapart.
    apply orb_true_iff in Hapart as [H1|H1]; apply Nat.leb_le in H1; auto.
Qed.

Lemma substring_append_r (a b : string) :
  substring (String.length a) (String.length (a +:+ b) - String.length a)
    (a +:+ b) = b.
Proof.
  apply chars_inj. rewrite chars_substring, !chars_length, chars_append.
  rewrite length_app, drop_app_length.
  apply take_ge. lia.
Qed.

(** The new text of a collected transformation is the text of its
    statement and then its calls. *)
Lemma collected_calls sf t :
  t ∈ collect sf → newText t = getText sf (statement t) +:+ calls sf t.
Proof.
  intros [c Hc]%collected_text. unfold calls. rewrite Hc at 3.
  rewrite Hc at 2. by rewrite substring_append_r.
Qed.

Lemma sameStatement_refl t : sameStatement t t = true.
Proof. by apply bool_decide_eq_true. Qed.

Lemma sameStatement_replaced edits t t' :
  sameStatement t t' = true → replaced edits t' = replaced edits t.
Proof.
  intros H%bool_decide_eq_true. unfold replaced, getStart, getEnd.
  by rewrite H.
Qed.

Lemma sameStatement_ranges t t' :
  getStart (statement t') = getStart (statement t) →
  getEnd (statement t') = getEnd (statement t) →
  sameStatement t t' = true.
Proof.
  unfold getStart, getEnd, sameStatement. intros Hs He.
  apply bool_decide_eq_true.
  destruct (getRange (statement t')), (getRange (statement t)).
  simpl in *. congruence.
Qed.

(** The sort is stable: among the transformations of one statement, the
    one that comes first after the sort is the one that came first
    before. *)
Lemma find_insertSorted t x l :
  List.find (sameStatement t) (insertSorted byStartDescending x l)
  = if sameStatement t x then Some x else List.find (sameStatement t) l.
Proof.
  induction l as [|y l IH]; simpl; [done|].
  destruct (byStartDescending x y <=? 0) eqn:Hcmp; simpl; [done|].
  rewrite IH.
  destruct (sameStatement t y) eqn:Hy, (sameStatement t x) eqn:Hx; try done.
  apply bool_decide_eq_true in Hx, Hy. apply Z.leb_gt in Hcmp.
  unfold byStartDescending, getStart in Hcmp. rewrite Hx, Hy in Hcmp. lia.
Qed.

Lemma find_sort t l :
  List.find (sameStatement t) (sort byStartDescending l)
  = List.find (sameStatement t) l.
Proof.
  unfold sort. induction l as [|x l IH]; simpl; [done|].
  by rewrite find_insertSorted, IH.
Qed.

Lemma tsMorph_keeps message sf :
  keepsStatements (tsMorph message) sf (calls sf).
Proof.
  intros t text text' Ht _. unfold tsMorph, manipulation.
  destruct (isTopLevel _ _); [|by destruct (inBlock _ _)].
  simpl. intros [= <-]. by rewrite <- collected_calls.
Qed.

Variable parse : string → string → string + list Stmt.
Variable replaceWithText : ReplaceWithText.

(** The loop of [transformSourceFile], for a library that keeps the
    statements it replaces.  When no manipulation raises, the text is left
    with one insertion for each statement that has a transformation, at
    the end of the statement: what the library has put there for the
    transformation that comes first for the statement.  When one raises,
    it is the manipulation of such a transformation. *)
Lemma apply_is_insertion sf inserted ts :
  orderly sf = true → keepsStatements replaceWithText sf inserted →
  ∀ text edits bound,
    (∀ t, t ∈ ts → t ∈ collect sf) →
    StronglySorted
      (λ a b, (getStart (statement b) ≤ getStart (statement a))%nat) ts →
    (∀ t e, t ∈ ts → e ∈ edits →
       (editStart e = getStart (statement t)
        ∧ editEnd e = getEnd (statement t))
       ∨ (getEnd (statement t) ≤ editStart e)%nat) →
    (∀ t, t ∈ ts → replaced edits t = false →
       (getEnd (statement t) ≤ bound)%nat) →
    take bound (list_ascii_of_string text)
    = take bound (list_ascii_of_string (fullText sf)) →
    (bound ≤ String.length (fullText sf))%nat →
    match applyTransformations replaceWithText sf text edits ts with
    | Done text' =>
        ∃ insertions,
          text' = insertAll text insertions
          ∧ StronglySorted gt insertions.*1
          ∧ Forall (λ p, (p ≤ bound)%nat) insertions.*1
          ∧ ∀ p c, (p, c) ∈ insertions ↔
              ∃ t, List.find (sameStatement t) ts = Some t
                   ∧ replaced edits t = false
                   ∧ p = getEnd (statement t) ∧ c = inserted t
    | Raised message _ =>
        ∃ t text0,
          List.find (sameStatement t) ts = Some t
          ∧ replaced edits t = false
          ∧ agrees sf t text0
          ∧ replaceWithText sf text0 (statement t) (wrap (statement t))
              (newText t) = inl message
    end.
Proof.
  intros Horderly Hkeeps. induction ts as [|t rest IH];
    intros text edits bound Hin Hsorted Hedits Hbound Hprefix Hlen.
  { exists []. split; [done|]. split; [constructor|]. split; [constructor|].
    intros p c. split; [by intros ?%elem_of_nil|].
    by intros (t & Ht & _). }
  apply StronglySorted_inv in Hsorted as [Hsorted Hfirst].
  rewrite Forall_forall in Hfirst.
  assert (t ∈ t :: rest) as Hhere by left.
  destruct (orderly_anchor sf t Horderly (Hin t Hhere))
    as (Hne & Hfit & Hothers).
  cbn [applyTransformations]. unfold wasForgotten.
  rewrite current_untouched
    by (done || intros e He; by apply (Hedits t e)).
  cbn [refForgotten refStart refEnd]. fold (replaced edits t).
  destruct (replaced edits t) eqn:Hhit.
  { specialize (IH text edits bound
                  ltac:(intros; apply Hin; by right) Hsorted
                  ltac:(intros; apply Hedits; [by right|done])
                  ltac:(intros; apply Hbound; [by right|done])
                  Hprefix Hlen).
    destruct (applyTransformations _ _ _ _ rest) as [text'|message text'].
    - destruct IH as (ins & Happly & Hdesc & Hbelow & Hall).
      exists ins. do 3 (split; [done|]). intros p c. rewrite Hall.
      split; intros (t' & Hfind & Hnot & Hrest); exists t';
        (split; [|done]); cbn [List.find] in *.
      + destruct (sameStatement t' t) eqn:Hsame; [|done].
        rewrite (sameStatement_replaced edits t' t Hsame) in Hhit.
        congruence.
      + destruct (sameStatement t' t) eqn:Hsame; [|done].
        injection Hfind as <-. congruence.
    - destruct IH as (t' & text0 & Hfind & Hnot & Hagrees & Hraised).
      exists t', text0. split; [|done]. cbn [List.find].
      destruct (sameStatement t' t) eqn:Hsame; [|done].
      rewrite (sameStatement_replaced edits t' t Hsame) in Hhit.
      congruence. }
  set (s := getStart (statement t)) in *.
  set (e := getEnd (statement t)) in *.
  assert (e ≤ bound)%nat as Heb by by apply Hbound.
  fold (wrap (statement t)).
  assert (mkRef s e false = wrap (statement t)) as -> by done.
  assert (agrees sf t text) as Hagrees.
  { unfold agrees. fold e.
    rewrite <- (Nat.min_l e bound), <- !take_take by lia.
    by rewrite Hprefix. }
  destruct (replaceWithText sf text (statement t) (wrap (statement t))
              (newText t)) as [message|text'] eqn:Hcall.
  { exists t, text. cbn [List.find]. by rewrite sameStatement_refl. }
  cbn [wrap refStart refEnd]. fold s e.
  rewrite (Hkeeps t text text' (Hin t Hhere) Hagrees Hcall). fold s e.
  assert (bound ≤ String.length text)%nat as Hlen'.
  { rewrite chars_length in Hlen |- *.
    apply (f_equal length) in Hprefix. rewrite !length_take in Hprefix.
    lia. }
  assert (replaceRange text s e (getText sf (statement t) +:+ inserted t)
          = insertAt text e (inserted t)) as Hinsert.
  { unfold getText. fold s e. by apply replace_is_insert with bound. }
  rewrite Hinsert.
  assert (∀ t', t' ∈ rest →
            (s = getStart (statement t') ∧ e = getEnd (statement t'))
            ∨ (getEnd (statement t') ≤ s)%nat) as Hrest.
  { intros t' Ht'. specialize (Hfirst t' Ht'). fold s in Hfirst.
    assert (t' ∈ t :: rest) as Hthere by by right.
    destruct (Hothers t' (Hin t' Hthere)) as [Heq|[H1|H1]].
    - left. unfold s, e, getStart, getEnd. by rewrite Heq.
    - fold e in H1. lia.
    - by right. }
  set (L := (String.length (insertAt text e (inserted t)) + (e - s)
             - String.length text)%nat).
  assert (∀ t', replaced (edits ++ [mkEdit s e L]) t'
                = replaced edits t' || sameStatement t' t) as Hreplaced.
  { intros t'. unfold replaced at 1. rewrite existsb_app.
    fold (replaced edits t'). f_equal. cbn. rewrite orb_false_r.
    destruct (sameStatement t' t) eqn:Hsame.
    - apply bool_decide_eq_true in Hsame. unfold s, e, getStart, getEnd.
      by rewrite Hsame, !Nat.eqb_refl.
    - destruct (s =? _)%nat eqn:Hs; [|done].
      destruct (e =? _)%nat eqn:He; [|done].
      apply Nat.eqb_eq in Hs, He.
      by rewrite (sameStatement_ranges t' t) in Hsame. }
  specialize (IH (insertAt text e (inserted t))
                (edits ++ [mkEdit s e L])%list s).
  destruct (applyTransformations _ _ _ _ rest) as [final|message final].
  - destruct IH as (ins & Happly & Hdesc & Hbelow & Hall).
    + intros; apply Hin; by right.
    + done.
    + intros t' e' Ht' [He'|He']%elem_of_app.
      * apply Hedits; [by right|done].
      * apply list_elem_of_singleton in He' as ->. cbn.
        destruct (Hrest t' Ht') as [[? ?]|?]; auto.
    + intros t' Ht'. rewrite Hreplaced.
      intros [_ Hnew]%orb_false_iff.
      destruct (Hrest t' Ht') as [[Hs He]|?]; [|done].
      by rewrite (sameStatement_ranges t' t) in Hnew.
    + rewrite prefix_after_insert by lia.
      rewrite <- (Nat.min_l s bound), <- !take_take by lia.
      by rewrite Hprefix.
    + lia.
    + exists ((e, inserted t) :: ins). split; [by rewrite Happly|].
      split; [|split].
      * cbn. constructor; [done|].
        eapply Forall_impl; [exact Hbelow|]. cbn. intros; lia.
      * cbn. constructor; [done|].
        eapply Forall_impl; [exact Hbelow|]. cbn. intros; lia.
      * intros p c. rewrite elem_of_cons, Hall. split.
        -- intros [[= -> ->]|(t' & Hfind & Hnot & Hp & Hnew)].
           { exists t. cbn [List.find]. by rewrite sameStatement_refl. }
           rewrite Hreplaced in Hnot.
           apply orb_false_iff in Hnot as [Hnot Hsame].
           exists t'. cbn [List.find]. by rewrite Hsame.
        -- intros (t' & Hfind & Hnot & Hp & Hnew). cbn [List.find] in Hfind.
           destruct (sameStatement t' t) eqn:Hsame.
           { injection Hfind as <-. left. by f_equal. }
           right. exists t'. rewrite Hreplaced, Hnot, Hsame. done.
  - destruct IH as (t' & text0 & Hfind & Hnot & Hagrees' & Hraised).
    + intros; apply Hin; by right.
    + done.
    + intros t' e' Ht' [He'|He']%elem_of_app.
      * apply Hedits; [by right|done].
      * apply list_elem_of_singleton in He' as ->. cbn.
        destruct (Hrest t' Ht') as [[? ?]|?]; auto.
    + intros t' Ht'. rewrite Hreplaced.
      intros [_ Hnew]%orb_false_iff.
      destruct (Hrest t' Ht') as [[Hs He]|?]; [|done].
      by rewrite (sameStatement_ranges t' t) in Hnew.
    + rewrite prefix_after_insert by lia.
      rewrite <- (Nat.min_l s bound), <- !take_take by lia.
      by rewrite Hprefix.
    + lia.
    + rewrite Hreplaced in Hnot.
      apply orb_false_iff in Hnot as [Hnot Hsame].
      exists t', text0. cbn [List.find]. by rewrite Hsame.
Qed.


End Additive.


(** * The transformer *)
(** * The transformer *)

Section Transformer.
Import Instrumenter Spec.

Variable parse : string → string → string + list Stmt.
Variable replaceWithText : ReplaceWithText.

(** C9: the result of [instrument] is a function of the source text and
    the options alone.  The files an instrumenter holds from earlier
    calls do not enter the result, because the file is created with
    [overwrite: true]; so two calls with the same arguments return the
    same result, on the same instrumenter or on a new one. *)
Theorem instrument_is_pure this this' sourceCode options :
  (instrumentWith parse replaceWithText this sourceCode options).1
  = (instrumentWith parse replaceWithText this' sourceCode options).1
  ∧ instrument parse replaceWithText sourceCode options
    = (instrumentWith parse replaceWithText this sourceCode options).1
  ∧ ∀ earlier earlierOptions,
      (instrumentWith parse replaceWithText
         (instrumentWith parse replaceWithText this earlier
            earlierOptions).2
         sourceCode options).1
      = instrument parse replaceWithText sourceCode options.
Proof.
  assert (∀ a b,
            (instrumentWith parse replaceWithText a sourceCode options).1
            = (instrumentWith parse replaceWithText b sourceCode options).1)
    as H.
  { intros a b. unfold instrumentWith, createSourceFile. simpl.
    destruct (parse (pathOf options) sourceCode) as [|tree]; [done|].
    by destruct (transformSourceFile _ _). }
  split; [apply H|]. split; [apply H|]. intros. apply H.
Qed.

(** C10: when [instrument] fails, because the front end raised or because
    a manipulation of the text did, the [code] of its result is the
    source text it was given, and the result has the message of the
    error. *)
Theorem failure_returns_the_source this sourceCode options :
  success (instrumentWith parse replaceWithText this sourceCode options).1
  = false →
  code (instrumentWith parse replaceWithText this sourceCode options).1
  = sourceCode
  ∧ is_Some
      (error (instrumentWith parse replaceWithText this sourceCode
                options).1).
Proof.
  unfold instrumentWith, createSourceFile. simpl.
  destruct (parse (pathOf options) sourceCode) as [|tree]; [by eexists|].
  destruct (transformSourceFile _ _); [done|by eexists].
Qed.

End Transformer.

Lemma failure_returns_the_source_witness :
  let path := Instrumenter.pathOf Spec.noOptions in
  let tree := default [] (frontEnd path Spec.unbracedSource) in
  let result :=
    (Instrumenter.instrumentWith (λ _ _, inr tree)
       (Instrumenter.tsMorph "Manipulation error") Instrumenter.constructor
       Spec.unbracedSource Spec.noOptions).1 in
  frontEnd path Spec.unbracedSource = Some tree
  ∧ length (Instrumenter.collect
              (Instrumenter.mkSourceFile Spec.unbracedSource tree)) = 2%nat
  ∧ Instrumenter.known
      (Instrumenter.mkSourceFile Spec.unbracedSource tree) = true
  ∧ Instrumenter.success result = false
  ∧ Instrumenter.code result = Spec.unbracedSource
  ∧ is_Some (Instrumenter.error result).
Proof.
  intros path tree result. split; [vm_compute; reflexivity|].
  split; [vm_compute; reflexivity|]. split; [vm_compute; reflexivity|].
  assert (Instrumenter.success result = false) as Hfailed
    by (vm_compute; reflexivity).
  split; [exact Hfailed|].
  exact (failure_returns_the_source (λ _ _, inr tree)
           (Instrumenter.tsMorph "Manipulation error")
           Instrumenter.constructor Spec.unbracedSource Spec.noOptions
           Hfailed).
Defined.

Section Orchestration.
Import Instrumenter Cli Spec.

Variable parse : string → string → string + list Stmt.
Variable replaceWithText : ReplaceWithText.
Variable execute : string → Executor.ExecutionResult.

(** C8: whether the runner is called is decided by the front end raising.
    When it raises, [instrument] returns [success: false] with the message
    and the text, and the handler broadcasts the error with an empty
    partial trace and returns without calling [execute].  When it builds
    a tree (here one without a recognized construct), [instrument] returns
    the text with [success: true] and the handler calls [execute] on it.
    The text [const = ;] is of the second kind: the front end does not
    raise on a syntax error. *)
Theorem runner_is_called_unless_the_front_end_raises filePath content :
  (∀ message,
     parse (pathOf (mkOptions (Some filePath))) content = inl message →
     instrument parse replaceWithText content (mkOptions (Some filePath))
     = mkResult content false (Some message)
     ∧ fileChanged parse replaceWithText execute filePath content
       = [Instrument content filePath;
          BroadcastError (orElse (Some message) "Instrumentation failed") []])
  ∧ (∀ tree,
       parse (pathOf (mkOptions (Some filePath))) content = inr tree →
       plain (mkSourceFile content tree) = true →
       instrument parse replaceWithText content (mkOptions (Some filePath))
       = mkResult content true None
       ∧ ∃ broadcast,
           fileChanged parse replaceWithText execute filePath content
           = [Instrument content filePath; BroadcastTraceStart;
              Execute content; broadcast])
  ∧ (∃ tree,
       frontEnd (pathOf (mkOptions (Some "sort.ts"))) invalidSource
       = Some tree
       ∧ instrument (λ _ _, inr tree) replaceWithText invalidSource
           (mkOptions (Some "sort.ts"))
         = mkResult invalidSource true None
       ∧ ∃ broadcast,
           fileChanged (λ _ _, inr tree) replaceWithText execute "sort.ts"
             invalidSource
           = [Instrument invalidSource "sort.ts"; BroadcastTraceStart;
              Execute invalidSource; broadcast]).
Proof.
  assert (∀ front path text tree,
            front (pathOf (mkOptions (Some path))) text = inr tree →
            plain (mkSourceFile text tree) = true →
            instrument front replaceWithText text (mkOptions (Some path))
            = mkResult text true None) as Hplain.
  { intros front path text tree Hfront Htree.
    unfold instrument, instrumentWith, createSourceFile. simpl negb.
    cbn [andb]. rewrite Hfront. unfold transformSourceFile.
    by rewrite plain_collects_nothing. }
  assert (∀ front text path,
            instrument front replaceWithText text (mkOptions (Some path))
            = mkResult text true None →
            ∃ broadcast,
              fileChanged front replaceWithText execute path text
              = [Instrument text path; BroadcastTraceStart; Execute text;
                 broadcast]) as Hcalls.
  { intros front text path Hresult. unfold fileChanged. rewrite Hresult.
    cbn [Instrumenter.success Instrumenter.code negb].
    destruct (negb (Executor.success (execute text))); by eexists. }
  split; [|split].
  - intros message Hparse.
    assert (instrument parse replaceWithText content
              (mkOptions (Some filePath))
            = mkResult content false (Some message)) as Hresult.
    { unfold instrument, instrumentWith, createSourceFile. simpl negb.
      cbn [andb]. by rewrite Hparse. }
    split; [done|]. unfold fileChanged. by rewrite Hresult.
  - intros tree Hparse Htree. split; [by apply Hplain with tree|].
    apply Hcalls. by apply Hplain with tree.
  - eexists. split; [vm_compute; reflexivity|].
    match goal with |- instrument ?front _ _ _ = _ ∧ _ =>
      assert (instrument front replaceWithText invalidSource
                (mkOptions (Some "sort.ts"))
              = mkResult invalidSource true None) as Hresult
    end.
    { eapply Hplain; [reflexivity|]. vm_compute. reflexivity. }
    split; [done|]. by apply Hcalls.
Qed.

End Orchestration.

Lemma runner_is_called_unless_the_front_end_raises_witness :
  let execute (code : string) :=
    Executor.mkResult false [] 0
      (Some (Executor.mkError "Unexpected token" 0)) in
  let replaceWithText := Instrumenter.tsMorph EmptyString in
  let path := Instrumenter.pathOf (Instrumenter.mkOptions (Some "sort.ts")) in
  let tree := default [] (frontEnd path Spec.plainSource) in
  (Spec.refusing path Spec.plainSource = inl "Cannot create the source file"
   ∧ Cli.fileChanged Spec.refusing replaceWithText execute "sort.ts"
       Spec.plainSource
     = [Cli.Instrument Spec.plainSource "sort.ts";
        Cli.BroadcastError "Cannot create the source file" []])
  ∧ (frontEnd path Spec.plainSource = Some tree
     ∧ Spec.plain (Instrumenter.mkSourceFile Spec.plainSource tree) = true
     ∧ ∃ broadcast,
         Cli.fileChanged (λ _ _, inr tree) replaceWithText execute "sort.ts"
           Spec.plainSource
         = [Cli.Instrument Spec.plainSource "sort.ts"; Cli.BroadcastTraceStart;
            Cli.Execute Spec.plainSource; broadcast]).
Proof.
  intros execute replaceWithText path tree. split; [split|split; [|split]].
  - reflexivity.
  - apply (proj1 (runner_is_called_unless_the_front_end_raises Spec.refusing
                    replaceWithText execute "sort.ts" Spec.plainSource)
             "Cannot create the source file" eq_refl).
  - vm_compute; reflexivity.
  - vm_compute; reflexivity.
  - eapply (proj1 (proj2 (runner_is_called_unless_the_front_end_raises
                            (λ _ _, inr tree) replaceWithText execute
                            "sort.ts" Spec.plainSource)));
      vm_compute; reflexivity.
Defined.

(** * The engine keeps the identifiers of the events in step *)

Module EngineFacts.
Import Engine Spec.

Section Keeps.

Variable clock : nat → Z.
Variable I : State → Prop.

Hypothesis allocate_keeps : ∀ vs, keeps I (allocate vs).
Hypothesis setBinding_keeps : ∀ x v, keeps I (setBinding x v).
Hypothesis initialize_keeps : ∀ k x v, keeps I (initialize k x v).
Hypothesis setElement_keeps : ∀ a i v, keeps I (setElement a i v).
Hypothesis tick_keeps : keeps I tick.
Hypothesis now_keeps : keeps I (now clock).
Hypothesis push_keeps : ∀ type data t, keeps I (push type data t).

Lemma ret_keeps {A} (a : A) : keeps I (ret a).
Proof. by intros st. Qed.

Lemma bind_keeps {A B} (m : M A) (f : A → M B) :
  keeps I m → (∀ a, keeps I (f a)) → keeps I (bind m f).
Proof.
  intros Hm Hf st Hst. unfold bind. specialize (Hm st Hst).
  destruct (m st) as [[a| | |] st']; simpl in *; auto. by apply Hf.
Qed.

Lemma throw_keeps {A} v : keeps I (@throw A v).
Proof. by intros st. Qed.

Lemma timedOut_keeps {A} : keeps I (@timedOut A).
Proof. by intros st. Qed.

Lemma unsupported_keeps {A} : keeps I (@unsupported A).
Proof. by intros st. Qed.

Lemma mapM_keeps {A B} (f : A → M B) l :
  (∀ a, a ∈ l → keeps I (f a)) → keeps I (mapM f l).
Proof.
  induction l as [|a l IH]; intros H; simpl.
  - apply ret_keeps.
  - apply bind_keeps; [apply H; left|intros b].
    apply bind_keeps; [apply IH; intros; apply H; by right|intros bs].
    apply ret_keeps.
Qed.

Lemma forEach_keeps {A} (f : A → M unit) l :
  (∀ a, a ∈ l → keeps I (f a)) → keeps I (forEach f l).
Proof.
  induction l as [|a l IH]; intros H; simpl.
  - apply ret_keeps.
  - apply bind_keeps; [apply H; left|intros _].
    apply IH; intros; apply H; by right.
Qed.

Lemma number_keeps n : keeps I (number n).
Proof.
  unfold number. case_match; [apply ret_keeps|apply unsupported_keeps].
Qed.

Lemma getBinding_keeps x : keeps I (getBinding x).
Proof. intros st H. unfold getBinding. by case_match. Qed.

Lemma getElement_keeps a i : keeps I (getElement a i).
Proof. intros st H. unfold getElement. by repeat case_match. Qed.

Lemma getProperty_keeps a p : keeps I (getProperty a p).
Proof. intros st H. unfold getProperty. by repeat case_match. Qed.

Lemma iterate_keeps v k b : keeps I (iterate v k b).
Proof. intros st H. unfold iterate. by repeat case_match. Qed.

Lemma binary_keeps op a b : keeps I (binary op a b).
Proof.
  unfold binary.
  repeat case_match; auto using ret_keeps, unsupported_keeps, number_keeps.
Qed.

Lemma revive_keeps j : keeps I (revive j).
Proof.
  revert j. fix IH 1. intros [| | | |js]; simpl; try apply ret_keeps.
  apply bind_keeps; [|intros vs; apply allocate_keeps].
  induction js as [|j js IHjs]; simpl.
  - apply ret_keeps.
  - apply bind_keeps; [apply IH|intros v].
    apply bind_keeps; [apply IHjs|intros vs]. apply ret_keeps.
Qed.

Lemma clone_keeps v : keeps I (clone v).
Proof.
  intros st H. unfold clone. case_match; [|done]. by apply revive_keeps.
Qed.

Lemma emit_keeps type data : keeps I (emit clock type data).
Proof. apply bind_keeps; [apply now_keeps|intros t; apply push_keeps]. Qed.

Lemma callTrace_keeps method args : keeps I (callTrace clock method args).
Proof.
  unfold callTrace, declare, assign, arrayWrite.
  repeat case_match;
    repeat first [apply clone_keeps | apply emit_keeps | apply ret_keeps
                 | apply unsupported_keeps | apply bind_keeps; [|intros ?]].
Qed.

Ltac step IH :=
  first
    [ apply ret_keeps | apply unsupported_keeps | apply throw_keeps
    | apply timedOut_keeps | apply number_keeps | apply getBinding_keeps
    | apply getElement_keeps | apply getProperty_keeps | apply iterate_keeps
    | apply binary_keeps | apply callTrace_keeps
    | apply allocate_keeps | apply setBinding_keeps | apply initialize_keeps
    | apply setElement_keeps | apply tick_keeps
    | apply IH; simpl in *; lia
    | apply mapM_keeps; intros ? ?%(sum_list_with_in _ esize)
    | apply bind_keeps; [|intros ?] ].

Lemma eval_keeps e : keeps I (eval clock e).
Proof.
  induction e as [e IH] using (induction_ltof1 _ esize). unfold ltof in IH.
  destruct e as [| | | | | |r es|r a [i|]|r a p|r f args|r a|r l op r'];
    simpl; try (repeat step IH; fail).
  - destruct f; repeat step IH. case_match; repeat step IH.
  - destruct op; try (repeat step IH; fail).
    destruct l as [| | | | | |rl targets|rl a [i|]| | | |]; repeat step IH.
    assert (Hsub : ∀ t, t ∈ targets → ∀ e', (esize e' < esize t)%nat →
              keeps I (eval clock e')).
    { intros t Ht%(sum_list_with_in _ esize) e' He'. apply IH. simpl. lia. }
    clear IH. generalize 0%nat false.
    induction targets as [|t targets IHt]; intros k b; [apply ret_keeps|].
    assert (Ht := Hsub t ltac:(left)).
    assert (Hrest := IHt (λ t' Ht', Hsub t' ltac:(by right))).
    destruct t as [| | | | | | |rt ta [ti|]| | | |]; repeat step Ht.
    all: apply Hrest.
Qed.

Lemma declareVariable_keeps k d : keeps I (declareVariable clock k d).
Proof.
  unfold declareVariable.
  apply bind_keeps; [|intros v; apply initialize_keeps].
  case_match; [apply eval_keeps|apply ret_keeps].
Qed.

Lemma iterations_keeps condition body n :
  keeps I condition → keeps I body →
  keeps I (iterations condition body n).
Proof.
  intros Hc Hb. induction n as [|n IHn]; simpl; [apply timedOut_keeps|].
  apply bind_keeps; [apply tick_keeps|intros _].
  apply bind_keeps; [apply Hc|intros v].
  case_match; [|apply ret_keeps].
  apply bind_keeps; [apply Hb|intros _; apply IHn].
Qed.

Lemma exec_keeps s : keeps I (exec clock s).
Proof.
  revert s. fix IH 1.
  intros [r k ds|r e|r ss|r c b|r c s1 [s2|]|r e]; cbn [exec].
  - apply forEach_keeps. intros d _. apply declareVariable_keeps.
  - apply bind_keeps; [apply eval_keeps|intros _; apply ret_keeps].
  - induction ss as [|s ss IHss]; simpl; [apply ret_keeps|].
    apply bind_keeps; [apply IH|intros _; apply IHss].
  - intros st. apply iterations_keeps; [apply eval_keeps|apply IH].
  - apply bind_keeps; [apply eval_keeps|intros v].
    case_match; apply IH.
  - apply bind_keeps; [apply eval_keeps|intros v].
    case_match; [apply IH|apply ret_keeps].
  - apply bind_keeps; [apply eval_keeps|intros v; apply throw_keeps].
Qed.

Lemma runInNewContext_keeps program :
  keeps I (runInNewContext clock program).
Proof. apply forEach_keeps. intros s _. apply exec_keeps. Qed.

End Keeps.

(** [push] is the one place where the [__trace] object changes. *)
Lemma push_consistent type data t :
  keeps (λ st, consistent (runtime st)) (push type data t).
Proof.
  intros st [Hn Hid]. unfold push, consistent. simpl. split.
  - rewrite length_app. simpl. lia.
  - intros i e He. apply lookup_app_Some in He as [He|[Hi He]]; [by apply Hid|].
    apply list_lookup_singleton_Some in He as [Hz <-]. simpl. lia.
Qed.

Lemma run_consistent clock program st :
  consistent (runtime st) →
  consistent (runtime (runInNewContext clock program st).2).
Proof.
  apply (runInNewContext_keeps clock (λ st, consistent (runtime st))).
  - by intros vs st'.
  - intros x v st'. unfold setBinding. by repeat case_match.
  - by intros k x v st'.
  - intros a i v st'. unfold setElement. by repeat case_match.
  - intros st'. unfold tick. by case_match.
  - by intros st'.
  - apply push_consistent.
Qed.

End EngineFacts.

Section Identifiers.
Import Engine Executor Spec.

(** C6: the [__trace] object numbers the events from 0 as it records them:
    whenever a script stops (at its end or at a fault) the identifier of
    every recorded event is its position, and so it is in every trace that
    [execute] returns. *)
Theorem event_ids_are_positions clock steps instrumentedCode :
  (∀ o st, run clock steps instrumentedCode = Some (o, st) →
     consistent (runtime st))
  ∧ ∀ options r h,
      execute clock steps instrumentedCode options = Some (r, h) →
      ∀ i e, trace r !! i = Some e → id e = i.
Proof.
  assert (∀ o st, run clock steps instrumentedCode = Some (o, st) →
            consistent (runtime st)) as Hrun.
  { unfold run. intros o st H.
    destruct (Frontend.parseProgram instrumentedCode) as [program|];
      simpl in H; [|done].
    destruct (wellFormed program); [|done].
    injection H as H.
    replace st with (runInNewContext clock program
                       (createSandbox clock steps 1)).2 by by rewrite H.
    apply EngineFacts.run_consistent. split; [done|].
    intros j e' Hj. by destruct j. }
  split; [exact Hrun|].
  unfold execute, executeWith. intros options r h Hexecute i e He.
  destruct (validTimeout _); [|done].
  destruct (run clock steps instrumentedCode) as [[o st]|] eqn:Hst; [|done].
  destruct (Hrun o st eq_refl) as [_ Hid].
  destruct o as [[]|v| |].
  - injection Hexecute as <- <-. by apply Hid.
  - destruct (toString v); simplify_eq/=.
  - simplify_eq/=.
  - done.
Qed.

Lemma event_ids_are_positions_witness :
  ∃ r h,
    instrumentAndExecute (λ k, Z.of_nat k) 10 swapSource = Some (r, h)
    ∧ length (trace r) = 4%nat
    ∧ ∀ i e, trace r !! i = Some e → id e = i.
Proof.
  eexists _, _. split; [vm_compute; reflexivity|]. split; [reflexivity|].
  eapply (proj2 (event_ids_are_positions (λ k, Z.of_nat k) 10
                   (default EmptyString (instrumented swapSource)))
            (mkOptions None)).
  vm_compute. reflexivity.
Defined.

End Identifiers.

(** * The pipeline on the examples of the specification *)

Section Examples.
Import Engine Executor Spec.

Variable clock : nat → Z.
Variable steps : nat.

(** C5: for [const a=[2,1]; [a[0],a[1]]=[a[1],a[0]];] the run succeeds and
    its trace is, in order: the declaration of [a] with value [[2,1]], the
    write of 1 at index 0, the write of 2 at index 1, and the assignment
    of [a] with value [[1,2]]. *)
Theorem swap_trace :
  described <$> instrumentAndExecute clock steps swapSource =
  Some (true,
        [("variable:declare", Some (VString "a"), None,
          Some (JArray [JNumber 2; JNumber 1]));
         ("array:write", Some (VString "a"), Some (VNumber 0),
          Some (JNumber 1));
         ("array:write", Some (VString "a"), Some (VNumber 1),
          Some (JNumber 2));
         ("variable:assign", Some (VString "a"), None,
          Some (JArray [JNumber 1; JNumber 2]))]).
Proof. vm_compute. reflexivity. Qed.

(** C1, at its input [const a=[1,2,3]; a[1] = a[1] + 5;]: the trace has
    one [array:write] event, for index 1, and its value is 12, the value
    of [a[1] + 5] after the assignment; the assignment stored 7 (the array
    of [a], the first object of the run, ends as [[1,7,3]]). *)
Theorem indexed_write_trace :
  (λ r, (described r, observe r.2 (VArray 0%nat))) <$>
    instrumentAndExecute clock steps indexedWriteSource =
  Some ((true,
         [("variable:declare", Some (VString "a"), None,
           Some (JArray [JNumber 1; JNumber 2; JNumber 3]));
          ("array:write", Some (VString "a"), Some (VNumber 1),
           Some (JNumber 12))]),
        Some (JArray [JNumber 1; JNumber 7; JNumber 3])).
Proof. vm_compute. reflexivity. Qed.

(** C3, at [const r=[1]; const m=[[0]]; m[0] = r;] and at the same text
    followed by [r[0] = 9;].  The first event, the declaration of [r],
    holds a copy and reads [[1]] in both runs.  The third event, the
    [array:write] for [m[0]], holds the array of [r] itself: it reads [[1]]
    when the run ends with that event, and [[9]] after the later write to
    [r]. *)
Theorem array_write_value_is_live :
  let recorded (i : nat) r :=
    (λ e, (type e, value (data e), value (data e) ≫= observe r.2)) <$>
      Executor.trace r.1 !! i in
  (λ r, (recorded 0%nat r, recorded 2%nat r)) <$>
    instrumentAndExecute clock steps sharedRowSource =
  Some (Some ("variable:declare", Some (VArray 1%nat),
              Some (JArray [JNumber 1])),
        Some ("array:write", Some (VArray 0%nat), Some (JArray [JNumber 1])))
  ∧
  (λ r, (recorded 0%nat r, recorded 2%nat r)) <$>
    instrumentAndExecute clock steps sharedRowMutatedSource =
  Some (Some ("variable:declare", Some (VArray 1%nat),
              Some (JArray [JNumber 1])),
        Some ("array:write", Some (VArray 0%nat), Some (JArray [JNumber 9]))).
Proof. split; vm_compute; reflexivity. Qed.

End Examples.

(** * Faults *)

Section Faults.
Import Engine Executor Spec.

Variable clock : nat → Z.
Variable steps : nat.

Lemma forEach_app {A} (f : A → M unit) l1 l2 st :
  forEach f (l1 ++ l2) st = (forEach f l1 ;;; forEach f l2) st.
Proof.
  revert st. induction l1 as [|a l1 IH]; intros st; [reflexivity|].
  cbn [app forEach]. unfold bind.
  destruct (f a st) as [[[]|v| |] st']; try reflexivity.
  exact (IH st').
Qed.

(** A loop whose condition always holds and whose body does nothing
    uses up whatever budget is left. *)
Lemma idle_loop_times_out condition body n st :
  (∀ st', ∃ v, condition st' = (Normal v, st') ∧ truthy v = true) →
  (∀ st', body st' = (Normal (), st')) →
  (budget st < n)%nat →
  iterations condition body n st
  = (TimedOut,
     mkState (heap st) (nextLoc st) (scope st) (runtime st) (clockReads st)
       0%nat).
Proof.
  intros Hc Hb. revert st. induction n as [|n IH]; intros st Hn; [lia|].
  destruct st as [h l sc rt rd [|b]]; [done|].
  simpl in Hn. cbn [iterations]. unfold bind, tick. simpl.
  destruct (Hc (mkState h l sc rt rd b)) as (v & -> & ->).
  rewrite Hb, IH; [done|simpl; lia].
Qed.

Lemma endless_loop_run :
  ∃ st,
    run clock steps (default EmptyString (instrumented endlessLoopSource))
    = Some (TimedOut, st)
    ∧ length (events (runtime st)) = 1%nat.
Proof.
  unfold run. set (code := default EmptyString _).
  let p := eval vm_compute in (Frontend.parseProgram code) in
  replace (Frontend.parseProgram code) with p by (vm_compute; reflexivity).
  cbn [mbind option_bind].
  match goal with |- context [wellFormed ?p] =>
    replace (wellFormed p) with true by (vm_compute; reflexivity) end.
  unfold runInNewContext.
  match goal with |- context [forEach _ [?s1; ?s2; ?s3]] =>
    change [s1; s2; s3] with ([s1; s2] ++ [s3])%list end.
  rewrite forEach_app. unfold bind at 1.
  match goal with |- context [forEach (exec clock) ?p ?st] =>
    let x := eval vm_compute in (forEach (exec clock) p st) in
    change (forEach (exec clock) p st) with x end.
  cbn [forEach exec]. unfold bind at 1.
  rewrite idle_loop_times_out; [by eexists| |done|simpl; lia].
  intros st'. by exists (VBoolean true).
Qed.

(** C2: a result of [execute] with [success: false] has an empty [trace]
    and [eventIndex] 0, whatever the [__trace] object had recorded.  At the
    instrumented text of [const a=[1]; throw 5;] and of
    [const a=[1]; while (true) {}] the [__trace] object holds the event of
    the declaration when the script faults, and the result has none. *)
Theorem fault_drops_the_partial_trace :
  let report (code : string) :=
    ((λ x, (x.1, length (events (runtime x.2)))) <$> run clock steps code,
     (λ r, (success r.1, trace r.1, error r.1)) <$>
       execute clock steps code (mkOptions None)) in
  (∀ code options r h,
     execute clock steps code options = Some (r, h) → success r = false →
     trace r = [] ∧ ∃ message, error r = Some (mkError message 0))
  ∧ report <$> instrumented throwSource
    = Some (Some (Throw (VNumber 5), 1%nat),
            Some (false, [], Some (mkError "5" 0)))
  ∧ report <$> instrumented endlessLoopSource
    = Some (Some (TimedOut, 1%nat),
            Some (false, [],
                  Some (mkError
                          "Error: Script execution timed out after 5000ms"
                          0))).
Proof.
  split; [|split; [vm_compute; reflexivity|]].
  - unfold execute, executeWith. intros code options r h Hexecute Hfailed.
    destruct (validTimeout _); [|done].
    destruct (run clock steps code) as [[[[]|v| |] st]|]; try done.
    + by injection Hexecute as <- <-.
    + destruct (toString v) as [message|]; [|done].
      injection Hexecute as <- <-. split; [done|]. by eexists.
    + injection Hexecute as <- <-. split; [done|]. by eexists.
  - destruct endless_loop_run as (st & Hrun & Hlen).
    assert (instrumented endlessLoopSource
            = Some (default EmptyString (instrumented endlessLoopSource)))
      as -> by (vm_compute; reflexivity).
    cbv zeta. cbn [fmap option_fmap option_map].
    unfold execute, executeWith.
    change (validTimeout _) with true. cbv iota. rewrite Hrun. simpl.
    rewrite Hlen. vm_compute. reflexivity.
Qed.

End Faults.

Section ServerFacts.
Import Server.

Variable stringify : ServerMessage → option string.

Implicit Types (this : VisualizationServer) (sockets : gmap Socket WebSocket).

Lemma deliver_lookup (X : gset Socket) data sockets s :
  deliver X data sockets !! s
  = if decide (s ∈ X)
    then (λ w, if readyState w =? OPEN then send data w else w)
           <$> sockets !! s
    else sockets !! s.
Proof.
  unfold deliver.
  set (P := λ (r : gmap Socket WebSocket) (Y : gset Socket),
    r !! s = if decide (s ∈ Y)
             then (λ w, if readyState w =? OPEN then send data w else w)
                    <$> sockets !! s
             else sockets !! s).
  apply (set_fold_ind_L P); unfold P.
  - by rewrite decide_False by apply not_elem_of_empty.
  - clear X. intros x X r Hx IH.
    destruct (decide (s = x)) as [->|Hne].
    + rewrite decide_True by (by apply elem_of_union_l, elem_of_singleton).
      rewrite decide_False in IH by done.
      destruct (r !! x) as [w|] eqn:Hw.
      * destruct (readyState w =? OPEN) eqn:Ho.
        -- rewrite lookup_insert_eq, <- IH. simpl. by rewrite Ho.
        -- rewrite Hw, <- IH. simpl. by rewrite Ho.
      * by rewrite Hw, <- IH.
    + assert ((match r !! x with
               | Some w => if readyState w =? OPEN
                           then <[x := send data w]> r else r
               | None => r
               end) !! s = r !! s) as ->.
      { repeat case_match; try done; by rewrite lookup_insert_ne. }
      rewrite IH. destruct (decide (s ∈ X)).
      * by rewrite decide_True by by apply elem_of_union_r.
      * rewrite decide_False; [done|].
        by intros [?%elem_of_singleton|?]%elem_of_union.
Qed.

Lemma deliver_inbox X data sockets s :
  inbox (deliver X data sockets) s
  = (if bool_decide (s ∈ X) && isOpen sockets s
     then (inbox sockets s ++ [data])%list else inbox sockets s)
  ∧ isOpen (deliver X data sockets) s = isOpen sockets s.
Proof.
  unfold inbox, isOpen. rewrite deliver_lookup.
  destruct (decide (s ∈ X)) as [Hs|Hs].
  - rewrite bool_decide_eq_true_2 by done.
    destruct (sockets !! s) as [w|]; simpl; [|done].
    by destruct (readyState w =? OPEN) eqn:Ho; simpl; rewrite ?Ho.
  - by rewrite bool_decide_eq_false_2 by done.
Qed.

(** What a broadcast leaves in the inbox of a socket, raised or not. *)
Lemma broadcast_inbox this sockets message s :
  inbox (default sockets (broadcast stringify this sockets message)) s
  = (if bool_decide (s ∈ clients this) && isOpen sockets s
     then (inbox sockets s ++ payloads stringify [message])%list
     else inbox sockets s)
  ∧ isOpen (default sockets (broadcast stringify this sockets message)) s
    = isOpen sockets s.
Proof.
  unfold broadcast. cbn [payloads].
  destruct (stringify message) as [data|]; simpl.
  - apply deliver_inbox.
  - rewrite app_nil_r. by destruct (_ && _).
Qed.

(** X1: a broadcast whose message can be serialized is sent once to every
    connected socket that is open, and to no other socket; it changes the
    state of no socket.  A broadcast whose message cannot be serialized
    raises before anything is sent. *)
Theorem broadcast_reaches_the_open_clients this sockets message :
  match stringify message with
  | Some data =>
      ∃ sockets',
        broadcast stringify this sockets message = Some sockets'
        ∧ ∀ s,
            inbox sockets' s
            = (if bool_decide (s ∈ clients this) && isOpen sockets s
               then (inbox sockets s ++ [data])%list else inbox sockets s)
            ∧ isOpen sockets' s = isOpen sockets s
  | None => broadcast stringify this sockets message = None
  end.
Proof.
  unfold broadcast. destruct (stringify message) as [data|]; [|done].
  eexists. split; [done|]. intros s. unfold inbox, isOpen.
  rewrite deliver_lookup.
  destruct (decide (s ∈ clients this)) as [Hs|Hs].
  - rewrite bool_decide_eq_true_2 by done.
    destruct (sockets !! s) as [w|]; simpl; [|done].
    by destruct (readyState w =? OPEN) eqn:Ho; simpl; rewrite ?Ho.
  - by rewrite bool_decide_eq_false_2 by done.
Qed.

Lemma sendToClient_inbox sockets client message s :
  inbox (default sockets (sendToClient stringify sockets client message)) s
  = if bool_decide (s = client) && isOpen sockets s
    then (inbox sockets s ++ payloads stringify [message])%list
    else inbox sockets s.
Proof.
  unfold inbox, isOpen, sendToClient. cbn [payloads].
  destruct (decide (s = client)) as [->|Hne].
  - rewrite bool_decide_eq_true_2 by done.
    destruct (sockets !! client) as [w|] eqn:Hw; simpl; [|by rewrite Hw].
    destruct (readyState w =? OPEN); simpl; [|by rewrite Hw].
    destruct (stringify message) as [data|]; simpl.
    + by rewrite lookup_insert_eq.
    + by rewrite Hw, app_nil_r.
  - rewrite bool_decide_eq_false_2 by done. simpl.
    destruct (sockets !! client) as [w|] eqn:Hw; simpl; [|done].
    destruct (readyState w =? OPEN); simpl; [|done].
    destruct (stringify message) as [data|]; simpl; [|done].
    by rewrite lookup_insert_ne.
Qed.




End ServerFacts.


Section Disconnected.
Import Server.

Variable stringify : ServerMessage → option string.

Lemma step_inbox_disconnected x input socket :
  socket ∉ clients x.1 → input ≠ Connection socket →
  (socket ∉ clients (step stringify x input).1)
  ∧ inbox (step stringify x input).2 socket = inbox x.2 socket.
Proof.
  intros Hs Hi.
  destruct input as [s|s|s|s z|now|events duration|error partial]; simpl.
  - assert (socket ≠ s) as Hne by congruence.
    assert (socket ∉ {[s]} ∪ clients x.1) as Hs'
      by by intros [?%elem_of_singleton|?]%elem_of_union.
    unfold handleConnection. simpl. case_match; simpl.
    + split; [done|]. rewrite sendToClient_inbox.
      by rewrite bool_decide_eq_false_2.
    + by split.
  - split; [|done]. by intros [? _]%elem_of_difference.
  - split; [|done]. by intros [? _]%elem_of_difference.
  - split; [done|]. unfold inbox.
    destruct (decide (socket = s)) as [->|Hne].
    + by rewrite lookup_insert_eq.
    + by rewrite lookup_insert_ne.
  - split; [done|]. rewrite (proj1 (broadcast_inbox _ _ _ _ _)). simpl.
    by rewrite bool_decide_eq_false_2.
  - split; [done|]. rewrite (proj1 (broadcast_inbox _ _ _ _ _)). simpl.
    by rewrite bool_decide_eq_false_2.
  - split; [done|]. rewrite (proj1 (broadcast_inbox _ _ _ _ _)).
    by rewrite bool_decide_eq_false_2.
Qed.

(** X3: once a socket has closed or failed, nothing is sent to it, whatever
    is broadcast and whoever else connects, until it is handed over as a
    connection again. *)
Theorem closed_client_gets_nothing x first inputs socket :
  first = Close socket ∨ first = Error socket →
  Forall (λ i, i ≠ Connection socket) inputs →
  inbox (run stringify (first :: inputs) x).2 socket = inbox x.2 socket.
Proof.
  intros Hfirst Hinputs.
  assert ((socket ∉ clients (step stringify x first).1)
          ∧ inbox (step stringify x first).2 socket = inbox x.2 socket)
    as [Hs <-].
  { destruct Hfirst as [-> | ->]; simpl; (split; [|done]);
      intros [_ H]%elem_of_difference; apply H; by apply elem_of_singleton. }
  unfold run. simpl. generalize dependent (step stringify x first).
  clear Hfirst.
  induction inputs as [|i inputs IH]; intros y Hy; [done|].
  apply Forall_cons in Hinputs as [Hi Hinputs]. simpl.
  destruct (step_inbox_disconnected y i socket Hy Hi) as [Hy' <-].
  by apply IH.
Qed.

End Disconnected.

Lemma closed_client_gets_nothing_witness :
  let stringify (message : Server.ServerMessage) :=
    Some (Server.type message) in
  let x := (Server.mkServer 3000 {[7%nat; 8%nat]} [],
            {[7%nat := Server.mkSocket Server.OPEN [];
              8%nat := Server.mkSocket Server.OPEN []]}) in
  let y := Server.run stringify
             [Server.Close 7%nat; Server.TraceStart 100;
              Server.Connection 9%nat] x in
  Server.inbox y.2 7%nat = [] ∧ length (Server.inbox y.2 8%nat) = 1%nat.
Proof.
  intros stringify x y. split.
  - apply (closed_client_gets_nothing stringify x (Server.Close 7%nat)
             [Server.TraceStart 100; Server.Connection 9%nat] 7%nat);
      [by left|].
    by repeat constructor.
  - vm_compute. reflexivity.
Defined.

Section Delivery.
Import Server.

Variable parse : string → string → string + list Stmt.
Variable replaceWithText : Instrumenter.ReplaceWithText.
Variable execute : string → Executor.ExecutionResult.
Variable stringify : ServerMessage → option string.

(** X4: what a file change brings to a connected, open socket and leaves
    in the server, [trace:start] being a message that can be serialized.
    When the instrumentation fails: one [trace:error] message with an
    empty partial trace, and the trace kept for later connections is still
    that of the run before.  When the run fails: [trace:start], then
    [trace:error] with the trace of the result, and no trace is kept.
    Otherwise: [trace:start], then [trace:complete] with the trace, its
    length and the duration, and that trace is kept.  In each case the
    last message is sent only if it can be serialized: if not, the handler
    raises instead, with the server as the call has left it. *)
Theorem file_change_reaches_the_clients filePath content now x s startData :
  s ∈ clients x.1 → isOpen x.2 s = true →
  let start := mkMessage "trace:start" (Some now) None None None None None in
  stringify start = Some startData →
  let r := Instrumenter.instrument parse replaceWithText content
             (Instrumenter.mkOptions (Some filePath)) in
  let e := execute (Instrumenter.code r) in
  let z := handle stringify now x
             (Cli.fileChanged parse replaceWithText execute filePath
                content) in
  clients z.1.1 = clients x.1
  ∧ (Instrumenter.success r = false →
     let failure :=
       mkMessage "trace:error" None None None None
         (Some (Cli.orElse (Instrumenter.error r) "Instrumentation failed"))
         (Some []) in
     currentTrace z.1.1 = currentTrace x.1
     ∧ inbox z.1.2 s = (inbox x.2 s ++ payloads stringify [failure])%list
     ∧ z.2 = bool_decide (stringify failure = None))
  ∧ (Instrumenter.success r = true → Executor.success e = false →
     let failure :=
       mkMessage "trace:error" None None None None
         (Some (Cli.orElse (Executor.message <$> Executor.error e)
                  "Execution failed"))
         (Some (Executor.trace e)) in
     currentTrace z.1.1 = []
     ∧ inbox z.1.2 s
       = (inbox x.2 s ++ startData :: payloads stringify [failure])%list
     ∧ z.2 = bool_decide (stringify failure = None))
  ∧ (Instrumenter.success r = true → Executor.success e = true →
     let complete :=
       mkMessage "trace:complete" None None (Some (Executor.trace e))
         (Some (mkSummary (length (Executor.trace e))
                  (Executor.duration e)))
         None None in
     currentTrace z.1.1 = Executor.trace e
     ∧ inbox z.1.2 s
       = (inbox x.2 s ++ startData :: payloads stringify [complete])%list
     ∧ z.2 = bool_decide (stringify complete = None)).
Proof.
  intros Hs Ho start Hstart r e z. unfold z, Cli.fileChanged. fold r. fold e.
  destruct x as [this sockets]. simpl in Hs, Ho.
  assert (inbox (deliver (clients this) startData sockets) s
          = (inbox sockets s ++ [startData])%list) as Hsent1.
  { rewrite (proj1 (deliver_inbox _ _ _ _)).
    by rewrite bool_decide_eq_true_2, Ho by done. }
  assert (∀ data,
            inbox (deliver (clients this) data
                     (deliver (clients this) startData sockets)) s
            = (inbox sockets s ++ [startData; data])%list) as Hsent2.
  { intros data.
    rewrite (proj1 (deliver_inbox _ _ _ _)), (proj2 (deliver_inbox _ _ _ _)).
    rewrite Hsent1, bool_decide_eq_true_2, Ho by done. simpl.
    by rewrite <- app_assoc. }
  destruct (Instrumenter.success r);
    [destruct (Executor.success e)|];
    cbn [negb handle perform fst snd broadcastTraceStart broadcastTrace
         broadcastError clients currentTrace port default];
    unfold broadcast; fold start; rewrite ?Hstart;
    cbn [mbind option_bind handle perform fst snd broadcastTraceStart
         broadcastTrace broadcastError clients currentTrace port];
    unfold broadcast; cbn [payloads clients].
  - destruct (stringify (mkMessage "trace:complete" _ _ _ _ _ _))
      as [data|] eqn:Hdata; cbn [mbind option_bind fst snd clients
                                 currentTrace handle].
    + split; [done|]. split; [done|]. split; [done|]. intros _ _.
      split; [done|]. split; [apply Hsent2|].
      by rewrite bool_decide_eq_false_2.
    + split; [done|]. split; [done|]. split; [done|]. intros _ _.
      split; [done|]. split; [apply Hsent1|].
      by rewrite bool_decide_eq_true_2.
  - destruct (stringify (mkMessage "trace:error" _ _ _ _ _ _))
      as [data|] eqn:Hdata; cbn [mbind option_bind fst snd clients
                                 currentTrace handle].
    + split; [done|]. split; [done|]. split; [|done]. intros _ _.
      split; [done|]. split; [apply Hsent2|].
      by rewrite bool_decide_eq_false_2.
    + split; [done|]. split; [done|]. split; [|done]. intros _ _.
      split; [done|]. split; [apply Hsent1|].
      by rewrite bool_decide_eq_true_2.
  - destruct (stringify (mkMessage "trace:error" _ _ _ _ _ _))
      as [data|] eqn:Hdata; cbn [mbind option_bind fst snd clients
                                 currentTrace handle].
    + split; [done|]. split; [|done]. intros _. split; [done|].
      rewrite (proj1 (deliver_inbox _ _ _ _)).
      rewrite bool_decide_eq_true_2, Ho by done.
      split; [done|]. by rewrite bool_decide_eq_false_2.
    + split; [done|]. split; [|done]. intros _. split; [done|].
      rewrite app_nil_r. split; [done|]. by rewrite bool_decide_eq_true_2.
Qed.

End Delivery.

Lemma file_change_reaches_the_clients_witness :
  let clock (k : nat) := Z.of_nat k in
  let tree := default [] (frontEnd "sort.ts" Spec.selfSource) in
  let run (code : string) :=
    Executor.execute clock 10 code (Executor.mkOptions None) in
  let execute (code : string) :=
    default (Executor.mkResult false [] 0 None) (fst <$> run code) in
  let h := default ∅ (snd <$> (Spec.instrumented Spec.selfSource ≫= run)) in
  let x := (Server.mkServer 3000 {[7%nat]} [],
            {[7%nat := Server.mkSocket Server.OPEN []]}) in
  let z := Server.handle (Spec.serialize h) 100 x
             (Cli.fileChanged (λ _ _, inr tree)
                (Instrumenter.tsMorph EmptyString) execute "sort.ts"
                Spec.selfSource) in
  frontEnd "sort.ts" Spec.selfSource = Some tree
  ∧ Instrumenter.known (Instrumenter.mkSourceFile Spec.selfSource tree) = true
  ∧ length (Server.currentTrace z.1.1) = 2%nat
  ∧ Server.inbox z.1.2 7%nat = ["trace:start"]
  ∧ z.2 = true.
Proof.
  intros clock tree run execute h x z.
  split; [vm_compute; reflexivity|]. split; [vm_compute; reflexivity|].
  destruct (proj2 (proj2 (proj2
              (file_change_reaches_the_clients (λ _ _, inr tree)
                 (Instrumenter.tsMorph EmptyString) execute
                 (Spec.serialize h) "sort.ts" Spec.selfSource 100 x 7%nat
                 "trace:start"
                 ltac:(vm_compute; reflexivity) ltac:(vm_compute; reflexivity)
                 ltac:(vm_compute; reflexivity))))
              ltac:(vm_compute; reflexivity) ltac:(vm_compute; reflexivity))
    as (Htrace & Hinbox & Hraised).
  split; [|split].
  - fold z in Htrace. rewrite Htrace. vm_compute. reflexivity.
  - fold z in Hinbox. rewrite Hinbox. vm_compute. reflexivity.
  - fold z in Hraised. rewrite Hraised. vm_compute. reflexivity.
Defined.

Section VisualizerFacts.
Import Visualizer.

Lemma mostRecent_spec events i :
  mostRecent events i
  = from_option snapshot []
      (last (filter (λ e, isSnapshot e = true) (take (S i) events))).
Proof.
  induction i as [|i IH].
  - destruct events as [|e events]; [done|].
    change (mostRecent (e :: events) 0)
      with (if isSnapshot e then snapshot e else []).
    change (take 1 (e :: events)) with [e].
    rewrite filter_cons, filter_nil.
    destruct (isSnapshot e) eqn:He.
    + by rewrite decide_True.
    + by rewrite decide_False.
  - cbn [mostRecent]. rewrite IH.
    destruct (events !! S i) as [e|] eqn:He.
    + rewrite (take_S_r _ _ _ He), filter_app, filter_cons, filter_nil.
      destruct (isSnapshot e) eqn:Hs.
      * rewrite decide_True by done. by rewrite last_snoc.
      * rewrite decide_False by done. by rewrite app_nil_r.
    + apply lookup_ge_None in He.
      by rewrite !take_ge by lia.
Qed.

(** X5: the array that [ArrayBars] draws at step [currentIndex] is the
    value of the latest [variable:declare] or [variable:assign] event with
    an array value among the events up to and including that step, and it
    is empty when there is none; an [array:write] event never changes it.
    An index past the end draws what the last step draws. *)
Theorem bars_show_the_latest_snapshot events currentIndex :
  getArrayFromEvents events currentIndex
  = from_option snapshot []
      (last (filter (λ e, isSnapshot e = true)
               (take (S currentIndex) events)))
  ∧ ((length events ≤ S currentIndex)%nat →
     getArrayFromEvents events currentIndex
     = getArrayFromEvents events (length events - 1)).
Proof.
  assert (∀ i, getArrayFromEvents events i
               = from_option snapshot []
                   (last (filter (λ e, isSnapshot e = true)
                            (take (S i) events)))) as H.
  { intros i. unfold getArrayFromEvents.
    destruct events as [|e events]; [done|]. apply mostRecent_spec. }
  split; [apply H|]. intros Hlen. rewrite !H.
  by rewrite !take_ge by lia.
Qed.

Lemma bars_show_the_latest_snapshot_witness :
  let declare :=
    mkEvent 0 1 "variable:declare"
      {["name" := Engine.JString "a";
        "value" := Engine.JArray [Engine.JNumber 2; Engine.JNumber 1]]} in
  let write :=
    mkEvent 1 2 "array:write"
      {["name" := Engine.JString "a"; "index" := Engine.JNumber 0;
        "value" := Engine.JNumber 1]} in
  getArrayFromEvents [declare; write] 5
  = getArrayFromEvents [declare; write] 1
  ∧ getArrayFromEvents [declare; write] 1
    = [Engine.JNumber 2; Engine.JNumber 1].
Proof.
  intros declare write. split.
  - apply (proj2 (bars_show_the_latest_snapshot [declare; write] 5)).
    simpl. lia.
  - vm_compute. reflexivity.
Defined.

Lemma isNumber_inj i j v : isNumber i v = true → isNumber j v = true → i = j.
Proof. destruct v; simpl; try done. lia. Qed.

(** X6: an event that is not a [compare] event highlights at most one
    bar, and only an [array:write] event highlights any: the bar of the
    number in its [index]. *)
Theorem highlight_is_the_written_index event i :
  type event ≠ "compare" →
  ∃ active,
    isIndexActive (Some event) i = Some active
    ∧ (active = true ↔
       type event = "array:write"
       ∧ data event !! "index" = Some (Engine.JNumber (Z.of_nat i)))
    ∧ ∀ j, active = true → isIndexActive (Some event) j = Some true → i = j.
Proof.
  intros Hcompare. unfold isIndexActive.
  assert (String.eqb (type event) "compare" = false) as ->
    by by apply String.eqb_neq.
  simpl.
  destruct (String.eqb (type event) "array:write") eqn:Hwrite; simpl.
  - apply String.eqb_eq in Hwrite.
    destruct (data event !! "index") as [v|] eqn:Hv; simpl.
    + destruct (isNumber i v) eqn:Hi.
      * exists true. split; [done|]. split.
        -- split; [intros _|done]. split; [done|].
           destruct v; simpl in Hi; try done.
           f_equal. f_equal. lia.
        -- intros j _. destruct (isNumber j v) eqn:Hj; [|done].
           intros _. by apply (isNumber_inj i j v).
      * exists false. split; [done|]. split; [|done].
        split; [done|]. intros [_ [= ->]]. simpl in Hi. lia.
    + exists false. split; [done|]. split; [|done].
      split; [done|]. by intros [_ ?].
  - exists false. split; [done|]. split; [|done].
    split; [done|]. intros [H _]. apply String.eqb_neq in Hwrite. done.
Qed.

Lemma highlight_is_the_written_index_witness :
  isIndexActive
    (Some (mkEvent 1 2 "array:write"
             {["name" := Engine.JString "a"; "index" := Engine.JNumber 3;
               "value" := Engine.JNumber 1]})) 3 = Some true.
Proof.
  destruct (highlight_is_the_written_index
              (mkEvent 1 2 "array:write"
                 {["name" := Engine.JString "a"; "index" := Engine.JNumber 3;
                   "value" := Engine.JNumber 1]}) 3 ltac:(done))
    as (active & -> & Hactive & _).
  f_equal. apply Hactive. split; reflexivity.
Defined.

Lemma ticks_of_the_play_interval h i total n :
  intervals h !! i = Some total → playIntervalRef h = Some i →
  let k := (total - 1 - currentEventIndex h)%nat in
  let h' := Nat.iter n (tick i) h in
  events h' = events h
  ∧ currentEventIndex h' = (currentEventIndex h + Nat.min n k)%nat
  ∧ isPlaying h' = (if (n <=? k)%nat then isPlaying h else false)
  ∧ playIntervalRef h' = Some i
  ∧ intervals h' !! i = if (n <=? k)%nat then Some total else None.
Proof.
  intros Hi Href k.
  assert (k = (total - 1 - currentEventIndex h)%nat) as Hk by done.
  clearbody k. cbv zeta. induction n as [|n IH].
  - simpl. by rewrite Nat.add_0_r.
  - change (Nat.iter (S n) (tick i) h) with (tick i (Nat.iter n (tick i) h)).
    destruct IH as (Hevents & Hindex & Hplaying & Href' & Hi').
    set (h' := Nat.iter n (tick i) h) in *. unfold tick. rewrite Hi'.
    destruct (Nat.leb_spec n k) as [Hn|Hn];
      destruct (Nat.leb_spec (S n) k) as [Hn'|Hn']; try lia.
    + destruct (Z.leb_spec (Z.of_nat total - 1)
                  (Z.of_nat (currentEventIndex h'))); [lia|].
      cbn [events currentEventIndex isPlaying playIntervalRef intervals].
      rewrite Hevents, Hindex, Hplaying, Hi'.
      destruct (Nat.leb_spec n k); [|lia].
      repeat split; try done; lia.
    + destruct (Z.leb_spec (Z.of_nat total - 1)
                  (Z.of_nat (currentEventIndex h'))); [|lia].
      cbn [events currentEventIndex isPlaying playIntervalRef intervals].
      unfold clearPlayInterval.
      rewrite Href', lookup_delete_eq, Hevents, Hindex.
      repeat split; try done; lia.
    + rewrite Hevents, Hindex, Hplaying, Href', Hi'.
      destruct (Nat.leb_spec n k); [lia|].
      repeat split; try done; lia.
Qed.

(** X7: playback.  After [play], the ticks of its interval move the
    current step forward one event at a time up to the last event of the
    trace that was on the page when [play] was called, and never past it;
    the tick after that stops the playback and clears the interval.  The
    Play button is disabled exactly when a tick would not move the step. *)
Theorem playback_stops_at_the_last_event h n :
  let total := length (events h) in
  let left := (total - 1 - currentEventIndex h)%nat in
  let h' := Nat.iter n (tick (nextInterval h)) (play h) in
  events h' = events h
  ∧ currentEventIndex h' = (currentEventIndex h + Nat.min n left)%nat
  ∧ isPlaying h' = (n <=? left)%nat
  ∧ (playDisabled (currentEventIndex h) total = true ↔ left = 0%nat).
Proof.
  intros total left h'.
  destruct (ticks_of_the_play_interval (play h) (nextInterval h) total n)
    as (Hevents & Hindex & Hplaying & _); [apply lookup_insert_eq|done|].
  simpl in *. fold left in Hindex, Hplaying. fold h' in Hevents, Hindex, Hplaying.
  repeat split; try done.
  - rewrite Hplaying. by destruct (n <=? left)%nat.
  - unfold playDisabled. intros [H%Nat.eqb_eq|H%Z.leb_le]%orb_true_iff;
      unfold left, total in *; lia.
  - intros H. unfold playDisabled. apply orb_true_iff.
    destruct (decide (total = 0%nat)) as [->|]; [by left|right].
    apply Z.leb_le. unfold left in H. lia.
Qed.

(** X8: a message that arrives during playback replaces the events and
    sets the step back, but the interval goes on with the length of the
    trace it started with: the step then runs up to the last index of the
    old trace, whatever the length of the new one. *)
Theorem playback_keeps_the_length_it_started_with h message n :
  messageType message = "trace:complete" →
  let h' :=
    Nat.iter n (tick (nextInterval h)) (onmessage message (play h)) in
  events h' = default [] (messageEvents message)
  ∧ currentEventIndex h' = Nat.min n (length (events h) - 1)
  ∧ isPlaying h' = (n <=? length (events h) - 1)%nat.
Proof.
  intros Htype h'.
  destruct (ticks_of_the_play_interval (onmessage message (play h))
              (nextInterval h) (length (events h)) n)
    as (Hevents & Hindex & Hplaying & _).
  - unfold onmessage. rewrite Htype. simpl. apply lookup_insert_eq.
  - unfold onmessage. by rewrite Htype.
  - fold h' in Hevents, Hindex, Hplaying.
    unfold onmessage in Hevents, Hindex, Hplaying.
    rewrite Htype in Hevents, Hindex, Hplaying. simpl in *.
    rewrite Nat.sub_0_r in Hindex, Hplaying.
    repeat split; try done.
    rewrite Hplaying. by destruct (n <=? _)%nat.
Qed.

Lemma playback_keeps_the_length_it_started_with_witness :
  let e k := mkEvent k 0 "array:write" ∅ in
  let h := mkHook true [e 0; e 1; e 2; e 3] None false 0 None ∅ 0 in
  let message :=
    mkMessage "trace:complete" None None (Some [e 0]) None None None in
  let h' := Nat.iter 3 (tick 0) (onmessage message (play h)) in
  length (events h') = 1%nat ∧ currentEventIndex h' = 3%nat.
Proof.
  intros e h message h'.
  destruct (playback_keeps_the_length_it_started_with h message 3 eq_refl)
    as (Hevents & Hindex & _).
  split; [exact (f_equal length Hevents)|exact Hindex].
Defined.

End VisualizerFacts.

Section WatcherFacts.
Import Watcher.

Implicit Types (this : FileWatcher) (host : Host).

Lemma run_app inputs1 inputs2 x :
  run (inputs1 ++ inputs2) x
  = match run inputs1 x with
    | Some (y, outs1) =>
        match run inputs2 y with
        | Some (z, outs2) => Some (z, (outs1 ++ outs2)%list)
        | None => None
        end
    | None => None
    end.
Proof.
  revert x. induction inputs1 as [|i inputs1 IH]; intros x; simpl.
  - by destruct (run inputs2 x) as [[z outs]|].
  - destruct (step x i) as [[y out]|]; [|done]. rewrite IH.
    destruct (run inputs1 y) as [[y' outs1]|]; [|done].
    destruct (run inputs2 y') as [[z outs2]|]; [|done].
    by rewrite app_assoc.
Qed.

Lemma clearTimers_fold (m : gmap string Timeout) host :
  let host' := map_fold (λ _ timer host, clearTimeout host timer) host m in
  (now host' = now host ∧ nextTimeout host' = nextTimeout host
   ∧ watchers host' = watchers host ∧ nextWatcher host' = nextWatcher host
   ∧ reads host' = reads host ∧ closing host' = closing host)
  ∧ (∀ t p, m !! p = Some t → timers host' !! t = None)
  ∧ (∀ t, timers host' !! t = None ∨ timers host' !! t = timers host !! t).
Proof.
  cbv zeta. revert m.
  apply (map_fold_weak_ind
    (λ host' (m : gmap string Timeout),
      (now host' = now host ∧ nextTimeout host' = nextTimeout host
       ∧ watchers host' = watchers host ∧ nextWatcher host' = nextWatcher host
       ∧ reads host' = reads host ∧ closing host' = closing host)
      ∧ (∀ t p, m !! p = Some t → timers host' !! t = None)
      ∧ (∀ t, timers host' !! t = None
              ∨ timers host' !! t = timers host !! t))).
  - split; [done|]. split; [|by right]. intros t p H.
    by rewrite lookup_empty in H.
  - intros p t m r Hp (Hfields & Hin & Hout). split; [done|]. split.
    + intros t' p' H. simpl.
      destruct (decide (t' = t)) as [->|Hne]; [apply lookup_delete_eq|].
      rewrite lookup_delete_ne by done.
      destruct (decide (p' = p)) as [->|Hp'].
      * rewrite lookup_insert_eq in H. congruence.
      * rewrite lookup_insert_ne in H by done. by apply (Hin t' p').
    + intros t'. simpl.
      destruct (decide (t' = t)) as [->|Hne]; [left; apply lookup_delete_eq|].
      rewrite lookup_delete_ne by done. apply Hout.
Qed.

Lemma clearTimers_coherent this host :
  coherent (this, host) →
  clearTimers this host
  = (mkWatcher (watcher this) (debounceMs this) ∅,
     mkHost (now host) ∅ (nextTimeout host) (watchers host) (nextWatcher host)
       (reads host) (closing host)).
Proof.
  intros [Hc _]. unfold clearTimers. f_equal.
  destruct (clearTimers_fold (debounceTimers this) host)
    as ((H1 & H2 & H3 & H4 & H5 & H6) & Hin & Hout).
  destruct (map_fold _ host (debounceTimers this))
    as [n ts nt ws nw rs cs] eqn:Hfold.
  simpl in *. subst. f_equal. apply map_eq. intros t.
  rewrite lookup_empty. destruct (Hout t) as [H|H]; [done|].
  destruct (timers host !! t) as [[due p]|] eqn:Ht; [|done].
  apply (Hin t p). apply Hc. by exists due.
Qed.

Lemma coherent_empty this host :
  coherent (mkWatcher (watcher this) (debounceMs this) ∅,
            mkHost (now host) ∅ (nextTimeout host) (watchers host)
              (nextWatcher host) (reads host) (closing host)).
Proof.
  split; simpl.
  - intros p t. rewrite lookup_empty. split; [done|].
    intros [due H]. by rewrite lookup_empty in H.
  - intros t [? H]. by rewrite lookup_empty in H.
Qed.

Lemma handleFileChange_coherent this host p :
  coherent (this, host) → coherent (handleFileChange this host p).
Proof.
  intros [Hc Hfresh]. simpl in *. unfold handleFileChange.
  set (host1 := match debounceTimers this !! p with
                | Some existingTimer => clearTimeout host existingTimer
                | None => host
                end).
  assert (nextTimeout host1 = nextTimeout host) as Hnext
    by (unfold host1; by case_match).
  assert (∀ t, timers host1 !! t
               = if bool_decide (debounceTimers this !! p = Some t)
                 then None else timers host !! t) as Htimers.
  { intros t. unfold host1.
    destruct (debounceTimers this !! p) as [t0|] eqn:Hp;
      unfold clearTimeout; cbn [timers].
    - destruct (decide (t = t0)) as [->|Hne].
      + by rewrite bool_decide_eq_true_2, lookup_delete_eq.
      + rewrite bool_decide_eq_false_2 by congruence.
        by rewrite lookup_delete_ne.
    - by rewrite bool_decide_eq_false_2. }
  simpl. rewrite Hnext. split; simpl.
  - intros q t. destruct (decide (q = p)) as [->|Hq].
    + rewrite lookup_insert_eq. split.
      * intros [= <-]. eexists. apply lookup_insert_eq.
      * intros [due H]. destruct (decide (t = nextTimeout host)) as [->|Hne];
          [done|].
        rewrite lookup_insert_ne, Htimers in H by done.
        case_bool_decide as Hp; [done|]. destruct Hp. apply Hc. by exists due.
    + rewrite lookup_insert_ne by done. split.
      * intros H. destruct (proj1 (Hc q t) H) as [due Ht]. exists due.
        assert (t ≠ nextTimeout host) as Hne.
        { assert (t < nextTimeout host)%nat
            by (apply Hfresh; by eexists). lia. }
        rewrite lookup_insert_ne, Htimers by done.
        rewrite bool_decide_eq_false_2; [done|].
        intros Hp. assert (p = q); [|done].
        destruct (proj1 (Hc p t) Hp) as [due' Ht']. congruence.
      * intros [due H]. destruct (decide (t = nextTimeout host)) as [->|Hne].
        -- rewrite lookup_insert_eq in H. congruence.
        -- rewrite lookup_insert_ne, Htimers in H by done.
           case_bool_decide; [done|]. apply Hc. by exists due.
  - intros t [x H]. destruct (decide (t = nextTimeout host)) as [->|Hne]; [lia|].
    rewrite lookup_insert_ne, Htimers in H by done.
    case_bool_decide; [done|].
    specialize (Hfresh t ltac:(by eexists)). lia.
Qed.

Lemma onTimeout_coherent this host t due p :
  coherent (this, host) → timers host !! t = Some (due, p) →
  coherent (onTimeout this (clearTimeout host t) p).
Proof.
  intros [Hc Hfresh] Ht. simpl in *. split; simpl.
  - intros q t'. split.
    + intros H. apply lookup_delete_Some in H as [Hq H].
      destruct (proj1 (Hc q t') H) as [due' Ht']. exists due'.
      rewrite lookup_delete_ne; [done|]. intros ->. congruence.
    + intros [due' H]. apply lookup_delete_Some in H as [Hne H].
      apply lookup_delete_Some. split.
      * intros ->. destruct Hne.
        assert (debounceTimers this !! q = Some t) as H1
          by (apply Hc; by exists due).
        assert (debounceTimers this !! q = Some t') as H2
          by (apply Hc; by exists due').
        congruence.
      * apply Hc. by exists due'.
  - intros t' [x H]. apply lookup_delete_Some in H as [_ H].
    apply Hfresh. by eexists.
Qed.

Lemma step_coherent x input y out :
  coherent x → step x input = Some (y, out) → coherent y.
Proof.
  intros Hx Hstep. destruct x as [this host].
  destruct input as [pattern| |k|w p|w p|w error|t|k result listeners|ms];
    simpl in Hstep.
  - unfold watch in Hstep. destruct (watcher this); simplify_eq; done.
  - injection Hstep as <- _. unfold stop. destruct (watcher this); [done|].
    rewrite clearTimers_coherent by done. apply coherent_empty.
  - destruct (closing host !! k) as [w|]; [|done]. injection Hstep as <- _.
    unfold stopped. rewrite clearTimers_coherent by done.
    apply (coherent_empty (mkWatcher None (debounceMs this) ∅)).
  - case_bool_decide; [|done]. injection Hstep as <- _.
    by apply handleFileChange_coherent.
  - case_bool_decide; [|done]. injection Hstep as <- _.
    by apply handleFileChange_coherent.
  - case_bool_decide; [|done]. by injection Hstep as <- _.
  - destruct (timers host !! t) as [[due p]|] eqn:Ht; [|done].
    case_match; [|done]. injection Hstep as <- _.
    by apply (onTimeout_coherent this host t due p).
  - destruct (reads host !! k); [|done]. by injection Hstep as <- _.
  - case_match; [|done]. by injection Hstep as <- _.
Qed.

Lemma run_coherent inputs x y outs :
  coherent x → run inputs x = Some (y, outs) → coherent y.
Proof.
  revert x outs. induction inputs as [|i inputs IH]; intros x outs Hx Hrun.
  - by injection Hrun as <- _.
  - simpl in Hrun. destruct (step x i) as [[x' out]|] eqn:Hstep; [|done].
    destruct (run inputs x') as [[z outs']|] eqn:Hrest; [|done].
    injection Hrun as <- _.
    eapply IH; [|done]. by eapply step_coherent.
Qed.

Lemma initial_coherent options : coherent (constructor options, idle).
Proof. apply (coherent_empty (constructor options) idle). Qed.

(** X9: at any moment the pending timers are exactly those that
    [debounceTimers] holds, each for its own file: a file never has two
    timers pending, and no timer is pending that [stop] would not clear. *)
Theorem one_timer_per_file options inputs this host outputs :
  run inputs (constructor options, idle) = Some (this, host, outputs) →
  (∀ p t, debounceTimers this !! p = Some t
          ↔ ∃ due, timers host !! t = Some (due, p))
  ∧ ∀ p t t' due due',
      timers host !! t = Some (due, p) → timers host !! t' = Some (due', p) →
      t = t'.
Proof.
  intros Hrun.
  destruct (run_coherent _ _ _ _ (initial_coherent options) Hrun) as [Hc _].
  split; [exact Hc|]. simpl in Hc. intros p t t' due due' Ht Ht'.
  assert (debounceTimers this !! p = Some t) by (apply Hc; by exists due).
  assert (debounceTimers this !! p = Some t') by (apply Hc; by exists due').
  congruence.
Qed.

Lemma one_timer_per_file_witness :
  ∃ this host outputs,
    run [Watch "sort.ts"; Add 0%nat "sort.ts"; Elapse 100;
         Change 0%nat "sort.ts"]
      (constructor (mkOptions None), idle) = Some (this, host, outputs)
    ∧ ∀ t due, timers host !! t = Some (due, "sort.ts") → t = 1%nat.
Proof.
  eexists _, _, _. split; [vm_compute; reflexivity|]. intros t due Ht.
  eapply (proj2 (one_timer_per_file (mkOptions None)
                   [Watch "sort.ts"; Add 0%nat "sort.ts"; Elapse 100;
                    Change 0%nat "sort.ts"] _ _ _
                   ltac:(vm_compute; reflexivity))
            "sort.ts" t 1%nat due 400 Ht).
  vm_compute. reflexivity.
Defined.

Lemma step_debounceMs x input y out :
  step x input = Some (y, out) → debounceMs y.1 = debounceMs x.1.
Proof.
  destruct x as [this host].
  destruct input; simpl; intros H; repeat case_match; simplify_eq; try done.
  - unfold watch in *. by case_match; simplify_eq.
  - unfold stop. by case_match.
Qed.

Lemma handleFileChange_timers this host q t due p :
  timers (handleFileChange this host q).2 !! t = Some (due, p) →
  (due = now host + delay (debounceMs this) ∧ p = q)
  ∨ (timers host !! t = Some (due, p) ∧ debounceTimers this !! q ≠ Some t).
Proof.
  unfold handleFileChange.
  destruct (debounceTimers this !! q) as [t0|]; simpl.
  - destruct (decide (t = nextTimeout host)) as [->|Hne].
    + rewrite lookup_insert_eq. intros [= <- <-]. by left.
    + rewrite lookup_insert_ne by done.
      intros [Ht0 Hold]%lookup_delete_Some. right. split; [done|congruence].
  - destruct (decide (t = nextTimeout host)) as [->|Hne].
    + rewrite lookup_insert_eq. intros [= <- <-]. by left.
    + rewrite lookup_insert_ne by done. by right.
Qed.

Lemma handleFileChange_now this host q :
  now (handleFileChange this host q).2 = now host.
Proof. unfold handleFileChange. simpl. by case_match. Qed.

Section Debounce.

Variables (p : string) (start wait : Z).

Lemma step_since e x input y out :
  since p start wait e x → step x input = Some (y, out) →
  since p start wait (e + elapsed [input]) y.
Proof.
  intros (Hc & Hwait & He & Hnow & Hdue) Hstep.
  assert (coherent y) as Hy by by eapply step_coherent.
  assert (delay (debounceMs y.1) = wait) as Hwait'
    by by rewrite (step_debounceMs _ _ _ _ Hstep).
  split; [done|]. split; [done|]. clear Hy Hwait'.
  destruct x as [this host]. simpl in *.
  destruct input as [pattern| |k|w q|w q|w error|t|k result listeners|ms];
    simpl in Hstep; rewrite ?Z.add_0_r.
  - unfold watch in Hstep. destruct (watcher this); simplify_eq; done.
  - injection Hstep as <- _. unfold stop. destruct (watcher this); [done|].
    rewrite clearTimers_coherent by done. simpl.
    repeat split; try done; intros t due H; by rewrite lookup_empty in H.
  - destruct (closing host !! k) as [w|]; [|done]. injection Hstep as <- _.
    unfold stopped. rewrite clearTimers_coherent by done. simpl.
    repeat split; try done; intros t due H; by rewrite lookup_empty in H.
  - case_bool_decide; [|done]. injection Hstep as <- _.
    rewrite handleFileChange_now. repeat split; try done.
    intros t due [[-> _]|[Hold _]]%handleFileChange_timers;
      [lia|by eapply Hdue].
  - case_bool_decide; [|done]. injection Hstep as <- _.
    rewrite handleFileChange_now. repeat split; try done.
    intros t due [[-> _]|[Hold _]]%handleFileChange_timers;
      [lia|by eapply Hdue].
  - case_bool_decide; [|done]. by injection Hstep as <- _.
  - destruct (timers host !! t) as [[due q]|] eqn:Ht; [|done].
    case_match; [|done]. injection Hstep as <- _. simpl.
    repeat split; try done.
    intros t' due' [_ Hold]%lookup_delete_Some. by eapply Hdue.
  - destruct (reads host !! k); [|done]. by injection Hstep as <- _.
  - case_match eqn:Hms; [|done]. apply Z.leb_le in Hms.
    injection Hstep as <- _. simpl. repeat split; try done; lia.
Qed.

Lemma run_since inputs e x y outs :
  since p start wait e x → run inputs x = Some (y, outs) →
  since p start wait (e + elapsed inputs) y.
Proof.
  revert e x outs. induction inputs as [|i inputs IH]; intros e x outs Hx Hrun.
  - injection Hrun as <- _. simpl. by rewrite Z.add_0_r.
  - simpl in Hrun. destruct (step x i) as [[x' out]|] eqn:Hstep; [|done].
    destruct (run inputs x') as [[z outs']|] eqn:Hrest; [|done].
    injection Hrun as <- _.
    replace (e + elapsed (i :: inputs))
      with ((e + elapsed [i]) + elapsed inputs)
      by (simpl; destruct i; lia).
    eapply IH; [|done]. by eapply step_since.
Qed.

End Debounce.

(** X10: debouncing.  When the timer of a file fires and its read starts,
    at least the debounce delay has passed since every earlier change of
    that file. *)
Theorem read_waits_for_the_debounce_delay
    options pre c post this host outs t due p y out :
  run (pre ++ c :: post) (constructor options, idle) = Some (this, host, outs) →
  changes p c = true →
  timers host !! t = Some (due, p) →
  step (this, host) (TimerFires t) = Some (y, out) →
  delay (debounceMs this) ≤ elapsed post
  ∧ reads y.2 = (reads host ++ [p])%list.
Proof.
  intros Hrun Hc Ht Hstep. rewrite run_app in Hrun.
  destruct (run pre (constructor options, idle)) as [[x0 outs0]|] eqn:Hpre;
    [|done].
  cbn [run] in Hrun.
  destruct (step x0 c) as [[x1 out1]|] eqn:Hchange; [|done].
  destruct (run post x1) as [[z outs1]|] eqn:Hpost; [|done].
  injection Hrun as -> _.
  assert (coherent x0) as Hx0
    by exact (run_coherent _ _ _ _ (initial_coherent options) Hpre).
  assert (since p (now x0.2) (delay (debounceMs x0.1)) 0 x1) as Hsince.
  { destruct x0 as [this0 host0].
    assert (x1 = handleFileChange this0 host0 p) as ->.
    { destruct c; simpl in Hc; try done; simpl in Hchange;
        apply String.eqb_eq in Hc as ->;
        case_bool_decide; by simplify_eq. }
    split; [by apply handleFileChange_coherent|].
    split; [by unfold handleFileChange; case_match|].
    split; [done|]. rewrite handleFileChange_now. split; [simpl; lia|].
    intros t' due'. simpl.
    intros [[-> _]|[H Hnot]]%handleFileChange_timers; [done|].
    destruct Hnot. apply Hx0. by exists due'. }
  destruct (run_since p _ _ post 0 x1 (this, host) outs1 Hsince Hpost)
    as (_ & Hwait & _ & Hnow & Hdue).
  simpl in *. rewrite Ht in Hstep.
  destruct (due <=? now host) eqn:Hfires; [|done].
  apply Z.leb_le in Hfires. injection Hstep as <- _. simpl.
  split; [|done]. specialize (Hdue t due Ht). lia.
Qed.

Lemma read_waits_for_the_debounce_delay_witness :
  ∃ y out,
    step (mkWatcher (Some 0%nat) 300 {["sort.ts" := 1%nat]},
          mkHost 400 {[1%nat := (400, "sort.ts")]} 2%nat {[0%nat]} 1%nat [] [])
      (TimerFires 1%nat) = Some (y, out)
    ∧ delay 300 ≤ elapsed [Elapse 300]
    ∧ reads y.2 = ["sort.ts"].
Proof.
  eexists _, _. split; [vm_compute; reflexivity|].
  apply (read_waits_for_the_debounce_delay (mkOptions None)
           [Watch "sort.ts"; Add 0%nat "sort.ts"; Elapse 100]
           (Change 0%nat "sort.ts") [Elapse 300]
           (mkWatcher (Some 0%nat) 300 {["sort.ts" := 1%nat]})
           (mkHost 400 {[1%nat := (400, "sort.ts")]} 2%nat {[0%nat]} 1%nat
              [] [])
           [] 1%nat 400 "sort.ts" _ []);
    vm_compute; reflexivity.
Defined.

(** X11: when [stop] has run to its end (at once when no watcher is
    running, otherwise when [close()] has resolved), no timer is pending
    and [debounceTimers] is empty: no read starts until a file changes
    again.  The reads that are under way are not cancelled (they will still
    emit), and nothing is emitted by [stop] itself. *)
Theorem stop_clears_every_timer options inputs this host outputs input y out :
  run inputs (constructor options, idle) = Some (this, host, outputs) →
  (input = Stop ∧ watcher this = None) ∨ (∃ k, input = Closed k) →
  step (this, host) input = Some (y, out) →
  timers y.2 = ∅ ∧ debounceTimers y.1 = ∅ ∧ watcher y.1 = None
  ∧ reads y.2 = reads host ∧ out = [].
Proof.
  intros Hrun Hinput Hstep.
  assert (coherent (this, host)) as Hc
    by exact (run_coherent _ _ _ _ (initial_coherent options) Hrun).
  destruct Hinput as [[-> Hw]|[k ->]]; simpl in Hstep.
  - injection Hstep as <- <-. unfold stop. rewrite Hw.
    rewrite clearTimers_coherent by done. by rewrite Hw.
  - destruct (closing host !! k) as [w|]; [|done].
    injection Hstep as <- <-. unfold stopped.
    by rewrite clearTimers_coherent.
Qed.

Lemma stop_clears_every_timer_witness :
  ∃ this host outputs y out,
    run [Watch "sort.ts"; Add 0%nat "sort.ts"; Elapse 300;
         TimerFires 0%nat; Change 0%nat "sort.ts"; Stop]
      (constructor (mkOptions None), idle) = Some (this, host, outputs)
    ∧ size (timers host) = 1%nat
    ∧ step (this, host) (Closed 0) = Some (y, out)
    ∧ timers y.2 = ∅ ∧ reads y.2 = ["sort.ts"].
Proof.
  eexists _, _, _, _, _.
  split; [vm_compute; reflexivity|]. split; [vm_compute; reflexivity|].
  split; [vm_compute; reflexivity|].
  pose proof (stop_clears_every_timer (mkOptions None)
    [Watch "sort.ts"; Add 0%nat "sort.ts"; Elapse 300;
     TimerFires 0%nat; Change 0%nat "sort.ts"; Stop] _ _ _ (Closed 0) _ _
    ltac:(vm_compute; reflexivity) ltac:(right; by exists 0%nat)
    ltac:(vm_compute; reflexivity)) as (H1 & _ & _ & H2 & _).
  split; [exact H1|exact H2].
Defined.

Section Counting.

(** One of the two events of [readAndEmitFile]. *)
Variable counted : Output → bool.
Hypothesis counted_Raise : ∀ message, counted (Raise message) = false.
Hypothesis counted_error :
  ∀ error, counted (Emit (WatcherError error)) = false.
Hypothesis counted_once :
  ∀ listeners p result,
    (length (filter (λ o, counted o = true) (onRead listeners p result))
     ≤ 1)%nat.

Lemma step_counts x input y out :
  coherent x → step x input = Some (y, out) →
  (length (filter (λ o, counted o = true) out) + length (reads y.2)
   + size (debounceTimers y.1)
   ≤ (if isChange input then 1 else 0) + length (reads x.2)
     + size (debounceTimers x.1))%nat.
Proof.
  intros Hx Hstep. destruct x as [this host].
  destruct input as [pattern| |k|w q|w q|w error|t|k result listeners|ms];
    simpl in Hstep.
  - unfold watch in Hstep. destruct (watcher this); simplify_eq; simpl.
    + rewrite filter_cons, decide_False by by rewrite counted_Raise.
      simpl. lia.
    + lia.
  - injection Hstep as <- <-. unfold stop. destruct (watcher this).
    + simpl. lia.
    + rewrite clearTimers_coherent by done. simpl.
      rewrite map_size_empty. lia.
  - destruct (closing host !! k) as [w|]; [|done]. injection Hstep as <- <-.
    unfold stopped. rewrite clearTimers_coherent by done. simpl.
    rewrite map_size_empty. lia.
  - case_bool_decide; [|done]. injection Hstep as <- <-.
    unfold handleFileChange. simpl. rewrite map_size_insert.
    assert (∀ h : Host,
              reads match debounceTimers this !! q with
                    | Some existingTimer => clearTimeout h existingTimer
                    | None => h
                    end = reads h) as -> by (intros h; by case_match).
    destruct (debounceTimers this !! q); simpl; lia.
  - case_bool_decide; [|done]. injection Hstep as <- <-.
    unfold handleFileChange. simpl. rewrite map_size_insert.
    assert (∀ h : Host,
              reads match debounceTimers this !! q with
                    | Some existingTimer => clearTimeout h existingTimer
                    | None => h
                    end = reads h) as -> by (intros h; by case_match).
    destruct (debounceTimers this !! q); simpl; lia.
  - case_bool_decide; [|done]. injection Hstep as <- <-.
    unfold handleError.
    rewrite filter_cons, decide_False by by rewrite counted_error.
    simpl. lia.
  - destruct (timers host !! t) as [[due p]|] eqn:Ht; [|done].
    case_match; [|done]. injection Hstep as <- <-. simpl.
    rewrite length_app, map_size_delete. simpl.
    assert (debounceTimers this !! p = Some t) as Hp
      by (apply Hx; by exists due).
    rewrite Hp.
    assert (size (debounceTimers this) ≠ 0%nat) as Hsize.
    { intros Hempty%map_size_empty_inv. by rewrite Hempty in Hp. }
    simpl. lia.
  - destruct (reads host !! k) as [p|] eqn:Hk; [|done].
    injection Hstep as <- <-. cbn [fst snd reads debounceTimers isChange].
    rewrite length_delete by by eexists.
    apply lookup_lt_Some in Hk.
    pose proof (counted_once listeners p result). lia.
  - case_match; [|done]. injection Hstep as <- <-. simpl. lia.
Qed.

Lemma run_counts options inputs this host outputs :
  run inputs (constructor options, idle) = Some (this, host, outputs) →
  (length (filter (λ o, counted o = true) outputs) + length (reads host)
   + size (debounceTimers this)
   ≤ length (filter (λ i, isChange i = true) inputs))%nat.
Proof.
  intros Hrun.
  assert (∀ inputs x y outs,
            coherent x → run inputs x = Some (y, outs) →
            (length (filter (λ o, counted o = true) outs)
             + length (reads y.2) + size (debounceTimers y.1)
             ≤ length (filter (λ i, isChange i = true) inputs)
               + length (reads x.2) + size (debounceTimers x.1))%nat) as H.
  { clear Hrun. induction inputs0 as [|i inputs0 IH];
      intros x y outs Hx Hrun.
    - injection Hrun as <- <-. simpl. lia.
    - simpl in Hrun. destruct (step x i) as [[x' out]|] eqn:Hstep; [|done].
      destruct (run inputs0 x') as [[z outs']|] eqn:Hrest; [|done].
      injection Hrun as <- <-.
      pose proof (step_counts x i x' out Hx Hstep) as H1.
      pose proof (IH x' z outs' (step_coherent _ _ _ _ Hx Hstep) Hrest) as H2.
      rewrite filter_app, length_app, filter_cons.
      destruct (decide (isChange i = true)) as [Hi|Hi].
      + rewrite Hi in H1. simpl. lia.
      + apply not_true_is_false in Hi. rewrite Hi in H1. lia. }
  specialize (H inputs _ _ _ (initial_coherent options) Hrun).
  simpl in H. rewrite map_size_empty in H. lia.
Qed.

End Counting.

(** X12: the watcher reads a file at most once for every change that
    chokidar reports, and a read emits each of [file:changed] and
    [file:error] at most once (both when a listener of [file:changed]
    throws): the [file:changed] events emitted, the reads under way and
    the timers pending are together no more than the [add] and [change]
    events received, and so are the [file:error] events with the reads
    and the timers. *)
Theorem no_more_reads_than_changes options inputs this host outputs :
  run inputs (constructor options, idle) = Some (this, host, outputs) →
  (length (filter (λ o, isFileChanged o = true) outputs)
   + length (reads host) + size (debounceTimers this)
   ≤ length (filter (λ i, isChange i = true) inputs))%nat
  ∧ (length (filter (λ o, isFileError o = true) outputs)
     + length (reads host) + size (debounceTimers this)
     ≤ length (filter (λ i, isChange i = true) inputs))%nat.
Proof.
  intros Hrun. split.
  - refine (run_counts isFileChanged _ _ _ options inputs this host outputs
              Hrun); try done.
    intros listeners p result. unfold onRead, emitFileError.
    destruct result as [error|content]; repeat case_match; vm_compute; lia.
  - refine (run_counts isFileError _ _ _ options inputs this host outputs
              Hrun); try done.
    intros listeners p result. unfold onRead, emitFileError.
    destruct result as [error|content]; repeat case_match; vm_compute; lia.
Qed.

Lemma no_more_reads_than_changes_witness :
  let listeners (event : Emitted) :=
    match event with
    | FileChanged _ _ => Some (ErrorObject "Converting circular structure")
    | _ => None
    end in
  ∃ this host outputs,
    run [Watch "sort.ts"; Add 0%nat "sort.ts"; Elapse 100;
         Change 0%nat "sort.ts"; Elapse 300; TimerFires 1%nat;
         ReadSettles 0 (inr "x = 1;") listeners]
      (constructor (mkOptions None), idle) = Some (this, host, outputs)
    ∧ outputs
      = [Emit (FileChanged "sort.ts" "x = 1;");
         Emit (FileError "sort.ts"
                 (ErrorObject "Converting circular structure"))]
    ∧ (length (filter (λ o, isFileChanged o = true) outputs) ≤ 2)%nat.
Proof.
  intros listeners.
  eexists _, _, _. split; [vm_compute; reflexivity|]. split; [reflexivity|].
  pose proof (proj1 (no_more_reads_than_changes (mkOptions None)
    [Watch "sort.ts"; Add 0%nat "sort.ts"; Elapse 100;
     Change 0%nat "sort.ts"; Elapse 300; TimerFires 1%nat;
     ReadSettles 0 (inr "x = 1;") listeners] _ _ _
    ltac:(vm_compute; reflexivity))) as H.
  etrans; [|exact H]. lia.
Defined.

End WatcherFacts.

Module SnapshotFacts.
Import Engine Spec Snapshots.

Lemma extends_refl F st : extends F st F st.
Proof. by split. Qed.

Lemma extends_trans F st F1 st1 F2 st2 :
  extends F st F1 st1 → extends F1 st1 F2 st2 → extends F st F2 st2.
Proof.
  intros [A1 A2 A3 A4 A5 A6] [B1 B2 B3 B4 B5 B6]. split.
  - by etrans.
  - lia.
  - intros l Hl Hnot. destruct (decide (l ∈ F1)) as [H1|H1].
    + by apply A3.
    + specialize (B3 l Hl H1). lia.
  - intros l Hl. rewrite B4 by by apply A1. by apply A4.
  - intros l Hl. by apply B5, A5.
  - by etrans.
Qed.

Lemma live_extends F st F' st' v :
  live F st v → extends F st F' st' → live F' st' v.
Proof.
  destruct v as [| | | | |l|]; simpl; try done. intros [Hl Hlt] E. split.
  - intros Hl'. pose proof (newFrozen _ _ _ _ E l Hl' Hl). lia.
  - pose proof (moreLocations _ _ _ _ E). lia.
Qed.

Lemma frozen_extends F F' v : frozen F v → F ⊆ F' → frozen F' v.
Proof. destruct v; simpl; try done. intros H Hsub. by apply Hsub. Qed.

Section Wp.

Variable clock : nat → Z.
Variable J : State → Prop.

Hypothesis J_allocate : ∀ vs, keeps J (allocate vs).
Hypothesis J_setBinding : ∀ x v, keeps J (setBinding x v).
Hypothesis J_initialize : ∀ k x v, keeps J (initialize k x v).
Hypothesis J_setElement : ∀ a i v, keeps J (setElement a i v).
Hypothesis J_tick : keeps J tick.
Hypothesis J_emit :
  ∀ type data, type ∈ traceTypes → keeps J (emit clock type data).

Local Abbreviation wp := (Snapshots.wp J).

Lemma wp_ret {A} (a : A) F st (Q : gset loc → State → A → Prop) :
  Q F st a → wp (ret a) F st Q.
Proof.
  intros HQ HI HJ. exists F. split; [apply extends_refl|].
  split; [done|]. split; [done|]. by intros ? [= <-].
Qed.

Lemma wp_throw {A} v F st (Q : gset loc → State → A → Prop) :
  wp (throw v) F st Q.
Proof. intros HI HJ. exists F. by split; [apply extends_refl|]. Qed.

Lemma wp_timedOut {A} F st (Q : gset loc → State → A → Prop) :
  wp timedOut F st Q.
Proof. intros HI HJ. exists F. by split; [apply extends_refl|]. Qed.

Lemma wp_unsupported {A} F st (Q : gset loc → State → A → Prop) :
  wp unsupported F st Q.
Proof. intros HI HJ. exists F. by split; [apply extends_refl|]. Qed.

Lemma wp_bind {A B} (m : M A) (f : A → M B) F st
    (Q1 : gset loc → State → A → Prop) (Q : gset loc → State → B → Prop) :
  wp m F st Q1 →
  (∀ F1 st1 a, extends F st F1 st1 → Q1 F1 st1 a → wp (f a) F1 st1 Q) →
  wp (bind m f) F st Q.
Proof.
  intros Hm Hf HI HJ. destruct (Hm HI HJ) as (F1 & E1 & I1 & J1 & H1).
  unfold bind. destruct (m st) as [[a| | |] st1]; simpl in *.
  - destruct (Hf F1 st1 a E1 (H1 a eq_refl) I1 J1) as (F2 & E2 & I2 & J2 & H2).
    exists F2. split; [by eapply extends_trans|done].
  - by exists F1.
  - by exists F1.
  - by exists F1.
Qed.

Lemma wp_mono {A} (m : M A) F st (Q Q' : gset loc → State → A → Prop) :
  wp m F st Q →
  (∀ F' st' a, extends F st F' st' → Q F' st' a → Q' F' st' a) →
  wp m F st Q'.
Proof.
  intros Hm HQ HI HJ. destruct (Hm HI HJ) as (F1 & E1 & I1 & J1 & H1).
  exists F1. split; [done|]. split; [done|]. split; [done|]. intros a Ha.
  apply HQ; [done|by apply H1].
Qed.

(** A computation that only reads the store. *)
Lemma wp_read {A} (m : M A) F st (Q : gset loc → State → A → Prop) :
  (∀ st', (m st').2 = st') →
  (separated F st → ∀ a, (m st).1 = Normal a → Q F st a) →
  wp m F st Q.
Proof.
  intros Hsame HQ HI HJ. exists F. rewrite Hsame.
  split; [apply extends_refl|]. split; [done|]. split; [done|]. by apply HQ.
Qed.

Lemma wp_number n F st : wp (number n) F st live.
Proof.
  unfold number. case_match; [by apply wp_ret|apply wp_unsupported].
Qed.

Lemma wp_getBinding x F st : wp (getBinding x) F st live.
Proof.
  apply wp_read.
  - intros st'. unfold getBinding. by case_match.
  - intros HI a. unfold getBinding.
    destruct (scope st !! x) as [b|] eqn:Hx; simpl; [|done].
    intros [= <-]. by eapply scopeLive.
Qed.

Lemma wp_getElement a i F st :
  live F st a → wp (getElement a i) F st live.
Proof.
  intros Ha. apply wp_read.
  - intros st'. unfold getElement. by repeat case_match.
  - intros HI v. unfold getElement.
    destruct a as [| | | | |l|]; try done. destruct i; try done.
    destruct (heap st !! l) as [vs|] eqn:Hl; [|done]. destruct Ha as [Ha _].
    pose proof (liveArrays _ _ HI l vs Hl Ha) as Hvs.
    case_match; simpl; [|by intros [= <-]]. intros [= <-].
    destruct (vs !! Z.to_nat n) as [v|] eqn:Hv; simpl; [|done].
    by eapply Forall_lookup_1.
Qed.

Lemma wp_getProperty a p F st : wp (getProperty a p) F st live.
Proof.
  apply wp_read.
  - intros st'. unfold getProperty. by repeat case_match.
  - intros HI v. unfold getProperty.
    repeat case_match; simpl; try done; by intros [= <-].
Qed.

Lemma wp_iterate v k b F st :
  live F st v → wp (iterate v k b) F st (λ F st r, live F st r.1).
Proof.
  intros Hv. apply wp_read.
  - intros st'. unfold iterate. by repeat case_match.
  - intros HI r. unfold iterate.
    destruct v as [| | | | |l|]; try done.
    destruct (heap st !! l) as [vs|] eqn:Hl; [|done]. destruct Hv as [Hv _].
    pose proof (liveArrays _ _ HI l vs Hl Hv) as Hvs.
    destruct b; [by intros [= <-]|].
    destruct (vs !! k) as [x|] eqn:Hx; intros [= <-]; simpl; [|done].
    by eapply Forall_lookup_1.
Qed.

Lemma wp_binary op a b F st : wp (binary op a b) F st live.
Proof.
  unfold binary.
  repeat case_match; try apply wp_number; try apply wp_unsupported;
    by apply wp_ret.
Qed.

Lemma live_state F st st' v :
  nextLoc st = nextLoc st' → live F st v → live F st' v.
Proof. intros H. destruct v; simpl; try done. by rewrite H. Qed.

Lemma wp_setBinding x v F st :
  live F st v → wp (setBinding x v) F st (λ _ _ _, True).
Proof.
  intros Hv HI HJ. exists F. split.
  { unfold setBinding. repeat case_match; by split. }
  split; [|split; [by apply J_setBinding|done]].
  unfold setBinding. destruct (scope st !! x) as [[[] old]|] eqn:Hx; try done.
  all: destruct HI as [I1 I2 I3 I4 I5 I6]; split; simpl; try done.
  all: intros y b Hy; destruct (decide (y = x)) as [->|Hne];
    [rewrite lookup_insert_eq in Hy; by injection Hy as <-
    |rewrite lookup_insert_ne in Hy by done; by eapply I3].
Qed.

Lemma wp_initialize k x v F st :
  live F st v → wp (initialize k x v) F st (λ _ _ _, True).
Proof.
  intros Hv HI HJ. exists F. split; [by split|].
  split; [|split; [by apply J_initialize|done]].
  destruct HI as [I1 I2 I3 I4 I5 I6]; split; simpl; try done.
  intros y b Hy; destruct (decide (y = x)) as [->|Hne];
    [rewrite lookup_insert_eq in Hy; by injection Hy as <-
    |rewrite lookup_insert_ne in Hy by done; by eapply I3].
Qed.

Lemma store_live F st vs i v :
  Forall (live F st) vs → live F st v → Forall (live F st) (store vs i v).
Proof.
  intros Hvs Hv. unfold store. case_match.
  - by apply Forall_insert.
  - apply Forall_app. split; [done|]. apply Forall_app. split.
    + by apply Forall_replicate.
    + by apply Forall_singleton.
Qed.

Lemma wp_setElement a i v F st :
  live F st a → live F st v → wp (setElement a i v) F st (λ _ _ _, True).
Proof.
  intros Ha Hv HI HJ. exists F.
  assert (J (setElement a i v st).2) as HJ' by by apply J_setElement.
  unfold setElement in *.
  destruct a as [| | | | |l|]; try (by split; [apply extends_refl|]).
  destruct i as [| | |n| | |]; try (by split; [apply extends_refl|]).
  destruct (heap st !! l) as [vs|] eqn:Hl;
    [|by split; [apply extends_refl|]].
  case_match; [|by split; [apply extends_refl|]].
  destruct Ha as [Ha Hlt]. destruct HI as [I1 I2 I3 I4 I5 I6]. simpl in *.
  split; [|split; [|done]].
  - split; simpl; try done.
    + intros l' Hl'. rewrite lookup_insert_ne; [done|]. by intros ->.
    + intros l' Hl'. destruct (decide (l' = l)) as [->|Hne].
      * rewrite lookup_insert_eq. by eexists.
      * by rewrite lookup_insert_ne.
  - split; simpl; try done.
    + intros l' [x Hx]. destruct (decide (l' = l)) as [->|Hne]; [done|].
      rewrite lookup_insert_ne in Hx by done. apply I1. by eexists.
    + intros l' vs' Hl' Hnot. destruct (decide (l' = l)) as [->|Hne].
      * rewrite lookup_insert_eq in Hl'. injection Hl' as <-.
        apply store_live; [by eapply I4|done].
      * rewrite lookup_insert_ne in Hl' by done. by eapply I4.
    + intros l' vs' Hl' Hin. destruct (decide (l' = l)) as [->|Hne]; [done|].
      rewrite lookup_insert_ne in Hl' by done. by eapply I5.
Qed.

Lemma wp_tick F st : wp tick F st (λ _ _ _, True).
Proof.
  intros HI HJ. exists F. assert (J (tick st).2) as HJ' by by apply J_tick.
  unfold tick in *. destruct (budget st); simpl in *.
  - by split; [apply extends_refl|].
  - split; [by split|]. split; [|done]. by destruct HI.
Qed.

(** A new array of live values is live; a new array of frozen values is
    frozen. *)
Lemma wp_allocate vs F st :
  Forall (live F st) vs → wp (allocate vs) F st live.
Proof.
  intros Hvs HI HJ. exists F. destruct HI as [I1 I2 I3 I4 I5 I6].
  assert (heap st !! nextLoc st = None) as Hnew.
  { destruct (heap st !! nextLoc st) eqn:H; [|done].
    specialize (I1 (nextLoc st) ltac:(by eexists)). lia. }
  assert (nextLoc st ∉ F) as HF by (intros H%I2; lia).
  assert (∀ v, live F st v → live F (allocate vs st).2 v) as Hlive.
  { intros [| | | | |l|]; simpl; try done. intros [? ?]. split; [done|lia]. }
  split; [|split; [|split; [by apply J_allocate|]]].
  - split; simpl; try done; try lia.
    + intros l Hl. rewrite lookup_insert_ne; [done|]. by intros <-.
    + intros l Hl. destruct (decide (l = nextLoc st)) as [->|Hne].
      * rewrite lookup_insert_eq. by eexists.
      * by rewrite lookup_insert_ne.
  - split; simpl.
    + intros l [x Hx]. destruct (decide (l = nextLoc st)) as [->|Hne]; [lia|].
      rewrite lookup_insert_ne in Hx by done.
      specialize (I1 l ltac:(by eexists)). lia.
    + intros l Hl. specialize (I2 l Hl). lia.
    + intros x b Hx. by apply Hlive, (I3 x).
    + intros l vs' Hl Hnot. destruct (decide (l = nextLoc st)) as [->|Hne].
      * rewrite lookup_insert_eq in Hl. injection Hl as <-.
        eapply Forall_impl; [done|]. apply Hlive.
      * rewrite lookup_insert_ne in Hl by done.
        eapply Forall_impl; [by eapply I4|]. apply Hlive.
    + intros l vs' Hl Hin. destruct (decide (l = nextLoc st)) as [->|Hne];
        [done|].
      rewrite lookup_insert_ne in Hl by done. by eapply I5.
    + done.
  - intros a [= <-]. simpl. split; [done|lia].
Qed.

Lemma wp_freeze vs F st :
  Forall (frozen F) vs → wp (allocate vs) F st (λ F' _ v, frozen F' v).
Proof.
  intros Hvs HI HJ. exists ({[nextLoc st]} ∪ F).
  destruct HI as [I1 I2 I3 I4 I5 I6].
  assert (heap st !! nextLoc st = None) as Hnew.
  { destruct (heap st !! nextLoc st) eqn:H; [|done].
    specialize (I1 (nextLoc st) ltac:(by eexists)). lia. }
  assert (nextLoc st ∉ F) as HF by (intros H%I2; lia).
  assert (∀ v, live F st v → live ({[nextLoc st]} ∪ F) (allocate vs st).2 v)
    as Hlive.
  { intros [| | | | |l|]; simpl; try done. intros [? ?]. split; [|lia].
    intros [->%elem_of_singleton|?]%elem_of_union; [lia|done]. }
  assert (∀ v, frozen F v → frozen ({[nextLoc st]} ∪ F) v) as Hfrozen.
  { intros v Hv. eapply frozen_extends; [done|]. apply union_subseteq_r. }
  split; [|split; [|split; [by apply J_allocate|]]].
  - split; simpl; try done; try lia.
    + apply union_subseteq_r.
    + intros l [->%elem_of_singleton|?]%elem_of_union; [lia|done].
    + intros l Hl. rewrite lookup_insert_ne; [done|]. by intros <-.
    + intros l Hl. destruct (decide (l = nextLoc st)) as [->|Hne].
      * rewrite lookup_insert_eq. by eexists.
      * by rewrite lookup_insert_ne.
  - split; simpl.
    + intros l [x Hx]. destruct (decide (l = nextLoc st)) as [->|Hne]; [lia|].
      rewrite lookup_insert_ne in Hx by done.
      specialize (I1 l ltac:(by eexists)). lia.
    + intros l [->%elem_of_singleton|Hl]%elem_of_union; [lia|].
      specialize (I2 l Hl). lia.
    + intros x b Hx. by apply Hlive, (I3 x).
    + intros l vs' Hl Hnot. destruct (decide (l = nextLoc st)) as [->|Hne].
      * destruct Hnot. by apply elem_of_union_l, elem_of_singleton.
      * rewrite lookup_insert_ne in Hl by done.
        eapply Forall_impl; [eapply I4; [done|]|apply Hlive].
        intros H. apply Hnot. by apply elem_of_union_r.
    + intros l vs' Hl Hin. destruct (decide (l = nextLoc st)) as [->|Hne].
      * rewrite lookup_insert_eq in Hl. injection Hl as <-.
        eapply Forall_impl; [done|]. apply Hfrozen.
      * rewrite lookup_insert_ne in Hl by done.
        apply elem_of_union in Hin as [?%elem_of_singleton|Hin]; [done|].
        eapply Forall_impl; [by eapply I5|]. apply Hfrozen.
    + intros e v He Ht Hv. by eapply Hfrozen, I6.
  - intros a [= <-]. simpl. by apply elem_of_union_l, elem_of_singleton.
Qed.

Lemma wp_mapM {A} (f : A → M Value) l F st
    (Q : gset loc → State → Value → Prop) :
  (∀ F st F' st' v, Q F st v → extends F st F' st' → Q F' st' v) →
  (∀ a F st, a ∈ l → wp (f a) F st Q) →
  wp (mapM f l) F st (λ F st vs, Forall (Q F st) vs).
Proof.
  intros Hstable. revert F st.
  induction l as [|a l IH]; intros F st Hf; simpl.
  - by apply wp_ret.
  - eapply wp_bind; [apply Hf; left|]. intros F1 st1 b E1 Hb.
    eapply wp_bind; [apply IH; intros; apply Hf; by right|].
    intros F2 st2 bs E2 Hbs. apply wp_ret. constructor; [|done].
    by eapply Hstable.
Qed.

Lemma wp_revive j F st : wp (revive j) F st (λ F' _ v, frozen F' v).
Proof.
  revert j F st. fix IH 1. intros [| | | |js] F st; simpl;
    try by apply wp_ret.
  apply wp_bind with (Q1 := λ F' _ vs, Forall (frozen F') vs);
    [|intros F1 st1 vs E1 Hvs; by apply wp_freeze].
  revert F st. induction js as [|j js IHjs]; intros F st; simpl.
  - by apply wp_ret.
  - eapply wp_bind; [apply IH|]. intros F1 st1 b E1 Hb.
    eapply wp_bind; [apply IHjs|]. intros F2 st2 bs E2 Hbs.
    apply wp_ret. constructor; [|done].
    apply (frozen_extends F1); [exact Hb|]. by destruct E2.
Qed.

Lemma wp_clone v F st : wp (clone v) F st (λ F' _ c, frozen F' c).
Proof.
  intros HI HJ. unfold clone.
  destruct (stringify (S (nextLoc st)) (heap st) v) as [j|].
  - exact (wp_revive j F st HI HJ).
  - exact (wp_unsupported F st (λ F' _ c, frozen F' c) HI HJ).
Qed.

Lemma wp_emit type data F st :
  type ∈ traceTypes →
  (snapshotType type = true → ∀ v, value data = Some v → frozen F v) →
  wp (emit clock type data) F st (λ _ _ _, True).
Proof.
  intros Htype Hdata HI HJ. exists F.
  assert (J (emit clock type data st).2) as HJ' by by apply J_emit.
  unfold emit, bind, now, push in *. simpl in *.
  destruct HI as [I1 I2 I3 I4 I5 I6].
  split; [|split; [|done]].
  - split; simpl; try done. by apply prefix_app_r.
  - split; simpl; try done. intros e v He Ht Hv.
    apply elem_of_app in He as [He|He]; [by eapply I6|].
    apply list_elem_of_singleton in He as ->. simpl in *. by apply Hdata.
Qed.

Lemma wp_callTrace method args F st :
  wp (callTrace clock method args) F st live.
Proof.
  unfold callTrace, declare, assign, arrayWrite.
  repeat case_match; try apply wp_unsupported.
  - eapply wp_bind; [|intros; by apply wp_ret].
    eapply wp_bind; [apply wp_clone|]. intros F1 st1 c E1 Hc.
    apply wp_emit; [by left|]. by intros _ v [= <-].
  - eapply wp_bind; [|intros; by apply wp_ret].
    eapply wp_bind; [apply wp_clone|]. intros F1 st1 c E1 Hc.
    apply wp_emit; [by right; left|]. by intros _ v [= <-].
  - eapply wp_bind; [|intros; by apply wp_ret].
    apply wp_emit; [by right; right; left|]. done.
Qed.

Local Ltac transport :=
  repeat match goal with
  | H : live ?F ?st ?v, E : extends ?F ?st ?F' ?st' |- _ =>
      lazymatch goal with
      | _ : live F' st' v |- _ => fail
      | _ => pose proof (live_extends F st F' st' v H E)
      end
  end.

Lemma live_stable F st F' st' v :
  live F st v → extends F st F' st' → live F' st' v.
Proof. apply live_extends. Qed.

Lemma wp_eval e F st : wp (eval clock e) F st live.
Proof.
  revert F st.
  induction e as [e IH] using (induction_ltof1 _ esize). unfold ltof in IH.
  intros F st.
  destruct e as [| | | | | |r es|r a [i|]|r a p|r f args|r a|r l op r'];
    simpl.
  - apply wp_number.
  - by apply wp_ret.
  - apply wp_getBinding.
  - by apply wp_ret.
  - by apply wp_ret.
  - by apply wp_ret.
  - eapply wp_bind.
    + apply wp_mapM; [apply live_stable|].
      intros a F' st' Ha%(sum_list_with_in _ esize). apply IH. simpl. lia.
    + intros F1 st1 vs E1 Hvs. by apply wp_allocate.
  - eapply wp_bind; [apply IH; simpl; lia|]. intros F1 st1 va E1 Hva.
    eapply wp_bind; [apply IH; simpl; lia|]. intros F2 st2 vi E2 Hvi.
    transport. by apply wp_getElement.
  - apply wp_unsupported.
  - eapply wp_bind; [apply IH; simpl; lia|]. intros F1 st1 va E1 Hva.
    apply wp_getProperty.
  - destruct f; try apply wp_unsupported.
    eapply wp_bind; [apply IH; simpl; lia|]. intros F1 st1 vo E1 Hvo.
    destruct vo; try apply wp_unsupported.
    eapply wp_bind.
    + apply wp_mapM; [apply live_stable|].
      intros a F' st' Ha%(sum_list_with_in _ esize). apply IH. simpl. lia.
    + intros F2 st2 vs E2 Hvs. apply wp_callTrace.
  - apply IH. simpl. lia.
  - destruct op.
    2-10: eapply wp_bind; [apply IH; simpl; lia|]; intros F1 st1 vl E1 Hvl;
      eapply wp_bind; [apply IH; simpl; lia|]; intros F2 st2 vr E2 Hvr;
      apply wp_binary.
    destruct l as [| |rl x| | | |rl targets|rl a [i|]| | | |];
      try apply wp_unsupported.
    + eapply wp_bind; [apply IH; simpl; lia|]. intros F1 st1 v E1 Hv.
      eapply wp_bind; [by apply wp_setBinding|]. intros F2 st2 [] E2 _.
      transport. by apply wp_ret.
    + eapply wp_bind; [apply IH; simpl; lia|]. intros F1 st1 v E1 Hv.
      apply wp_bind with (Q1 := λ _ _ _, True);
        [|intros F2 st2 [] E2 _; transport; by apply wp_ret].
      assert (Hsub : ∀ t, t ∈ targets → ∀ e' F st,
                (esize e' < esize t)%nat → wp (eval clock e') F st live).
      { intros t Ht%(sum_list_with_in _ esize) e' F' st' He'.
        apply IH. simpl. lia. }
      clear IH E1. generalize 0%nat false. revert F1 st1 Hv.
      induction targets as [|t targets IHt]; intros F1 st1 Hv k b;
        [by apply wp_ret|].
      assert (Ht := Hsub t ltac:(left)).
      assert (Hrest := IHt (λ t' Ht', Hsub t' ltac:(by right))).
      destruct t as [| |rt x| | | | |rt ta [ti|]| | | |];
        try apply wp_unsupported.
      * eapply wp_bind; [by apply wp_iterate|]. intros F2 st2 s E2 Hs.
        eapply wp_bind; [by apply wp_setBinding|]. intros F3 st3 [] E3 _.
        transport. by apply Hrest.
      * eapply wp_bind; [apply Ht; simpl; lia|]. intros F2 st2 va E2 Hva.
        eapply wp_bind; [apply Ht; simpl; lia|]. intros F3 st3 vi E3 Hvi.
        transport.
        eapply wp_bind; [by apply wp_iterate|]. intros F4 st4 s E4 Hs.
        transport.
        eapply wp_bind; [by apply wp_setElement|]. intros F5 st5 [] E5 _.
        transport. by apply Hrest.
    + eapply wp_bind; [apply IH; simpl; lia|]. intros F1 st1 va E1 Hva.
      eapply wp_bind; [apply IH; simpl; lia|]. intros F2 st2 vi E2 Hvi.
      eapply wp_bind; [apply IH; simpl; lia|]. intros F3 st3 v E3 Hv.
      transport.
      eapply wp_bind; [by apply wp_setElement|]. intros F4 st4 [] E4 _.
      transport. by apply wp_ret.
Qed.

Lemma wp_forEach {A} (f : A → M unit) l F st :
  (∀ a F st, a ∈ l → wp (f a) F st (λ _ _ _, True)) →
  wp (forEach f l) F st (λ _ _ _, True).
Proof.
  revert F st. induction l as [|a l IH]; intros F st Hf; simpl.
  - by apply wp_ret.
  - eapply wp_bind; [apply Hf; left|]. intros F1 st1 [] E1 _.
    apply IH. intros; apply Hf; by right.
Qed.

Lemma wp_declareVariable k d F st :
  wp (declareVariable clock k d) F st (λ _ _ _, True).
Proof.
  unfold declareVariable.
  eapply wp_bind with (Q1 := live).
  - case_match; [apply wp_eval|by apply wp_ret].
  - intros F1 st1 v E1 Hv. by apply wp_initialize.
Qed.

Lemma wp_iterations condition body n F st :
  (∀ F st, wp condition F st live) →
  (∀ F st, wp body F st (λ _ _ _, True)) →
  wp (iterations condition body n) F st (λ _ _ _, True).
Proof.
  intros Hc Hb. revert F st.
  induction n as [|n IHn]; intros F st; simpl; [apply wp_timedOut|].
  eapply wp_bind; [apply wp_tick|]. intros F1 st1 [] E1 _.
  eapply wp_bind; [apply Hc|]. intros F2 st2 v E2 Hv.
  case_match; [|by apply wp_ret].
  eapply wp_bind; [apply Hb|]. intros F3 st3 [] E3 _. apply IHn.
Qed.

Lemma wp_exec s F st : wp (exec clock s) F st (λ _ _ _, True).
Proof.
  revert s F st. fix IH 1.
  intros [r k ds|r e|r ss|r c b|r c s1 [s2|]|r e] F st; cbn [exec].
  - apply wp_forEach. intros d F' st' _. apply wp_declareVariable.
  - eapply wp_bind; [apply wp_eval|]. intros; by apply wp_ret.
  - revert F st. induction ss as [|s ss IHss]; intros F st; simpl;
      [by apply wp_ret|].
    eapply wp_bind; [apply IH|]. intros F1 st1 [] E1 _. apply IHss.
  - intros HI HJ.
    apply (wp_iterations (eval clock c) (exec clock b)); try done.
    intros; apply wp_eval.
  - eapply wp_bind; [apply wp_eval|]. intros F1 st1 v E1 Hv.
    case_match; apply IH.
  - eapply wp_bind; [apply wp_eval|]. intros F1 st1 v E1 Hv.
    case_match; [apply IH|by apply wp_ret].
  - eapply wp_bind; [apply wp_eval|]. intros; apply wp_throw.
Qed.

Lemma wp_runInNewContext program F st :
  wp (runInNewContext clock program) F st (λ _ _ _, True).
Proof. apply wp_forEach. intros s F' st' _. apply wp_exec. Qed.

End Wp.

Lemma sandbox_separated clock steps reads :
  separated ∅ (Executor.createSandbox clock steps reads).
Proof.
  split; simpl; try done.
  - intros l [x H]. by rewrite lookup_empty in H.
  - intros x b [<- <-]%lookup_singleton_Some. done.
  - intros e v H. by apply elem_of_nil in H.
Qed.

(** What holds when the sandbox is created and is kept by the steps of
    the engine and by every [emit] of the [__trace] object holds when the
    script stops. *)
Lemma run_keeps clock steps (J : State → Prop) code o st :
  (∀ vs, keeps J (allocate vs)) →
  (∀ x v, keeps J (setBinding x v)) →
  (∀ k x v, keeps J (initialize k x v)) →
  (∀ a i v, keeps J (setElement a i v)) →
  keeps J tick →
  (∀ type data, type ∈ traceTypes → keeps J (emit clock type data)) →
  J (Executor.createSandbox clock steps 1) →
  Executor.run clock steps code = Some (o, st) →
  J st.
Proof.
  intros H1 H2 H3 H4 H5 H6 H0 Hrun. unfold Executor.run in Hrun.
  destruct (Frontend.parseProgram code) as [program|]; [|done].
  simpl in Hrun. destruct (wellFormed program); [|done].
  injection Hrun as Hrun.
  destruct (wp_runInNewContext clock J H1 H2 H3 H4 H5 H6 program ∅
              (Executor.createSandbox clock steps 1)
              (sandbox_separated clock steps 1) H0)
    as (F & _ & _ & HJ & _).
  by rewrite Hrun in HJ.
Qed.

Lemma mapM_ext_Forall {A B} (f g : A → option B) l k :
  Forall (λ x, ∀ y, f x = Some y → g x = Some y) l →
  list.mapM f l = Some k → list.mapM g l = Some k.
Proof.
  intros Hfg Hf. apply mapM_Some. apply mapM_Some in Hf.
  induction Hf as [|x y l k Hx Hl IH]; [constructor|].
  apply Forall_cons in Hfg as [Hx' Hfg]. constructor; [by apply Hx'|by apply IH].
Qed.

(** What a frozen value reads as does not change. *)
Lemma stringify_frozen F st F' st' d d' v j :
  separated F st → extends F st F' st' → frozen F v → (d ≤ d')%nat →
  stringify d (heap st) v = Some j → stringify d' (heap st') v = Some j.
Proof.
  intros HI E. revert d' v j.
  induction d as [|d IH]; intros d' v j Hv Hd Hj.
  - destruct v; try done; by destruct d'.
  - destruct d' as [|d']; [lia|].
    destruct v as [| | | | |l|]; try done. simpl in *.
    rewrite (frozenKept _ _ _ _ E l Hv).
    destruct (heap st !! l) as [vs|] eqn:Hl; [|done]. simpl in *.
    destruct (list.mapM _ vs) as [js|] eqn:Hjs; [|done]. simpl in *.
    injection Hj as <-.
    rewrite (mapM_ext_Forall _ _ vs js) with (2 := Hjs); [done|].
    eapply Forall_impl; [exact (frozenArrays _ _ HI l vs Hl Hv)|].
    simpl. intros x Hx y. destruct x; try done; apply IH; try done; lia.
Qed.

Lemma extends_size F st F' st' :
  extends F st F' st' → (size (heap st) ≤ size (heap st'))%nat.
Proof.
  intros E. rewrite <- !(size_dom (D := gset loc)). apply subseteq_size.
  intros l Hl%elem_of_dom. by apply elem_of_dom, (moreArrays _ _ _ _ E).
Qed.

End SnapshotFacts.

Section Isolation.
Import Engine Executor Spec Snapshots.

Variable clock : nat → Z.
Variable steps : nat.

(** X15: the script cannot change the values of the [variable:declare] and
    [variable:assign] events through its own variables.  Let a script that
    reaches [__trace] through [declare], [assign] and [arrayWrite] only run
    to the end of one of its statements: whatever the statements after it
    do, when the script stops (at its end or at a fault) the events
    recorded by then are still the first events of the [__trace] object,
    and those of the two types read exactly as they read then. *)
Theorem declared_and_assigned_values_are_kept
    (before after : list Stmt) st1 :
  runInNewContext clock before (createSandbox clock steps 1)
  = (Normal (), st1) →
  (runInNewContext clock (before ++ after) (createSandbox clock steps 1)).1
  ≠ Unsupported →
  let st2 :=
    (runInNewContext clock (before ++ after)
       (createSandbox clock steps 1)).2 in
  ∀ i e, events (runtime st1) !! i = Some e →
    events (runtime st2) !! i = Some e
    ∧ ∀ v j, snapshotType (type e) = true → value (data e) = Some v →
             observe (heap st1) v = Some j → observe (heap st2) v = Some j.
Proof.
  intros Hbefore _ st2 i e He.
  assert (∀ vs, keeps (λ _, True) (allocate vs)) as H1 by done.
  assert (∀ x v, keeps (λ _, True) (setBinding x v)) as H2 by done.
  assert (∀ k x v, keeps (λ _, True) (initialize k x v)) as H3 by done.
  assert (∀ a i v, keeps (λ _, True) (setElement a i v)) as H4 by done.
  assert (keeps (λ _, True) tick) as H5 by done.
  assert (∀ type data, type ∈ traceTypes →
            keeps (λ _, True) (emit clock type data)) as H6 by done.
  destruct (SnapshotFacts.wp_runInNewContext clock _ H1 H2 H3 H4 H5 H6
              before ∅ (createSandbox clock steps 1)
              (SnapshotFacts.sandbox_separated clock steps 1) I)
    as (F1 & _ & I1 & _ & _).
  rewrite Hbefore in I1. simpl in I1.
  destruct (SnapshotFacts.wp_runInNewContext clock _ H1 H2 H3 H4 H5 H6
              after F1 st1 I1 I) as (F2 & E2 & _ & _ & _).
  assert (st2 = (runInNewContext clock after st1).2) as ->.
  { unfold st2, runInNewContext. rewrite forEach_app. unfold bind.
    fold (runInNewContext clock before). by rewrite Hbefore. }
  split.
  - eapply prefix_lookup_Some; [done|]. by destruct E2.
  - intros v j Htype Hv Hj. unfold observe in *.
    apply (SnapshotFacts.stringify_frozen F1 st1 F2 _
             (S (size (heap st1))) _ v j I1 E2); [| |exact Hj].
    + eapply (snapshotsFrozen _ _ I1 e v); try done.
      by eapply list_elem_of_lookup_2.
    + pose proof (SnapshotFacts.extends_size _ _ _ _ E2). lia.
Qed.

End Isolation.

Lemma declared_and_assigned_values_are_kept_witness :
  let clock (k : nat) := Z.of_nat k in
  let sandbox := Executor.createSandbox clock 10 1 in
  let before :=
    default []
      (Frontend.parseProgram "const r=[1]; __trace.declare('r', r);") in
  let after := default [] (Frontend.parseProgram "r[0] = 9;") in
  let st2 := (Engine.runInNewContext clock (before ++ after)%list sandbox).2 in
  ∃ st1 e c,
    Engine.runInNewContext clock before sandbox = (Engine.Normal (), st1)
    ∧ Engine.events (Engine.runtime st1) !! 0%nat = Some e
    ∧ Engine.value (Engine.data e) = Some c
    ∧ Engine.observe (Engine.heap st1) (Engine.VArray 0%nat)
      = Some (Engine.JArray [Engine.JNumber 1])
    ∧ Engine.observe (Engine.heap st2) (Engine.VArray 0%nat)
      = Some (Engine.JArray [Engine.JNumber 9])
    ∧ Engine.observe (Engine.heap st2) c
      = Some (Engine.JArray [Engine.JNumber 1]).
Proof.
  intros clock sandbox before after st2. eexists _, _, _.
  split; [vm_compute; reflexivity|]. split; [reflexivity|].
  split; [reflexivity|]. split; [vm_compute; reflexivity|].
  split; [vm_compute; reflexivity|].
  refine (proj2 (declared_and_assigned_values_are_kept clock 10 before after
                   _ _ _ 0%nat _ _) _ _ _ _ _);
    vm_compute; first [reflexivity|discriminate].
Defined.

Section Copies.
Import Engine Executor Spec Snapshots.

Lemma readsAs_wider c j lo hi h lo' hi' h' :
  readsAs c j lo hi h → (lo' ≤ lo)%nat → (hi ≤ hi')%nat →
  (∀ l, (lo ≤ l < hi)%nat → h' !! l = h !! l) →
  readsAs c j lo' hi' h'.
Proof.
  intros Hc Hlo Hhi Hh h'' d Hh'' Hd. apply Hc; [|done].
  intros l Hl. rewrite Hh'' by lia. by apply Hh.
Qed.

Lemma revive_reads j st :
  (∀ l, is_Some (heap st !! l) → (l < nextLoc st)%nat) →
  ∃ c st',
    revive j st = (Normal c, st')
    ∧ scope st' = scope st ∧ runtime st' = runtime st
    ∧ clockReads st' = clockReads st ∧ budget st' = budget st
    ∧ nextLoc st' = (nextLoc st + arrays j)%nat
    ∧ size (heap st') = (size (heap st) + arrays j)%nat
    ∧ (∀ l, is_Some (heap st' !! l) → (l < nextLoc st')%nat)
    ∧ (∀ l, (l < nextLoc st)%nat → heap st' !! l = heap st !! l)
    ∧ readsAs c j (nextLoc st) (nextLoc st') (heap st').
Proof.
  revert j st. fix IH 1. intros [|b|n|s|js] st Hst.
  1-4: eexists _, st; split; [reflexivity|];
    rewrite ?Nat.add_0_r; do 8 (split; [done|]);
    intros h' d _ _; by destruct d.
  assert (∃ vs st',
    mapM revive js st = (Normal vs, st')
    ∧ scope st' = scope st ∧ runtime st' = runtime st
    ∧ clockReads st' = clockReads st ∧ budget st' = budget st
    ∧ nextLoc st' = (nextLoc st + sum_list_with arrays js)%nat
    ∧ size (heap st') = (size (heap st) + sum_list_with arrays js)%nat
    ∧ (∀ l, is_Some (heap st' !! l) → (l < nextLoc st')%nat)
    ∧ (∀ l, (l < nextLoc st)%nat → heap st' !! l = heap st !! l)
    ∧ Forall2 (λ c j, readsAs c j (nextLoc st) (nextLoc st') (heap st'))
        vs js) as (vs & st1 & Hmap & H1 & H2 & H3 & H4 & H5 & H6 & H7 & H8 & H9).
  { clear -IH Hst. revert st Hst.
    induction js as [|j js IHjs]; intros st Hst.
    - eexists [], st. split; [reflexivity|]. simpl.
      rewrite !Nat.add_0_r. do 8 (split; [done|]). constructor.
    - destruct (IH j st Hst)
        as (c & st1 & Hc & A1 & A2 & A3 & A4 & A5 & A6 & A7 & A8 & A9).
      destruct (IHjs st1 A7)
        as (cs & st2 & Hcs & B1 & B2 & B3 & B4 & B5 & B6 & B7 & B8 & B9).
      exists (c :: cs), st2. split.
      { change (mapM revive (j :: js) st)
          with (bind (revive j)
                  (λ b, bind (mapM revive js) (λ bs, ret (b :: bs))) st).
        unfold bind. by rewrite Hc, Hcs. }
      simpl. split; [congruence|]. split; [congruence|].
      split; [congruence|]. split; [congruence|].
      split; [lia|]. split; [lia|]. split; [done|].
      split; [intros l Hl; rewrite B8 by lia; by apply A8|].
      constructor.
      + eapply readsAs_wider; [done|lia|lia|].
        intros l Hl. apply B8. lia.
      + eapply Forall2_impl; [done|]. simpl. intros c' j' Hc'.
        eapply readsAs_wider; [done|lia|lia|done]. }
  exists (VArray (nextLoc st1)),
    (mkState (<[nextLoc st1 := vs]> (heap st1)) (S (nextLoc st1)) (scope st1)
       (runtime st1) (clockReads st1) (budget st1)).
  assert (heap st1 !! nextLoc st1 = None) as Hnew.
  { destruct (heap st1 !! nextLoc st1) eqn:H; [|done].
    specialize (H7 (nextLoc st1) ltac:(by eexists)). lia. }
  split.
  { change (revive (JArray js) st)
      with (bind (mapM revive js) allocate st).
    unfold bind. by rewrite Hmap. }
  simpl. do 4 (split; [done|]). split; [lia|].
  split; [rewrite map_size_insert, Hnew; lia|].
  split.
  { intros l [x Hx]. destruct (decide (l = nextLoc st1)) as [->|Hne]; [lia|].
    rewrite lookup_insert_ne in Hx by done.
    specialize (H7 l ltac:(by eexists)). lia. }
  split.
  { intros l Hl. rewrite lookup_insert_ne by lia. by apply H8. }
  intros h' d Hh' Hd. destruct d as [|d]; [simpl in Hd; lia|].
  cbn [stringify]. rewrite Hh' by lia. rewrite lookup_insert_eq. simpl.
  assert (list.mapM
            (λ x, match x with
                  | VUndefined => Some JNull
                  | _ => stringify d h' x
                  end) vs = Some js) as ->; [|done].
  apply mapM_Some. simpl in Hd.
  assert (sum_list_with arrays js ≤ d)%nat as Hsum by lia.
  assert (∀ l, (nextLoc st ≤ l < nextLoc st1)%nat →
               h' !! l = heap st1 !! l) as Hh1.
  { intros l Hl. rewrite Hh' by lia. by rewrite lookup_insert_ne by lia. }
  clear -H9 Hh1 Hsum. induction H9 as [|c j cs js' Hc Hcs IHcs];
    [constructor|].
  simpl in Hsum. constructor.
  - assert (stringify d h' c = Some j) as Hj by (apply Hc; [done|lia]).
    destruct c; try exact Hj. by destruct d.
  - apply IHcs. lia.
Qed.

Variable clock : nat → Z.

Lemma run_dense steps program :
  dense (runInNewContext clock program (createSandbox clock steps 1)).2.
Proof.
  destruct (SnapshotFacts.wp_runInNewContext clock dense) with
    (program := program) (F := (∅ : gset loc))
    (st := createSandbox clock steps 1) as (F & _ & _ & H & _);
    try done.
  - intros vs st [Hsize Hdom]. split; simpl.
    + rewrite map_size_insert.
      destruct (heap st !! nextLoc st) eqn:H; [|lia].
      specialize (Hdom (nextLoc st) ltac:(by eexists)). lia.
    + intros l [x Hx]. destruct (decide (l = nextLoc st)) as [->|Hne]; [lia|].
      rewrite lookup_insert_ne in Hx by done.
      specialize (Hdom l ltac:(by eexists)). lia.
  - intros x v st H. unfold setBinding.
    destruct (scope st !! x) as [[[] ?]|]; exact H.
  - intros k x v st H. exact H.
  - intros a i v st [Hsize Hdom]. unfold setElement.
    destruct a; try done. destruct i; try done.
    destruct (heap st !! l) eqn:Hl; [|done].
    destruct ((0 <=? n) && (n <=? maxArrayIndex)); [|done].
    split; simpl.
    + by rewrite map_size_insert, Hl.
    + intros l' [x Hx]. destruct (decide (l' = l)) as [->|Hne].
      * apply Hdom. by eexists.
      * rewrite lookup_insert_ne in Hx by done. apply Hdom. by eexists.
  - intros st H. unfold tick. destruct (budget st); exact H.
  - intros type data _ st H. exact H.
  - apply SnapshotFacts.sandbox_separated.
  - split; [done|]. intros l [x Hx]. simpl in Hx.
    by rewrite lookup_empty in Hx.
Qed.

Lemma full_store (m : gmap nat (list Value)) n l :
  size m = n → (∀ k, is_Some (m !! k) → (k < n)%nat) → (l < n)%nat →
  is_Some (m !! l).
Proof.
  intros Hsize Hdom Hl.
  assert (dom m = (set_seq 0 n : gset nat)) as Heq.
  { apply set_subseteq_size_eq.
    - intros k Hk%elem_of_dom. apply elem_of_set_seq.
      specialize (Hdom k Hk). lia.
    - rewrite size_set_seq, size_dom. lia. }
  apply elem_of_dom. rewrite Heq. apply elem_of_set_seq. lia.
Qed.

(** X16: the value of a [variable:declare] or [variable:assign] event is
    a copy made when the event is recorded.  Wherever a script has got to,
    a call of [declare] or [assign] that returns has added one event, of
    its type and with its name and no index; it has left the arrays of the
    script as they were; and the value of the event reads as the argument
    reads at the moment of the call in every store that has the arrays the
    call has made, whatever the arrays of the script hold there: the value
    shares no array with the argument. *)
Theorem snapshot_reads_as_the_argument steps program st method n v r st' :
  st = (runInNewContext clock program (createSandbox clock steps 1)).2 →
  method = "declare" ∨ method = "assign" →
  callTrace clock method [n; v] st = (Normal r, st') →
  ∃ e c j,
    events (runtime st') = (events (runtime st) ++ [e])%list
    ∧ type e = "variable:" +:+ method
    ∧ data e = mkData (Some n) None (Some c)
    ∧ observe (heap st) v = Some j
    ∧ (∀ l, (l < nextLoc st)%nat → heap st' !! l = heap st !! l)
    ∧ (∀ l, is_Some (heap st !! l) → (l < nextLoc st)%nat)
    ∧ ∀ h, (∀ l, (nextLoc st ≤ l)%nat → h !! l = heap st' !! l) →
           observe h c = Some j.
Proof.
  intros -> Hmethod Hcall.
  set (st := (runInNewContext clock program
                (createSandbox clock steps 1)).2) in *.
  destruct (run_dense steps program) as [Hsize Hdom]. fold st in Hsize, Hdom.
  assert (∃ type,
    type = "variable:" +:+ method
    ∧ ((c <- clone v ;; emit clock type (mkData (Some n) None (Some c))) ;;;
       ret VUndefined) st = (Normal r, st')) as (type & Htype & Hrun).
  { destruct Hmethod as [-> | ->]; eexists; (split; [reflexivity|]);
      exact Hcall. }
  clear Hcall. unfold bind, clone in Hrun. unfold observe at 1. rewrite Hsize.
  destruct (stringify (S (nextLoc st)) (heap st) v) as [j|]; [|done].
  destruct (revive_reads j st Hdom)
    as (c & st1 & Hc & A1 & A2 & A3 & A4 & A5 & A6 & A7 & A8 & A9).
  rewrite Hc in Hrun. unfold emit, bind, now, push, ret in Hrun.
  simpl in Hrun. injection Hrun as <- <-.
  eexists _, c, j. cbn [runtime events heap]. rewrite A2.
  split; [reflexivity|]. split; [by rewrite Htype|].
  split; [done|]. split; [done|]. split; [exact A8|]. split; [exact Hdom|].
  intros h Hh. unfold observe. apply A9.
  - intros l Hl. apply Hh. lia.
  - assert ((set_seq (nextLoc st) (arrays j) : gset nat) ⊆ dom h) as Hsub.
    { intros l Hl%elem_of_set_seq. apply elem_of_dom. rewrite Hh by lia.
      apply (full_store (heap st1) (nextLoc st1)); [|done|lia].
      unfold loc in *. lia. }
    apply subseteq_size in Hsub. rewrite size_set_seq, size_dom in Hsub.
    unfold loc in *. lia.
Qed.

End Copies.

Lemma snapshot_reads_as_the_argument_witness :
  let clock (k : nat) := Z.of_nat k in
  let program := default [] (Frontend.parseProgram "const r=[[1],2];") in
  let st :=
    (Engine.runInNewContext clock program
       (Executor.createSandbox clock 10 1)).2 in
  ∃ st',
    Engine.callTrace clock "declare"
      [Engine.VString "r"; Engine.VArray 1%nat] st
    = (Engine.Normal Engine.VUndefined, st')
    ∧ ∃ e c j,
        Engine.events (Engine.runtime st')
        = (Engine.events (Engine.runtime st) ++ [e])%list
        ∧ Engine.type e = "variable:declare"
        ∧ Engine.data e
          = Engine.mkData (Some (Engine.VString "r")) None (Some c)
        ∧ Engine.observe (Engine.heap st) (Engine.VArray 1%nat) = Some j
        ∧ c ≠ Engine.VArray 1%nat
        ∧ Engine.observe
            (<[1%nat := [Engine.VNumber 7]]> (Engine.heap st')) c
          = Some j.
Proof.
  intros clock program st. eexists. split; [vm_compute; reflexivity|].
  destruct (snapshot_reads_as_the_argument clock 10 program st "declare"
              (Engine.VString "r") (Engine.VArray 1%nat) Engine.VUndefined
              _ eq_refl ltac:(by left) ltac:(vm_compute; reflexivity))
    as (e & c & j & He & Htype & Hdata & Hv & _ & _ & Hc).
  exists e, c, j. split; [exact He|]. split; [exact Htype|].
  split; [exact Hdata|]. split; [exact Hv|]. split.
  - intros ->. vm_compute in He. simplify_eq.
  - apply Hc. intros l Hl. apply lookup_insert_ne.
    vm_compute in Hl. lia.
Defined.

Section EventTypes.
Import Engine Executor Spec Snapshots.

(** X13: a script that reaches [__trace] through [declare], [assign] and
    [arrayWrite] only leaves events of three types, [variable:declare],
    [variable:assign] and [array:write]: whenever it stops, at its end or
    at a fault, every recorded event has one of them, and so has every
    event of a trace that [execute] returns. *)
Theorem events_are_of_three_types clock steps instrumentedCode :
  (∀ o st, run clock steps instrumentedCode = Some (o, st) →
     Forall (λ e, type e ∈ traceTypes) (events (runtime st)))
  ∧ ∀ options r h,
      execute clock steps instrumentedCode options = Some (r, h) →
      Forall (λ e, type e ∈ traceTypes) (trace r).
Proof.
  assert (∀ o st, run clock steps instrumentedCode = Some (o, st) →
            Forall (λ e, type e ∈ traceTypes) (events (runtime st))) as Hrun.
  { intros o st.
    apply (SnapshotFacts.run_keeps clock steps
             (λ st, Forall (λ e, type e ∈ traceTypes) (events (runtime st)))).
    - by intros vs st'.
    - intros x v st'. unfold setBinding. by repeat case_match.
    - by intros k x v st'.
    - intros a i v st'. unfold setElement. by repeat case_match.
    - intros st'. unfold tick. by case_match.
    - intros type data Htype st' H. simpl.
      apply Forall_app. split; [done|]. by apply Forall_singleton.
    - constructor. }
  split; [exact Hrun|].
  unfold execute, executeWith. intros options r h Hexecute.
  destruct (validTimeout _); [|done].
  destruct (run clock steps instrumentedCode) as [[o st]|] eqn:Hst; [|done].
  specialize (Hrun o st eq_refl).
  destruct o as [[]|v| |].
  - by injection Hexecute as <- <-.
  - destruct (toString v); simplify_eq/=. constructor.
  - simplify_eq/=. constructor.
  - done.
Qed.

Lemma events_are_of_three_types_witness :
  ∃ r h,
    instrumentAndExecute (λ k, Z.of_nat k) 10 swapSource = Some (r, h)
    ∧ length (trace r) = 4%nat
    ∧ Forall (λ e, type e ∈ traceTypes) (trace r).
Proof.
  eexists _, _. split; [vm_compute; reflexivity|]. split; [reflexivity|].
  eapply (proj2 (events_are_of_three_types (λ k, Z.of_nat k) 10
                   (default EmptyString (instrumented swapSource)))
            (mkOptions None)).
  vm_compute. reflexivity.
Defined.

End EventTypes.

Section Timestamps.
Import Engine Executor Spec Snapshots.

Variable clock : nat → Z.
Hypothesis monotone : ∀ i j, (i ≤ j)%nat → clock i ≤ clock j.

Lemma emit_timely type data : keeps (timely clock) (emit clock type data).
Proof.
  intros st (Hstart & Hreads & Hbounds & Hsorted).
  unfold timely, emit, bind, now, push. simpl. rewrite Hstart.
  assert (clock 1%nat ≤ clock (clockReads st)) by (apply monotone; lia).
  assert (clock (clockReads st - 1)%nat ≤ clock (clockReads st))
    by (apply monotone; lia).
  split; [done|]. split; [lia|]. split.
  - replace (clockReads st - 0)%nat with (clockReads st) by lia.
    apply Forall_app. split.
    + eapply Forall_impl; [done|]. simpl. intros e He. lia.
    + apply Forall_singleton. simpl. lia.
  - intros i j e e' Hij Hi Hj.
    apply lookup_app_Some in Hj as [Hj|[Hlen Hj]].
    + apply lookup_app_Some in Hi as [Hi|[Hlen' Hi]].
      * by eapply Hsorted.
      * apply lookup_lt_Some in Hj. lia.
    + apply list_lookup_singleton_Some in Hj as [_ <-]. simpl.
      apply lookup_app_Some in Hi as [Hi|[Hlen' Hi]].
      * pose proof (proj1 (Forall_lookup _ _) Hbounds i e Hi) as He.
        simpl in He. lia.
      * apply list_lookup_singleton_Some in Hi as [_ <-]. simpl. lia.
Qed.

Lemma run_timely steps instrumentedCode o st :
  run clock steps instrumentedCode = Some (o, st) → timely clock st.
Proof.
  apply (SnapshotFacts.run_keeps clock steps (timely clock)).
  - intros vs st' H. exact H.
  - intros x v st' H. unfold setBinding.
    destruct (scope st' !! x) as [[[] ?]|]; exact H.
  - intros k x v st' H. exact H.
  - intros a i v st' H. unfold setElement.
    destruct a; try exact H. destruct i; try exact H.
    destruct (heap st' !! l); [|exact H].
    destruct ((0 <=? n) && (n <=? maxArrayIndex)); exact H.
  - intros st' H. unfold tick. destruct (budget st'); exact H.
  - intros type data _. apply emit_timely.
  - split; [done|]. split; [simpl; lia|]. split; [constructor|].
    intros i j e e' _ Hi. by destruct i.
Qed.

(** X14: on a host whose clock never goes back, the timestamps of the
    events of a run are not negative and never decrease along the trace,
    and in a result with [success: true] no timestamp is greater than the
    [duration] of the result. *)
Theorem timestamps_are_ordered steps instrumentedCode options r h :
  execute clock steps instrumentedCode options = Some (r, h) →
  (∀ i j e e', (i ≤ j)%nat → trace r !! i = Some e → trace r !! j = Some e' →
     timestamp e ≤ timestamp e')
  ∧ Forall (λ e, 0 ≤ timestamp e ≤ duration r) (trace r).
Proof.
  unfold execute, executeWith. intros Hexecute.
  destruct (validTimeout _); [|done].
  destruct (run clock steps instrumentedCode) as [[o st]|] eqn:Hst; [|done].
  destruct (run_timely _ _ _ _ Hst) as (Hstart & Hreads & Hbounds & Hsorted).
  destruct o as [[]|v| |].
  - injection Hexecute as <- <-. simpl. split; [exact Hsorted|].
    eapply Forall_impl; [done|]. simpl. intros e He.
    assert (clock 0%nat ≤ clock 1%nat) by (apply monotone; lia).
    assert (clock (clockReads st - 1)%nat ≤ clock (clockReads st))
      by (apply monotone; lia).
    lia.
  - destruct (toString v); simplify_eq/=.
    split; [by intros [] ?|constructor].
  - simplify_eq/=. split; [by intros [] ?|constructor].
  - done.
Qed.

End Timestamps.

Lemma timestamps_are_ordered_witness :
  ∃ r h,
    Spec.instrumentAndExecute (λ k, 10 * Z.of_nat k) 10 Spec.swapSource
    = Some (r, h)
    ∧ Engine.timestamp <$> Executor.trace r = [10; 20; 30; 40]
    ∧ Executor.duration r = 60
    ∧ Forall (λ e, 0 ≤ Engine.timestamp e ≤ Executor.duration r)
        (Executor.trace r).
Proof.
  eexists _, _. split; [vm_compute; reflexivity|].
  split; [reflexivity|]. split; [reflexivity|].
  eapply proj2.
  eapply (timestamps_are_ordered (λ k, 10 * Z.of_nat k)
            ltac:(intros i j Hij; cbv beta; lia) 10
            (default EmptyString (Spec.instrumented Spec.swapSource))
            (Executor.mkOptions None)).
  vm_compute. reflexivity.
Defined.

(** * One line of trace calls per statement *)

Section Winners.
Import Instrumenter Spec Anchors.

Variable replaceWithText : ReplaceWithText.

(** X17: every statement gets the trace calls of one transformation only,
    the one collected first for it.  For a library that keeps the
    statements it replaces, and a file whose anchor statements do not
    overlap: when no manipulation raises, the text [transformSourceFile]
    leaves is the source text with one insertion for each statement that
    has a transformation, made at the end of the statement, and it is what
    the library has put there for the transformation collected first for
    that statement; what the other transformations of the statement would
    add is dropped.  When a manipulation raises, it is that of a
    transformation collected first for its statement, on a text in which
    the statement is still where the tree has it. *)
Theorem first_transformation_of_a_statement_wins sf inserted :
  orderly sf = true →
  keepsStatements replaceWithText sf inserted →
  match transformSourceFile replaceWithText sf with
  | Done text =>
      ∃ insertions,
        text = insertAll (fullText sf) insertions
        ∧ StronglySorted gt insertions.*1
        ∧ ∀ p c, (p, c) ∈ insertions ↔
            ∃ t, firstCollected sf t
                 ∧ p = getEnd (statement t) ∧ c = inserted t
  | Raised message _ =>
      ∃ t text,
        firstCollected sf t
        ∧ agrees sf t text
        ∧ replaceWithText sf text (statement t) (wrap (statement t))
            (newText t)
          = inl message
  end.
Proof.
  intros Horderly Hkeeps. unfold transformSourceFile.
  pose proof (apply_is_insertion replaceWithText sf inserted
                (sort byStartDescending (collect sf)) Horderly Hkeeps
                (fullText sf) [] (String.length (fullText sf))) as H.
  assert (match
            applyTransformations replaceWithText sf (fullText sf) []
              (sort byStartDescending (collect sf))
          with
          | Done text' =>
              ∃ insertions,
                text' = insertAll (fullText sf) insertions
                ∧ StronglySorted gt insertions.*1
                ∧ Forall (λ p, (p ≤ String.length (fullText sf))%nat)
                    insertions.*1
                ∧ ∀ p c, (p, c) ∈ insertions ↔
                    ∃ t, List.find (sameStatement t)
                           (sort byStartDescending (collect sf)) = Some t
                         ∧ replaced [] t = false
                         ∧ p = getEnd (statement t) ∧ c = inserted t
          | Raised message _ =>
              ∃ t text0,
                List.find (sameStatement t)
                  (sort byStartDescending (collect sf)) = Some t
                ∧ replaced [] t = false
                ∧ agrees sf t text0
                ∧ replaceWithText sf text0 (statement t) (wrap (statement t))
                    (newText t)
                  = inl message
          end) as H'.
  { apply H.
    - intros t. unfold byStartDescending.
      by rewrite (sort_elem (λ t, getStart (statement t))).
    - apply (sort_sorted (λ t, getStart (statement t))).
    - intros t e _ He. by apply elem_of_nil in He.
    - intros t Ht _.
      apply (proj1 (sort_elem (λ t, getStart (statement t)) t _)) in Ht.
      by destruct (orderly_anchor _ t Horderly Ht) as (_ & H0 & _).
    - done.
    - done. }
  clear H.
  destruct (applyTransformations _ _ _ _ _) as [text|message text].
  - destruct H' as (ins & -> & Hdesc & _ & Hall).
    exists ins. do 2 (split; [done|]). intros p c. rewrite Hall.
    unfold firstCollected. split.
    + intros (t & Hfind & _ & H). exists t. by rewrite <- find_sort.
    + intros (t & Hfind & H). exists t. by rewrite find_sort.
  - destruct H' as (t & text0 & Hfind & _ & Hagrees & Hraise).
    exists t, text0. unfold firstCollected. by rewrite <- find_sort.
Qed.

End Winners.

Lemma first_transformation_of_a_statement_wins_witness :
  let sf :=
    Instrumenter.mkSourceFile Anchors.twoDeclarationsSource
      (default [] (Frontend.parseProgram Anchors.twoDeclarationsSource)) in
  length (Instrumenter.collect sf) = 2%nat
  ∧ Instrumenter.known sf = true
  ∧ Instrumenter.transformSourceFile (Instrumenter.tsMorph EmptyString) sf
    = Instrumenter.Done
        ("const a=[1], b=[2];" +:+ newline +:+ "__trace.declare('a', a);")
  ∧ match
      Instrumenter.transformSourceFile (Instrumenter.tsMorph EmptyString) sf
    with
    | Instrumenter.Done text =>
        ∃ insertions,
          text = Spec.insertAll (Instrumenter.fullText sf) insertions
          ∧ StronglySorted gt insertions.*1
          ∧ ∀ p c, (p, c) ∈ insertions ↔
              ∃ t, Anchors.firstCollected sf t
                   ∧ p = Instrumenter.getEnd (Instrumenter.statement t)
                   ∧ c = Spec.calls sf t
    | Instrumenter.Raised message _ =>
        ∃ t text,
          Anchors.firstCollected sf t
          ∧ Spec.agrees sf t text
          ∧ Instrumenter.tsMorph EmptyString sf text (Instrumenter.statement t)
              (Instrumenter.wrap (Instrumenter.statement t))
              (Instrumenter.newText t)
            = inl message
    end.
Proof.
  intros sf. split; [vm_compute; reflexivity|].
  split; [vm_compute; reflexivity|]. split; [vm_compute; reflexivity|].
  apply (first_transformation_of_a_statement_wins
           (Instrumenter.tsMorph EmptyString) sf (Spec.calls sf)).
  - vm_compute. reflexivity.
  - apply tsMorph_keeps.
Defined.
